(** * A shallow embedding of the kinematics and motion core of the RDK

    The first half of the file holds the definitions, package by package:

    - [GoRuntime]: the fragments of the Go runtime the code relies on
      (errors of [pkg/errors], [fmt] verbs, float64, nil-able slices);
    - [spatialmath]: vectors and poses;
    - [referenceframe]: limits, inputs and single-DOF frames;
    - [modelconfig]: frame, link and joint configurations and the
      kinematic-chain parser [ModelConfig.ParseConfig];
    - [motionplan]: the constraint handler and its checks of a segment;
    - [builtin]: move requests, the actuation loop [execute] and the
      shared waypoint index.

    The second half holds the theorems, in the same order ([GoFacts],
    [SpatialFacts], [FrameFacts], [ConfigFacts], [ConstraintFacts],
    [RequestFacts]).

    float64 values are Rocq's primitive binary64 floats, Go [int]s are
    integers, slices that may be [nil] are optional lists, Go maps are
    [gmap]s, and a function of the repository whose code is not among the
    sources is either a parameter or, where a statement is about it, a
    definition marked as modelled from the spec. *)

From Stdlib Require Import ZArith Floats Uint63 List String Lia Bool DecimalString.
From stdpp Require Import gmap strings list fin_maps.

Set Warnings "-inexact-float".
Open Scope Z_scope.

(* ===================================================================== *)
(** * The Go runtime *)
(* ===================================================================== *)

Module GoRuntime.

(** ** Errors

    [errors.New], [fmt.Errorf] and [errors.Errorf] build an error from its
    message; [pkg/errors.Wrap] puts a message in front of a cause. *)
Inductive error : Type :=
  | errorString (msg : string)
  | withMessage (cause : error) (msg : string).

(** [err.Error()] *)
Fixpoint Error (e : error) : string :=
  match e with
  | errorString msg => msg
  | withMessage cause msg => msg +:+ ": " +:+ Error cause
  end.

(** [errors.Wrap(err, message)]: [nil] when [err] is [nil]. *)
Definition Wrap (err : option error) (message : string) : option error :=
  match err with
  | None => None
  | Some cause => Some (withMessage cause message)
  end.

(** A Go result pair [(value, error)] in which the value is only read
    when the error is [nil]. *)
Inductive result (A : Type) : Type :=
  | Ok (a : A)
  | Err (e : error).
Arguments Ok {A} a.
Arguments Err {A} e.

Definition isErr {A} (r : result A) : bool :=
  match r with Ok _ => false | Err _ => true end.

Definition isSome {A} (o : option A) : bool :=
  match o with Some _ => true | None => false end.

(** A call that may also end in a run-time panic (nil dereference). *)
Inductive outcome (A : Type) : Type :=
  | Returns (r : result A)
  | Panics.
Arguments Returns {A} r.
Arguments Panics {A}.

(** A slice that may be [nil]: [None] is the nil slice. *)
Definition slice (A : Type) : Type := option (list A).

(** [sub] occurs in [s]. *)
Definition contains (s sub : string) : Prop :=
  exists pre post : string, s = pre +:+ sub +:+ post.

(** Decidable search for [sub] in [s], as [strings.Contains]. *)
Fixpoint containsb (s sub : string) : bool :=
  String.prefix sub s ||
  match s with
  | EmptyString => false
  | String _ rest => containsb rest sub
  end.

(** ** int and float64 *)

(** A Go [int]. The code under study never brings one near the end of
    its 64-bit range. *)
Abbreviation int := BinNums.Z (only parsing).

Abbreviation float64 := float (only parsing).

(** [float64(i)] for an [int] *)
Definition float64_of_int (i : int) : float64 :=
  if i <? 0 then PrimFloat.opp (PrimFloat.of_uint63 (Uint63.of_Z (- i)))
  else PrimFloat.of_uint63 (Uint63.of_Z i).

(** ** fmt verbs *)

(** [fmt.Sprintf("%d", n)] *)
Definition fmt_d (n : int) : string := NilZero.string_of_int (Z.to_int n).

(** Quotient of [num / den] rounded to the nearest integer, ties to even. *)
Definition div_round_half_even (num den : Z) : Z :=
  let q := num / den in
  let r := num mod den in
  if 2 * r <? den then q
  else if den <? 2 * r then q + 1
  else if Z.even q then q else q + 1.

(** The magnitude [m * 2^e] in units of [10^-5], rounded as [strconv]
    does (exact value, nearest, ties to even). *)
Definition scaled5 (m : positive) (e : Z) : Z :=
  if 0 <=? e then Z.pos m * 2 ^ e * 100000
  else div_round_half_even (Z.pos m * 100000) (2 ^ (- e)).

Definition pad5 (s : string) : string :=
  String.concat "" (repeat "0"%string (5 - String.length s)%nat) +:+ s.

Definition fixed5 (n : Z) : string :=
  fmt_d (n / 100000) +:+ "." +:+ pad5 (fmt_d (n mod 100000)).

(** [fmt.Sprintf("%.5f", f)] *)
Definition fmt_5f (f : float64) : string :=
  match Prim2SF f with
  | S754_nan => "NaN"
  | S754_infinity true => "-Inf"
  | S754_infinity false => "+Inf"
  | S754_zero true => "-0.00000"
  | S754_zero false => "0.00000"
  | S754_finite s m e => (if s then "-" else "") +:+ fixed5 (scaled5 m e)
  end.

End GoRuntime.

Import GoRuntime.

(** ** Package math of the Go library *)

Module GoMath.

(** [math.IsNaN(f)], which is [f != f]. *)
Definition IsNaN (f : float64) : bool := negb (f =? f)%float.

(** [math.Signbit(x)] *)
Definition Signbit (x : float64) : bool := PrimFloat.get_sign x.

(** [math.Max(x, y)]: positive infinity and NaN come first, and of the
    two zeros the positive one is the larger. *)
Definition math_Max (x y : float64) : float64 :=
  if (x =? infinity)%float || (y =? infinity)%float then infinity
  else if IsNaN x || IsNaN y then nan
  else if (x =? 0)%float && (x =? y)%float then (if Signbit x then y else x)
  else if (y <? x)%float then x else y.

End GoMath.
Import GoMath.

(* ===================================================================== *)
(** * Package spatialmath (with golang/geo's r3) *)
(* ===================================================================== *)

Module spatialmath.

(** [r3.Vector] *)
Record Vector : Type := { X : float64; Y : float64; Z : float64 }.

Definition Mul (v : Vector) (m : float64) : Vector :=
  {| X := (m * X v)%float; Y := (m * Y v)%float; Z := (m * Z v)%float |}.


Definition Sub (a b : Vector) : Vector :=
  {| X := (X a - X b)%float; Y := (Y a - Y b)%float; Z := (Z a - Z b)%float |}.

Definition Norm2 (v : Vector) : float64 :=
  (X v * X v + Y v * Y v + Z v * Z v)%float.

Definition Norm (v : Vector) : float64 := PrimFloat.sqrt (Norm2 v).

(** [r3.Vector.Normalize]: the unit vector in the direction of [v], the
    zero vector when [v] has no length. *)
Definition Normalize (v : Vector) : Vector :=
  let n2 := Norm2 v in
  if (n2 =? 0)%float then {| X := 0; Y := 0; Z := 0 |}
  else Mul v (1 / PrimFloat.sqrt n2)%float.

(** Axis-angle orientation [spatialmath.R4AA]. *)
Record R4AA : Type :=
  { Theta : float64; RX : float64; RY : float64; RZ : float64 }.

(** [NewZeroOrientation]: no rotation, about the z axis. *)
Definition NewZeroOrientation : R4AA :=
  {| Theta := 0; RX := 0; RY := 0; RZ := 1 |}.

(** A pose: a point and an orientation. *)
Record Pose : Type := { Point : Vector; Orientation : R4AA }.

Definition NewPoseFromPoint (pt : Vector) : Pose :=
  {| Point := pt; Orientation := NewZeroOrientation |}.

Definition NewPoseFromOrientation (pt : Vector) (o : R4AA) : Pose :=
  {| Point := pt; Orientation := o |}.

Definition NewPose (pt : Vector) (o : R4AA) : Pose :=
  {| Point := pt; Orientation := o |}.

Definition near (a b epsilon : float64) : bool :=
  (PrimFloat.abs (a - b) <? epsilon)%float.

(** Modelled from the spec: [R3VectorAlmostEqual] is declared outside
    src/; the spec compares pose points "within floating tolerance",
    component by component. *)
Definition R3VectorAlmostEqual (a b : Vector) (epsilon : float64) : bool :=
  near (X a) (X b) epsilon && near (Y a) (Y b) epsilon
  && near (Z a) (Z b) epsilon.

(** Modelled from the spec: the floating tolerance of pose comparison. *)
Definition floatTolerance : float64 := 1e-8%float.

(** Modelled from the spec: [PoseAlmostEqual] is declared outside src/;
    two poses are almost equal when their points and their orientations
    agree within the floating tolerance. *)
Definition PoseAlmostEqual (a b : Pose) : bool :=
  R3VectorAlmostEqual (Point a) (Point b) floatTolerance
  && near (Theta (Orientation a)) (Theta (Orientation b)) floatTolerance
  && near (RX (Orientation a)) (RX (Orientation b)) floatTolerance
  && near (RY (Orientation a)) (RY (Orientation b)) floatTolerance
  && near (RZ (Orientation a)) (RZ (Orientation b)) floatTolerance.


End spatialmath.

(* ===================================================================== *)
(** * Package referenceframe: frames *)
(* ===================================================================== *)

Module referenceframe.
Import spatialmath.

(** The name of the root of every frame system. *)
Definition World : string := "world".

(** [Limit]: the bounds of one degree of freedom. *)
Record Limit : Type := { Min : float64; Max : float64 }.

(** [Input]: the value of one degree of freedom. *)
Record Input : Type := { Value : float64 }.

Definition FloatsToInputs (floats : list float64) : list Input :=
  map (fun f => {| Value := f |}) floats.

(** The [Frame] interface, as far as the code under study calls it. *)
Record Frame : Type :=
  { Name : string;
    Transform : list Input -> result Pose;
    DoF : list Limit }.

(** [baseFrame], as the struct literal of [TestRevoluteFrame] lays it out. *)
Record baseFrame : Type := { name : string; limits : list Limit }.

(** Modelled from the spec: the constant [OOBErrString] is declared
    outside src/; the spec names the failure an out-of-bounds error. *)
Definition OOBErrString : string := "input out of bounds".

(** A [Limit] under the verb [%.5f]: the verb applies to each field. *)
Definition fmt_5f_Limit (l : Limit) : string :=
  "{" +:+ fmt_5f (Min l) +:+ " " +:+ fmt_5f (Max l) +:+ "}".

(** The error the frame tests expect for a value beyond a limit:
    [errors.Errorf("%.5f %s %.5f", value, OOBErrString, limit)]. *)
Definition OOBError (value : float64) (l : Limit) : error :=
  errorString (fmt_5f value +:+ " " +:+ OOBErrString +:+ " " +:+ fmt_5f_Limit l).

(** Modelled from the spec: the error for a configuration of the wrong
    length (the constructor is declared outside src/). *)
Definition NewIncorrectInputLengthError (actual expected : nat) : error :=
  errorString ("incorrect number of inputs to transform, expected "
               +:+ fmt_d (Z.of_nat expected) +:+ " but got "
               +:+ fmt_d (Z.of_nat actual)).

Definition outOfBounds (i : Input) (l : Limit) : bool :=
  (Value i <? Min l)%float || (Max l <? Value i)%float.

Fixpoint checkLimits (inputs : list Input) (ls : list Limit) : option error :=
  match inputs, ls with
  | i :: inputs', l :: ls' =>
      if outOfBounds i l then Some (OOBError (Value i) l)
      else checkLimits inputs' ls'
  | _, _ => None
  end.

(** Modelled from the spec: [baseFrame.validInputs] is declared outside
    src/. A configuration must have one value per degree of freedom, and
    a value outside a DOF's [{min,max}] is an out-of-bounds error that
    identifies the offending limit. *)
Definition validInputs (bf : baseFrame) (inputs : list Input) : option error :=
  if Nat.eqb (length inputs) (length (limits bf))
  then checkLimits inputs (limits bf)
  else Some (NewIncorrectInputLengthError (length inputs) (length (limits bf))).

(** [translationalFrame]: one degree of freedom along an axis. *)
Record translationalFrame : Type :=
  { t_baseFrame : baseFrame; transAxis : Vector }.

(** [rotationalFrame]: one degree of freedom about an axis. *)
Record rotationalFrame : Type :=
  { r_baseFrame : baseFrame; rotAxis : Vector }.

(** Modelled from the spec: [translationalFrame.Transform] is declared
    outside src/. The transform scales the unit axis by the scalar
    input. *)
Definition translationalFrame_Transform
    (pf : translationalFrame) (input : list Input) : result Pose :=
  match validInputs (t_baseFrame pf) input with
  | Some err => Err err
  | None =>
      match input with
      | i :: _ => Ok (NewPoseFromPoint (Mul (transAxis pf) (Value i)))
      | [] => Err (NewIncorrectInputLengthError 0 1)
      end
  end.

(** Modelled from the spec: [rotationalFrame.Transform] is declared
    outside src/. The transform rotates about the axis by the scalar
    input. *)
Definition rotationalFrame_Transform
    (rf : rotationalFrame) (input : list Input) : result Pose :=
  match validInputs (r_baseFrame rf) input with
  | Some err => Err err
  | None =>
      match input with
      | i :: _ =>
          Ok (NewPoseFromOrientation {| X := 0; Y := 0; Z := 0 |}
                {| Theta := Value i; RX := X (rotAxis rf);
                   RY := Y (rotAxis rf); RZ := Z (rotAxis rf) |})
      | [] => Err (NewIncorrectInputLengthError 0 1)
      end
  end.

(** The two structs seen through the [Frame] interface. *)
Definition translationalFrame_Frame (pf : translationalFrame) : Frame :=
  {| Name := name (t_baseFrame pf);
     Transform := translationalFrame_Transform pf;
     DoF := limits (t_baseFrame pf) |}.

Definition rotationalFrame_Frame (rf : rotationalFrame) : Frame :=
  {| Name := name (r_baseFrame rf);
     Transform := rotationalFrame_Transform rf;
     DoF := limits (r_baseFrame rf) |}.

(** Modelled from the spec: [NewTranslationalFrame] is declared outside
    src/. It keeps the unit vector of the axis it is given. *)
Definition NewTranslationalFrame
    (name_ : string) (axis : Vector) (limit : Limit) : result Frame :=
  Ok (translationalFrame_Frame
        {| t_baseFrame := {| name := name_; limits := [limit] |};
           transAxis := Normalize axis |}).

(** Modelled from the spec: [NewRotationalFrame] is declared outside
    src/. It keeps the unit vector of the rotation axis it is given. *)
Definition NewRotationalFrame
    (name_ : string) (axis : R4AA) (limit : Limit) : result Frame :=
  Ok (rotationalFrame_Frame
        {| r_baseFrame := {| name := name_; limits := [limit] |};
           rotAxis := Normalize {| X := RX axis; Y := RY axis; Z := RZ axis |} |}).

(** A frame with a single degree of freedom bounded by [limit]:
    translational or rotational, whatever its name and axis. *)
Inductive SingleDOF (limit : Limit) : Frame -> Prop :=
  | SingleDOF_translational (name_ : string) (axis : Vector) :
      SingleDOF limit
        (translationalFrame_Frame
           {| t_baseFrame := {| name := name_; limits := [limit] |};
              transAxis := axis |})
  | SingleDOF_rotational (name_ : string) (axis : Vector) :
      SingleDOF limit
        (rotationalFrame_Frame
           {| r_baseFrame := {| name := name_; limits := [limit] |};
              rotAxis := axis |}).

(** The prismatic frame of [TestPrismaticFrame]: axis (3,4,0), limit
    [{-30, 30}]. *)
Definition testPrismaticFrame (name_ : string) : result Frame :=
  NewTranslationalFrame name_ {| X := 3; Y := 4; Z := 0 |}
    {| Min := (-30)%float; Max := 30%float |}.

(** [TestPrismaticFrame], lines 43-52: the pose at input 5 is compared
    with [expPose] by [PoseAlmostEqual]. *)
Definition TestPrismaticFrame_pose (expPoint : Vector) : bool :=
  match testPrismaticFrame "test" with
  | Ok frame =>
      match Transform frame (FloatsToInputs [5%float]) with
      | Ok pose => PoseAlmostEqual pose (NewPoseFromPoint expPoint)
      | Err _ => false
      end
  | Err _ => false
  end.

(** The revolute frame of [TestRevoluteFrame]: a struct literal with the
    x axis and limits of a quarter turn either way. *)
Definition testRevoluteFrame (name_ : string) : Frame :=
  rotationalFrame_Frame
    {| r_baseFrame :=
         {| name := name_;
            limits := [ {| Min := (-1.5707963267948966)%float;
                           Max := 1.5707963267948966%float |} ] |};
       rotAxis := {| X := 1; Y := 0; Z := 0 |} |}.

End referenceframe.


(* ===================================================================== *)
(** * Package referenceframe: frame and model configurations *)
(* ===================================================================== *)

Module modelconfig.
Import spatialmath referenceframe.

(** The joint types the package treats as constants. *)
Definition FixedJoint : string := "fixed".
Definition ContinuousJoint : string := "continuous".
Definition PrismaticJoint : string := "prismatic".
Definition RevoluteJoint : string := "revolute".

(** What this file calls of the rest of the repository: the parsers of
    package spatialmath, the frame constructors of frame.go, the model
    of model.go. Their code is not under src/. *)
Class Env : Type :=
  { OrientationConfig : Type;
    (** [OrientationConfig.ParseConfig] *)
    OrientationConfig_ParseConfig : OrientationConfig -> result R4AA;
    GeometryConfig : Type;
    Geometry : Type;
    (** [GeometryConfig.ParseConfig]; the receiver may be [nil] *)
    GeometryConfig_ParseConfig : option GeometryConfig -> result Geometry;
    Geometry_Label : Geometry -> string;
    Geometry_SetLabel : Geometry -> string -> Geometry;
    (** [AxisConfig.ParseConfig] *)
    AxisConfig_ParseConfig : Vector -> R4AA;
    (** [utils.DegToRad] *)
    DegToRad : float64 -> float64;
    NewPoseFromDH : float64 -> float64 -> float64 -> Pose;
    NewStaticFrame : string -> Pose -> result Frame;
    NewStaticFrameWithGeometry : string -> Pose -> Geometry -> result Frame;
    NewRotationalFrame : string -> R4AA -> Limit -> result Frame;
    NewTranslationalFrame : string -> Vector -> Limit -> result Frame;
    NewUnsupportedJointTypeError : string -> error;
    (** [sortTransforms(unsorted, parentMap, start, finish)] *)
    sortTransforms :
      gmap string Frame -> gmap string string -> string -> string ->
      result (list Frame) }.

(** [ErrNilPose]; [TestStaticFrame] expects this message for a nil pose. *)
Definition ErrNilPose : error := errorString "pose is not allowed to be nil".

(** [LinkConfig] is a static frame that also has a specified parent. *)
Module LinkConfig.
Record t `{Env} : Type :=
  { ID : string;
    Translation : Vector;
    Orientation : option OrientationConfig;
    Parent : string }.
End LinkConfig.

(** [FrameConfig] *)
Module FrameConfig.
Record t `{Env} : Type :=
  { Link : option LinkConfig.t;
    Geometries : slice (option GeometryConfig) }.
End FrameConfig.

(** [JointConfig] is a frame with nonzero DOF. *)
Module JointConfig.
Record t `{Env} : Type :=
  { ID : string;
    Type_ : string;
    Parent : string;
    Axis : Vector;
    Max : float64;
    Min : float64;
    Geometry_ : option GeometryConfig }.
End JointConfig.

(** [DHParamConfig]: a row of Denavit-Hartenberg parameters. *)
Module DHParamConfig.
Record t `{Env} : Type :=
  { ID : string;
    Parent : string;
    A : float64;
    D : float64;
    Alpha : float64;
    Max : float64;
    Min : float64;
    Geometry_ : option GeometryConfig }.
End DHParamConfig.

(** [ModelConfig]: all supported fields of a kinematics JSON file. *)
Module ModelConfig.
Record t `{Env} : Type :=
  { Name : string;
    KinParamType : string;
    Links : list LinkConfig.t;
    Joints : list JointConfig.t;
    DHParams : list DHParamConfig.t }.
End ModelConfig.

(** [LinkInFrame], as [NewLinkInFrame(parent, pose, name, geometries)]
    fills it. *)
Record LinkInFrame `{Env} : Type :=
  { lif_parent : string;
    lif_pose : Pose;
    lif_name : string;
    lif_geometries : slice Geometry }.

(** [SimpleModel], as [ParseConfig] fills it. *)
Record SimpleModel `{Env} : Type :=
  { model_name : string;
    modelConfig : ModelConfig.t;
    OrdTransforms : list Frame }.

Section Parsing.
Context `{Env}.

(** Reading a field through a pointer: a nil pointer panics. *)
Definition deref {A B : Type} (p : option A) (k : A -> outcome B) : outcome B :=
  match p with
  | Some a => k a
  | None => Panics
  end.

(** [FrameConfig.Pose] (part_002, lines 99-114). *)
Definition FrameConfig_Pose (cfg : FrameConfig.t) : outcome Pose :=
  let link := FrameConfig.Link cfg in
  if bool_decide (is_Some link) then Returns (Err ErrNilPose)
  else
    deref link (fun link =>
      let pt := LinkConfig.Translation link in
      match LinkConfig.Orientation link with
      | Some orientation =>
          match OrientationConfig_ParseConfig orientation with
          | Err err => Returns (Err err)
          | Ok orient => Returns (Ok (NewPose pt orient))
          end
      | None => Returns (Ok (NewPoseFromPoint pt))
      end).

(** The loop over [cfg.Geometries] of [FrameConfig.ParseConfig] (lines
    85-95); [cfg.Link.ID] is read for a geometry without a label. *)
Fixpoint parseGeometries (link : option LinkConfig.t)
    (cfgs : list (option GeometryConfig)) (geometries : slice Geometry)
    : outcome (slice Geometry) :=
  match cfgs with
  | [] => Returns (Ok geometries)
  | cfgGeometry :: rest =>
      match GeometryConfig_ParseConfig cfgGeometry with
      | Err err => Returns (Err err)
      | Ok geo =>
          if String.eqb (Geometry_Label geo) "" then
            deref link (fun link =>
              parseGeometries (Some link) rest
                (Some (default [] geometries
                       ++ [Geometry_SetLabel geo (LinkConfig.ID link)])))
          else parseGeometries link rest (Some (default [] geometries ++ [geo]))
      end
  end.

(** [FrameConfig.ParseConfig] (part_002, lines 78-97). *)
Definition FrameConfig_ParseConfig (cfg : FrameConfig.t) : outcome LinkInFrame :=
  match FrameConfig_Pose cfg with
  | Panics => Panics
  | Returns (Err err) => Returns (Err err)
  | Returns (Ok pose) =>
      match parseGeometries (FrameConfig.Link cfg)
              (default [] (FrameConfig.Geometries cfg)) None with
      | Panics => Panics
      | Returns (Err err) => Returns (Err err)
      | Returns (Ok geometries) =>
          deref (FrameConfig.Link cfg) (fun link =>
            Returns (Ok {| lif_parent := LinkConfig.Parent link; lif_pose := pose;
                           lif_name := LinkConfig.ID link;
                           lif_geometries := geometries |}))
      end
  end.

(** [JointConfig.ToFrame] (part_002, lines 116-128). *)
Definition JointConfig_ToFrame (cfg : JointConfig.t) : result Frame :=
  if String.eqb (JointConfig.Type_ cfg) RevoluteJoint then
    NewRotationalFrame (JointConfig.ID cfg)
      (AxisConfig_ParseConfig (JointConfig.Axis cfg))
      {| referenceframe.Min := DegToRad (JointConfig.Min cfg);
         referenceframe.Max := DegToRad (JointConfig.Max cfg) |}
  else if String.eqb (JointConfig.Type_ cfg) PrismaticJoint then
    NewTranslationalFrame (JointConfig.ID cfg) (JointConfig.Axis cfg)
      {| referenceframe.Min := JointConfig.Min cfg;
         referenceframe.Max := JointConfig.Max cfg |}
  else Err (NewUnsupportedJointTypeError (JointConfig.Type_ cfg)).

(** The two maps [ParseConfig] fills: frames by id, and the parent of
    each id. *)
Definition Transforms : Type := gmap string Frame * gmap string string.

(** [LinkConfig.ToStaticFrame] is not under src/; it is a parameter of
    the parser. *)
Variable LinkConfig_ToStaticFrame : LinkConfig.t -> string -> result Frame.

(** Lines 294-300: the loop over the links. *)
Fixpoint addLinks (links : list LinkConfig.t) (acc : Transforms) : result Transforms :=
  match links with
  | [] => Ok acc
  | link :: rest =>
      let parentMap := <[LinkConfig.ID link := LinkConfig.Parent link]> (snd acc) in
      match LinkConfig_ToStaticFrame link (LinkConfig.ID link) with
      | Err err => Err err
      | Ok frame => addLinks rest (<[LinkConfig.ID link := frame]> (fst acc), parentMap)
      end
  end.

(** Lines 303-310: the loop over the joints. *)
Fixpoint addJoints (joints : list JointConfig.t) (acc : Transforms) : result Transforms :=
  match joints with
  | [] => Ok acc
  | joint :: rest =>
      let parentMap := <[JointConfig.ID joint := JointConfig.Parent joint]> (snd acc) in
      match JointConfig_ToFrame joint with
      | Err err => Err err
      | Ok frame => addJoints rest (<[JointConfig.ID joint := frame]> (fst acc), parentMap)
      end
  end.

(** Lines 313-336: the loop over the DH rows; each row gives a joint
    [ID_j] and a link [ID] whose parent is that joint. *)
Fixpoint addDHParams (dhs : list DHParamConfig.t) (acc : Transforms) : result Transforms :=
  match dhs with
  | [] => Ok acc
  | dh :: rest =>
      let jointID := DHParamConfig.ID dh +:+ "_j" in
      let parentMap := <[jointID := DHParamConfig.Parent dh]> (snd acc) in
      match NewRotationalFrame jointID {| Theta := 0; RX := 0; RY := 0; RZ := 1 |}
              {| referenceframe.Min := DegToRad (DHParamConfig.Min dh);
                 referenceframe.Max := DegToRad (DHParamConfig.Max dh) |} with
      | Err err => Err err
      | Ok jointFrame =>
          let transforms := <[jointID := jointFrame]> (fst acc) in
          let linkID := DHParamConfig.ID dh in
          let pose := NewPoseFromDH (DHParamConfig.A dh) (DHParamConfig.D dh)
                        (DegToRad (DHParamConfig.Alpha dh)) in
          let parentMap := <[linkID := jointID]> parentMap in
          let linkFrame :=
            match GeometryConfig_ParseConfig (DHParamConfig.Geometry_ dh) with
            | Ok geometryCreator =>
                NewStaticFrameWithGeometry (DHParamConfig.ID dh) pose geometryCreator
            | Err _ => NewStaticFrame (DHParamConfig.ID dh) pose
            end in
          match linkFrame with
          | Err err => Err err
          | Ok frame =>
              addDHParams rest (<[DHParamConfig.ID dh := frame]> transforms, parentMap)
          end
      end
  end.

Definition namedWorldLink (links : list LinkConfig.t) : bool :=
  existsb (fun link => String.eqb (LinkConfig.ID link) World) links.

Definition namedWorldJoint (joints : list JointConfig.t) : bool :=
  existsb (fun joint => String.eqb (JointConfig.ID joint) World) joints.

(** Lines 281-340: the switch on [cfg.KinParamType]. *)
Definition collectTransforms (cfg : ModelConfig.t) : result Transforms :=
  let kind := ModelConfig.KinParamType cfg in
  if String.eqb kind "SVA" || String.eqb kind "" then
    if namedWorldLink (ModelConfig.Links cfg) then
      Err (errorString "reserved word: cannot name a link 'world'")
    else if namedWorldJoint (ModelConfig.Joints cfg) then
      Err (errorString "reserved word: cannot name a joint 'world'")
    else
      match addLinks (ModelConfig.Links cfg) (∅, ∅) with
      | Err err => Err err
      | Ok acc => addJoints (ModelConfig.Joints cfg) acc
      end
  else if String.eqb kind "DH" then
    addDHParams (ModelConfig.DHParams cfg) (∅, ∅)
  else
    Err (errorString ("unsupported param type: " +:+ kind
                      +:+ ", supported params are SVA and DH")).

(** The two maps of a description, empty when collecting them fails. *)
Definition collected (cfg : ModelConfig.t) : Transforms :=
  match collectTransforms cfg with
  | Ok maps => maps
  | Err _ => (∅, ∅)
  end.

(** [parentMap[id]]: the empty string for an id the map does not hold. *)
Definition parentOf (parentMap : gmap string string) (id : string) : string :=
  default "" (parentMap !! id).

(** Lines 343-351: a copy of [transforms] from which the parent of every
    transform has been deleted; what is left has no children. *)
Definition childless (transforms : gmap string Frame)
    (parentMap : gmap string string) : gmap string Frame :=
  foldr (fun entry parents => delete (parentOf parentMap (Name (snd entry))) parents)
    transforms (map_to_list transforms).

(** Lines 363-365: [for id := range parents { eename = id }]. *)
Definition lastKey (parents : gmap string Frame) : string :=
  foldl (fun _ entry => fst entry) "" (map_to_list parents).

(** [ModelConfig.ParseConfig] (frame_test.go, second part, lines
    268-375). *)
Definition ParseConfig (cfg : ModelConfig.t) (modelName : string) : result SimpleModel :=
  let modelName := if String.eqb modelName "" then ModelConfig.Name cfg else modelName in
  match collectTransforms cfg with
  | Err err => Err err
  | Ok (transforms, parentMap) =>
      let parents := childless transforms parentMap in
      if (1 <? size parents)%nat then
        Err (errorString "more than one end effector not supported")
      else if (size parents <? 1)%nat then
        Err (errorString "need at least one end effector")
      else
        let eename := lastKey parents in
        match sortTransforms transforms parentMap eename World with
        | Err err => Err err
        | Ok orderedTransforms =>
            Ok {| model_name := modelName; modelConfig := cfg;
                  OrdTransforms := orderedTransforms |}
        end
  end.

(** ** Predicates of the statements about the parser *)

(** A joint type [ToFrame] has no case for. *)
Definition unsupported (joint : JointConfig.t) : Prop :=
  JointConfig.Type_ joint <> RevoluteJoint /\
  JointConfig.Type_ joint <> PrismaticJoint.

(** A description read as links and joints: kind "SVA" or none. *)
Definition isSVA (cfg : ModelConfig.t) : Prop :=
  ModelConfig.KinParamType cfg = "SVA"%string \/
  ModelConfig.KinParamType cfg = ""%string.

(** [id] names a transform that is the parent of no transform. *)
Definition isEndEffector (transforms : gmap string Frame)
    (parentMap : gmap string string) (id : string) : Prop :=
  is_Some (transforms !! id) /\
  forall (id' : string) (frame : Frame),
    transforms !! id' = Some frame ->
    parentOf parentMap (referenceframe.Name frame) <> id.

End Parsing.

(** ** A concrete environment for examples

    The frame constructors are the ones modelled in [referenceframe];
    the parsers of package spatialmath are replaced by the simplest
    stand-ins (a configuration is its own parsed value). *)

(** Modelled from the spec: a static frame has no degree of freedom;
    [Transform] returns the fixed pose on the empty input and an error
    on any other. *)
Definition staticFrame_Frame (name_ : string) (pose : Pose) : Frame :=
  {| referenceframe.Name := name_;
     Transform := fun input =>
       match input with
       | [] => Ok pose
       | _ => Err (NewIncorrectInputLengthError (length input) 0)
       end;
     DoF := [] |}.

(** Modelled from the spec: the frames are ordered along the parent map
    from the end effector up to the world; a walk that does not reach
    the world within the number of frames has met a cycle or a missing
    parent, and construction fails. *)
Fixpoint walkToWorld (fuel : nat) (transforms : gmap string Frame)
    (parentMap : gmap string string) (cur finish : string)
    (acc : list Frame) : result (list Frame) :=
  match fuel with
  | O => Err (errorString "infinite loop finding path from end effector to world")
  | S fuel' =>
      match transforms !! cur with
      | None => Err (errorString ("frame not found: " +:+ cur))
      | Some frame =>
          let parent := default "" (parentMap !! cur) in
          if String.eqb parent finish then Ok (frame :: acc)
          else walkToWorld fuel' transforms parentMap parent finish (frame :: acc)
      end
  end.

Definition exampleEnv : Env :=
  {| OrientationConfig := R4AA;
     OrientationConfig_ParseConfig := fun o => Ok o;
     GeometryConfig := string;
     Geometry := string;
     GeometryConfig_ParseConfig := fun cfg =>
       match cfg with
       | Some label => Ok label
       | None => Err (errorString "nil geometry config")
       end;
     Geometry_Label := fun g => g;
     Geometry_SetLabel := fun _ label => label;
     AxisConfig_ParseConfig := fun a =>
       {| Theta := 0; RX := X a; RY := Y a; RZ := Z a |};
     DegToRad := fun d => (d * 3.141592653589793 / 180)%float;
     NewPoseFromDH := fun a d alpha =>
       NewPoseFromOrientation {| X := a; Y := 0; Z := d |}
         {| Theta := alpha; RX := 1; RY := 0; RZ := 0 |};
     NewStaticFrame := fun name_ pose => Ok (staticFrame_Frame name_ pose);
     NewStaticFrameWithGeometry := fun name_ pose _ => Ok (staticFrame_Frame name_ pose);
     NewRotationalFrame := referenceframe.NewRotationalFrame;
     NewTranslationalFrame := referenceframe.NewTranslationalFrame;
     NewUnsupportedJointTypeError := fun jointType =>
       errorString ("unsupported joint type detected: " +:+ jointType);
     sortTransforms := fun transforms parentMap start finish =>
       walkToWorld (size transforms) transforms parentMap start finish [] |}.

(** A link of the example environment becomes a static frame at its
    translation. *)
Definition exampleToStaticFrame
    (link : @LinkConfig.t exampleEnv) (name_ : string) : result Frame :=
  Ok (staticFrame_Frame name_
        (match LinkConfig.Orientation link with
         | Some o => NewPose (LinkConfig.Translation link) o
         | None => NewPoseFromPoint (LinkConfig.Translation link)
         end)).

(** A two-joint arm: base link, a revolute shoulder, a prismatic slide. *)
Definition exampleJoint (id type_ parent : string) : @JointConfig.t exampleEnv :=
  {| JointConfig.ID := id; JointConfig.Type_ := type_;
     JointConfig.Parent := parent;
     JointConfig.Axis := {| X := 0; Y := 0; Z := 1 |};
     JointConfig.Max := 90; JointConfig.Min := (-90)%float;
     JointConfig.Geometry_ := None |}.

Definition exampleLink (id parent : string) : @LinkConfig.t exampleEnv :=
  {| LinkConfig.ID := id;
     LinkConfig.Translation := {| X := 0; Y := 0; Z := 100 |};
     LinkConfig.Orientation := None;
     LinkConfig.Parent := parent |}.

Definition exampleModel (links : list (@LinkConfig.t exampleEnv))
    (joints : list (@JointConfig.t exampleEnv)) : @ModelConfig.t exampleEnv :=
  {| ModelConfig.Name := "arm"; ModelConfig.KinParamType := "SVA";
     ModelConfig.Links := links; ModelConfig.Joints := joints;
     ModelConfig.DHParams := [] |}.

Definition exampleArm : @ModelConfig.t exampleEnv :=
  exampleModel [exampleLink "base" "world"]
    [exampleJoint "shoulder" "revolute" "base";
     exampleJoint "slide" "prismatic" "shoulder"].

(** A DH description of one row that also lists a link called "world". *)
Definition exampleDH : @ModelConfig.t exampleEnv :=
  {| ModelConfig.Name := "dh"; ModelConfig.KinParamType := "DH";
     ModelConfig.Links := [exampleLink "world" "world"];
     ModelConfig.Joints := [];
     ModelConfig.DHParams :=
       [ {| DHParamConfig.ID := "a"; DHParamConfig.Parent := "world";
            DHParamConfig.A := 0; DHParamConfig.D := 10; DHParamConfig.Alpha := 90;
            DHParamConfig.Max := 180; DHParamConfig.Min := (-180)%float;
            DHParamConfig.Geometry_ := None |} ] |}.

(** ** The rest of the configurations *)

(** [staticFrame], by the fields [NewFrameConfig] reads. *)
Module StaticFrame.
Record t `{Env} : Type :=
  { name : string;
    transform : Pose;
    geometry : option Geometry }.
End StaticFrame.

(** [ErrNoModelInformation] (frame_test.go, second part, line 388). *)
Definition ErrNoModelInformation : error := errorString "no model information".

Section Loading.
Context `{Env}.

(** [spatialmath.NewOrientationConfig] and [spatialmath.NewGeometryConfig]
    are not under src/; each returns a pointer and an error. *)
Variable NewOrientationConfig : R4AA -> result (option OrientationConfig).
Variable NewGeometryConfig : Geometry -> result (option GeometryConfig).

(** [NewFrameConfig] (part_002, lines 55-75). *)
Definition NewFrameConfig (frame : StaticFrame.t) : result FrameConfig.t :=
  match NewOrientationConfig (Orientation (StaticFrame.transform frame)) with
  | Err err => Err err
  | Ok orient =>
      let geom :=
        match StaticFrame.geometry frame with
        | Some geometry => NewGeometryConfig geometry
        | None => Ok None
        end in
      match geom with
      | Err err => Err err
      | Ok geom =>
          Ok {| FrameConfig.Link :=
                  Some {| LinkConfig.ID := StaticFrame.name frame;
                          LinkConfig.Translation :=
                            Point (StaticFrame.transform frame);
                          LinkConfig.Orientation := orient;
                          LinkConfig.Parent := "" |};
                FrameConfig.Geometries := Some [geom] |}
      end
  end.

(** [DHParamConfig.ToDHFrames] (part_002, lines 131-159): the joint
    frame and the link frame of a row. *)
Definition DHParamConfig_ToDHFrames (cfg : DHParamConfig.t) : result (Frame * Frame) :=
  let jointID := DHParamConfig.ID cfg +:+ "_j" in
  match NewRotationalFrame jointID {| Theta := 0; RX := 0; RY := 0; RZ := 1 |}
          {| referenceframe.Min := DegToRad (DHParamConfig.Min cfg);
             referenceframe.Max := DegToRad (DHParamConfig.Max cfg) |} with
  | Err err => Err err
  | Ok rFrame =>
      let linkID := DHParamConfig.ID cfg in
      let pose := NewPoseFromDH (DHParamConfig.A cfg) (DHParamConfig.D cfg)
                    (DegToRad (DHParamConfig.Alpha cfg)) in
      match DHParamConfig.Geometry_ cfg with
      | Some geometry =>
          match GeometryConfig_ParseConfig (Some geometry) with
          | Err err => Err err
          | Ok geometryCreator =>
              match NewStaticFrameWithGeometry linkID pose geometryCreator with
              | Err err => Err err
              | Ok lFrame => Ok (rFrame, lFrame)
              end
          end
      | None =>
          match NewStaticFrame (DHParamConfig.ID cfg) pose with
          | Err err => Err err
          | Ok lFrame => Ok (rFrame, lFrame)
          end
      end
  end.

Variable LinkConfig_ToStaticFrame : LinkConfig.t -> string -> result Frame.

(** [json.Unmarshal] into an empty [ModelConfig]. *)
Variable json_Unmarshal : list Byte.byte -> result ModelConfig.t.

(** [UnmarshalModelJSON] (frame_test.go, second part, lines 392-406). *)
Definition UnmarshalModelJSON (jsonData : list Byte.byte) (modelName : string)
    : result SimpleModel :=
  if (length jsonData =? 0)%nat then Err ErrNoModelInformation
  else
    match json_Unmarshal jsonData with
    | Err err => Err (withMessage err "failed to unmarshal json file")
    | Ok m => ParseConfig LinkConfig_ToStaticFrame m modelName
    end.

(** ** Predicates of the statements about the rows of a description *)

(** The link and the joint a frame of the maps was built from. *)
Definition fromLink (cfg : ModelConfig.t) (id : string) (frame : Frame)
    (parent : option string) : Prop :=
  exists link, link ∈ ModelConfig.Links cfg /\ LinkConfig.ID link = id /\
    LinkConfig_ToStaticFrame link id = Ok frame /\
    parent = Some (LinkConfig.Parent link).

Definition fromJoint (cfg : ModelConfig.t) (id : string) (frame : Frame)
    (parent : option string) : Prop :=
  exists joint, joint ∈ ModelConfig.Joints cfg /\ JointConfig.ID joint = id /\
    JointConfig_ToFrame joint = Ok frame /\
    parent = Some (JointConfig.Parent joint).

(** The link frame the loop of [ParseConfig] builds for a DH row (lines
    326-332): with the geometry when its configuration parses, without
    it otherwise. *)
Definition rowLinkFrame (dh : DHParamConfig.t) : result Frame :=
  let pose := NewPoseFromDH (DHParamConfig.A dh) (DHParamConfig.D dh)
                (DegToRad (DHParamConfig.Alpha dh)) in
  match GeometryConfig_ParseConfig (DHParamConfig.Geometry_ dh) with
  | Ok geometryCreator =>
      NewStaticFrameWithGeometry (DHParamConfig.ID dh) pose geometryCreator
  | Err _ => NewStaticFrame (DHParamConfig.ID dh) pose
  end.

(** The DH row a frame of the maps was built from: the link of the row,
    whose parent is the joint of the row, or the joint of the row. *)
Definition fromRowLink (cfg : ModelConfig.t) (id : string) (frame : Frame)
    (parent : option string) : Prop :=
  exists dh, dh ∈ ModelConfig.DHParams cfg /\ DHParamConfig.ID dh = id /\
    rowLinkFrame dh = Ok frame /\
    parent = Some (DHParamConfig.ID dh +:+ "_j").

Definition fromRowJoint (cfg : ModelConfig.t) (id : string) (frame : Frame)
    (parent : option string) : Prop :=
  exists dh, dh ∈ ModelConfig.DHParams cfg /\
    DHParamConfig.ID dh +:+ "_j" = id /\
    NewRotationalFrame id {| Theta := 0; RX := 0; RY := 0; RZ := 1 |}
      {| referenceframe.Min := DegToRad (DHParamConfig.Min dh);
         referenceframe.Max := DegToRad (DHParamConfig.Max dh) |} = Ok frame /\
    parent = Some (DHParamConfig.Parent dh).

(** The same description with other rows. *)
Definition withRows (cfg : ModelConfig.t) (links : list LinkConfig.t)
    (joints : list JointConfig.t) (dhParams : list DHParamConfig.t)
    : ModelConfig.t :=
  {| ModelConfig.Name := ModelConfig.Name cfg;
     ModelConfig.KinParamType := ModelConfig.KinParamType cfg;
     ModelConfig.Links := links;
     ModelConfig.Joints := joints;
     ModelConfig.DHParams := dhParams |}.

(** The ordered frames of a parsed model, or the error. *)
Definition orderedOf (parsed : result SimpleModel) : result (list Frame) :=
  match parsed with
  | Ok model => Ok (OrdTransforms model)
  | Err err => Err err
  end.

End Loading.

(** ** More stand-ins for the examples *)

(** The example environment with another parser of geometry
    configurations. *)
Definition exampleEnvWith (parse : option string -> result string) : Env :=
  {| OrientationConfig := R4AA;
     OrientationConfig_ParseConfig := fun o => Ok o;
     GeometryConfig := string;
     Geometry := string;
     GeometryConfig_ParseConfig := parse;
     Geometry_Label := fun g => g;
     Geometry_SetLabel := fun _ label => label;
     AxisConfig_ParseConfig := fun a =>
       {| Theta := 0; RX := X a; RY := Y a; RZ := Z a |};
     DegToRad := fun d => (d * 3.141592653589793 / 180)%float;
     NewPoseFromDH := fun a d alpha =>
       NewPoseFromOrientation {| X := a; Y := 0; Z := d |}
         {| Theta := alpha; RX := 1; RY := 0; RZ := 0 |};
     NewStaticFrame := fun name_ pose => Ok (staticFrame_Frame name_ pose);
     NewStaticFrameWithGeometry := fun name_ pose _ => Ok (staticFrame_Frame name_ pose);
     NewRotationalFrame := referenceframe.NewRotationalFrame;
     NewTranslationalFrame := referenceframe.NewTranslationalFrame;
     NewUnsupportedJointTypeError := fun jointType =>
       errorString ("unsupported joint type detected: " +:+ jointType);
     sortTransforms := fun transforms parentMap start finish =>
       walkToWorld (size transforms) transforms parentMap start finish [] |}.

(** A parser that rejects every geometry configuration. *)
Definition noGeometry (_ : option string) : result string :=
  Err (errorString "geometry is not supported").

(** A DH row with limits of half a turn each way. *)
Definition exampleRow {E : Env} (id parent : string)
    (geometry : option (@GeometryConfig E)) : @DHParamConfig.t E :=
  {| DHParamConfig.ID := id; DHParamConfig.Parent := parent;
     DHParamConfig.A := 0; DHParamConfig.D := 10; DHParamConfig.Alpha := 90;
     DHParamConfig.Max := 180; DHParamConfig.Min := (-180)%float;
     DHParamConfig.Geometry_ := geometry |}.

(** A static frame called "tip" at (1,2,3). *)
Definition exampleStatic : @StaticFrame.t exampleEnv :=
  {| StaticFrame.name := "tip";
     StaticFrame.transform := NewPoseFromPoint {| X := 1; Y := 2; Z := 3 |};
     StaticFrame.geometry := None |}.

End modelconfig.


(* ===================================================================== *)
(** * Package motionplan: constraints over states and segments *)
(* ===================================================================== *)

Module motionplan.
Import spatialmath referenceframe.

(** [SegmentInput]: the starting and ending inputs of a movement, the
    corresponding poses, and the frame they refer to. Pose fields may be
    empty. *)
Module SegmentInput.
Record t : Type :=
  { StartPosition : option Pose;
    EndPosition : option Pose;
    StartConfiguration : slice Input;
    EndConfiguration : slice Input;
    Frame : option referenceframe.Frame }.
End SegmentInput.

(** [StateInput]: one configuration, its pose, and the frame. *)
Module StateInput.
Record t : Type :=
  { Position : option Pose;
    Configuration : slice Input;
    Frame : option referenceframe.Frame }.
End StateInput.

Definition errInvalidConstraintInput : error :=
  errorString "invalid constraint input".

(** One of the two blocks of [resolveInputsToPositions]: the pose of a
    configuration that has none yet. [None] stands for a pose that was
    already there. *)
Definition resolvePosition (position : option Pose)
    (frame : option referenceframe.Frame) (configuration : slice Input)
    : result (option Pose) :=
  match position with
  | Some _ => Ok position
  | None =>
      match frame with
      | Some frame =>
          match configuration with
          | Some inputs =>
              match Transform frame inputs with
              | Ok pos => Ok (Some pos)
              | Err err => Err err
              end
          | None => Err errInvalidConstraintInput
          end
      | None => Err errInvalidConstraintInput
      end
  end.

(** [SegmentInput.resolveInputsToPositions] (part_005, lines 25-59):
    the input as the call leaves it, and the error. *)
Definition Segment_resolveInputsToPositions (ci : SegmentInput.t)
    : SegmentInput.t * option error :=
  match resolvePosition (SegmentInput.StartPosition ci) (SegmentInput.Frame ci)
          (SegmentInput.StartConfiguration ci) with
  | Err err => (ci, Some err)
  | Ok startPosition =>
      let ci :=
        {| SegmentInput.StartPosition := startPosition;
           SegmentInput.EndPosition := SegmentInput.EndPosition ci;
           SegmentInput.StartConfiguration := SegmentInput.StartConfiguration ci;
           SegmentInput.EndConfiguration := SegmentInput.EndConfiguration ci;
           SegmentInput.Frame := SegmentInput.Frame ci |} in
      match resolvePosition (SegmentInput.EndPosition ci) (SegmentInput.Frame ci)
              (SegmentInput.EndConfiguration ci) with
      | Err err => (ci, Some err)
      | Ok endPosition =>
          ({| SegmentInput.StartPosition := SegmentInput.StartPosition ci;
              SegmentInput.EndPosition := endPosition;
              SegmentInput.StartConfiguration := SegmentInput.StartConfiguration ci;
              SegmentInput.EndConfiguration := SegmentInput.EndConfiguration ci;
              SegmentInput.Frame := SegmentInput.Frame ci |}, None)
      end
  end.

(** [StateInput.resolveInputsToPositions] (part_005, lines 71-89). *)
Definition State_resolveInputsToPositions (ci : StateInput.t)
    : StateInput.t * option error :=
  match resolvePosition (StateInput.Position ci) (StateInput.Frame ci)
          (StateInput.Configuration ci) with
  | Err err => (ci, Some err)
  | Ok position =>
      ({| StateInput.Position := position;
          StateInput.Configuration := StateInput.Configuration ci;
          StateInput.Frame := StateInput.Frame ci |}, None)
  end.

(** A constraint tests an input; [true] means the input is valid. *)
Definition SegmentConstraint : Type := SegmentInput.t -> bool.
Definition StateConstraint : Type := StateInput.t -> bool.

(** [ConstraintHandler]: the two registries, keyed by name. *)
Record ConstraintHandler : Type :=
  { segmentConstraints : gmap string SegmentConstraint;
    stateConstraints : gmap string StateConstraint }.

(** The body shared by [CheckStateConstraints] and
    [CheckSegmentConstraints]: the constraints are tried in turn, and the
    first that fails is named. *)
Fixpoint checkAll {A : Type} (constraints : list (string * (A -> bool)))
    (cInput : A) : bool * string :=
  match constraints with
  | [] => (true, ""%string)
  | (name_, cFunc) :: rest =>
      let pass := cFunc cInput in
      if negb pass then (false, name_) else checkAll rest cInput
  end.

(** [CheckStateConstraints] (lines 110-118). Go ranges over the map in
    an order of its choosing; [map_to_list] is one such order. *)
Definition CheckStateConstraints (c : ConstraintHandler)
    (cInput : StateInput.t) : bool * string :=
  checkAll (map_to_list (stateConstraints c)) cInput.

(** [CheckSegmentConstraints] (lines 124-132). *)
Definition CheckSegmentConstraints (c : ConstraintHandler)
    (cInput : SegmentInput.t) : bool * string :=
  checkAll (map_to_list (segmentConstraints c)) cInput.

(** [AddStateConstraint] and [AddSegmentConstraint] (lines 193-221). *)
Definition AddStateConstraint (c : ConstraintHandler) (name_ : string)
    (cons : StateConstraint) : ConstraintHandler :=
  {| segmentConstraints := segmentConstraints c;
     stateConstraints := <[name_ := cons]> (stateConstraints c) |}.

Definition AddSegmentConstraint (c : ConstraintHandler) (name_ : string)
    (cons : SegmentConstraint) : ConstraintHandler :=
  {| segmentConstraints := <[name_ := cons]> (segmentConstraints c);
     stateConstraints := stateConstraints c |}.

Definition emptyHandler : ConstraintHandler :=
  {| segmentConstraints := ∅; stateConstraints := ∅ |}.

Section Segments.

(** [PathStepCount] and [referenceframe.InterpolateInputs] are not under
    src/: the checks below take them as they come. *)
Variable PathStepCount : option Pose -> option Pose -> float64 -> int.
Variable InterpolateInputs : slice Input -> slice Input -> float64 -> slice Input.

(** The state the loop builds at step [i] of [steps] (lines 149-151). *)
Definition interpolated (ci : SegmentInput.t) (steps i : int) : StateInput.t :=
  let interp := (float64_of_int i / float64_of_int steps)%float in
  let interpConfig :=
    InterpolateInputs (SegmentInput.StartConfiguration ci)
      (SegmentInput.EndConfiguration ci) interp in
  {| StateInput.Position := None;
     StateInput.Configuration := interpConfig;
     StateInput.Frame := SegmentInput.Frame ci |}.

(** The segment returned for the valid part (line 162): only the two
    configurations are set. *)
Definition validPortion (ci : SegmentInput.t) (lastGood : slice Input)
    : SegmentInput.t :=
  {| SegmentInput.StartPosition := None;
     SegmentInput.EndPosition := None;
     SegmentInput.StartConfiguration := SegmentInput.StartConfiguration ci;
     SegmentInput.EndConfiguration := lastGood;
     SegmentInput.Frame := None |}.

(** The loop [for i := 0; i <= steps; i++] (lines 148-165), entered at
    [i] with [n] iterations to go. *)
Fixpoint acrossLoop (c : ConstraintHandler) (ci : SegmentInput.t)
    (steps : int) (n : nat) (i : int) (lastGood : slice Input)
    : bool * option SegmentInput.t :=
  match n with
  | O => (true, None)
  | S n' =>
      match State_resolveInputsToPositions (interpolated ci steps i) with
      | (_, Some err) => (false, None)
      | (interpC, None) =>
          let pass := fst (CheckStateConstraints c interpC) in
          if negb pass then
            if i =? 0 then (false, None)
            else (false, Some (validPortion ci lastGood))
          else acrossLoop c ci steps n' (i + 1) (StateInput.Configuration interpC)
      end
  end.

(** [CheckStateConstraintsAcrossSegment] (lines 138-168). *)
Definition CheckStateConstraintsAcrossSegment (c : ConstraintHandler)
    (ci : SegmentInput.t) (resolution : float64)
    : bool * option SegmentInput.t :=
  match Segment_resolveInputsToPositions ci with
  | (_, Some err) => (false, None)
  | (ci, None) =>
      let steps :=
        PathStepCount (SegmentInput.StartPosition ci)
          (SegmentInput.EndPosition ci) resolution in
      acrossLoop c ci steps (Z.to_nat (steps + 1)) 0 None
  end.

(** [CheckSegmentAndStateValidity] (lines 173-189). *)
Definition CheckSegmentAndStateValidity (c : ConstraintHandler)
    (cInput : SegmentInput.t) (resolution : float64)
    : bool * option SegmentInput.t :=
  let valid := fst (CheckSegmentConstraints c cInput) in
  if negb valid then (false, None)
  else
    let (valid, subSegment) :=
      CheckStateConstraintsAcrossSegment c cInput resolution in
    if negb valid then
      match subSegment with
      | Some subSegment =>
          let subSegmentValid := fst (CheckSegmentConstraints c subSegment) in
          if subSegmentValid then (false, Some subSegment) else (false, None)
      | None => (false, None)
      end
    else (true, None).

(** ** Predicates of the statements about the checks *)

(** The number of steps the check takes for a resolved segment. *)
Definition stepsOf (ci : SegmentInput.t) (resolution : float64) : int :=
  PathStepCount (SegmentInput.StartPosition ci)
    (SegmentInput.EndPosition ci) resolution.

(** The state resolves to a pose and every state constraint accepts it. *)
Definition satisfies (c : ConstraintHandler) (s : StateInput.t) : Prop :=
  snd (State_resolveInputsToPositions s) = None /\
  fst (CheckStateConstraints c (fst (State_resolveInputsToPositions s))) = true.

(** The state resolves to a pose and a state constraint rejects it. *)
Definition violates (c : ConstraintHandler) (s : StateInput.t) : Prop :=
  snd (State_resolveInputsToPositions s) = None /\
  fst (CheckStateConstraints c (fst (State_resolveInputsToPositions s))) = false.

(** Every segment constraint accepts the segment. *)
Definition passesSegmentConstraints (c : ConstraintHandler)
    (ci : SegmentInput.t) : bool :=
  fst (CheckSegmentConstraints c ci).

End Segments.

(** ** Stand-ins for the examples *)

(** Modelled from the spec: joint-space interpolation of a configuration
    between the segment endpoints, a fraction [by_] of the way from
    [from] to [to]. *)
Definition exampleInterpolateInputs (from to : slice Input) (by_ : float64)
    : slice Input :=
  match from, to with
  | Some from, Some to =>
      Some (zip_with (fun j1 j2 =>
                        {| Value := (Value j1 + (Value j2 - Value j1) * by_)%float |})
              from to)
  | _, _ => None
  end.

(** A stand-in for [PathStepCount] in the examples: four steps, whatever
    the poses. *)
Definition fourSteps (_ _ : option Pose) (_ : float64) : int := 4.

(** A frame whose point moves along a parabola, [x -> (x, x*x, 0)]: its
    joint-space path between two configurations is not a straight
    line. *)
Definition parabolaFrame : referenceframe.Frame :=
  {| referenceframe.Name := "parabola";
     Transform := fun input =>
       match input with
       | [i] => Ok (NewPoseFromPoint
                      {| X := Value i; Y := (Value i * Value i)%float; Z := 0 |})
       | _ => Err (NewIncorrectInputLengthError (length input) 1)
       end;
     DoF := [ {| Min := (-10)%float; Max := 10 |} ] |}.

(** The segment from configuration [a] to configuration [b] of a frame. *)
Definition segmentOf (frame : referenceframe.Frame) (a b : float64)
    : SegmentInput.t :=
  {| SegmentInput.StartPosition := None;
     SegmentInput.EndPosition := None;
     SegmentInput.StartConfiguration := Some [ {| Value := a |} ];
     SegmentInput.EndConfiguration := Some [ {| Value := b |} ];
     SegmentInput.Frame := Some frame |}.

(** A state constraint on the pose of a state: states without a pose are
    rejected, as the constraints of the package do. *)
Definition onPoint (test : Vector -> bool) : StateConstraint :=
  fun cInput =>
    match fst (State_resolveInputsToPositions cInput) with
    | {| StateInput.Position := Some pose |} => test (Point pose)
    | _ => false
    end.


(** The x coordinate stays below [bound]. *)
Definition xBelow (bound : float64) : StateConstraint :=
  onPoint (fun pt => (X pt <? bound)%float).

(** A segment constraint on the end configuration of the segment. *)
Definition endBelow (bound : float64) : SegmentConstraint :=
  fun cInput =>
    match SegmentInput.EndConfiguration cInput with
    | Some [i] => (Value i <? bound)%float
    | _ => false
    end.

(** A segment constraint: the end configuration is at least [bound]. *)
Definition endAtLeast (bound : float64) : SegmentConstraint :=
  fun cInput =>
    match SegmentInput.EndConfiguration cInput with
    | Some [i] => (bound <=? Value i)%float
    | _ => false
    end.

(** A handler with one state constraint. *)
Definition stateHandler (name_ : string) (cons : StateConstraint)
    : ConstraintHandler :=
  AddStateConstraint emptyHandler name_ cons.

(** The prismatic frame along x with limits [{-10, 10}]. *)
Definition slideFrame : referenceframe.Frame :=
  translationalFrame_Frame
    {| t_baseFrame := {| name := "slide";
                         limits := [ {| Min := (-10)%float; Max := 10 |} ] |};
       transAxis := {| X := 1; Y := 0; Z := 0 |} |}.


(** The segment of the slide from 0 to 4, and of the parabola from 0 to
    2. *)
Definition slideSegment : SegmentInput.t := segmentOf slideFrame 0 4.

(** The check of the examples: four steps, linear interpolation of the
    inputs. *)
Definition exampleAcross :=
  CheckStateConstraintsAcrossSegment fourSteps exampleInterpolateInputs.
Definition exampleValidity :=
  CheckSegmentAndStateValidity fourSteps exampleInterpolateInputs.

(** ** The rest of the registries *)

(** [RemoveStateConstraint] and [RemoveSegmentConstraint] (lines 201-203
    and 224-226): [delete] on a map, a no-op for a name that is not
    there and for a nil map. *)
Definition RemoveStateConstraint (c : ConstraintHandler) (name_ : string)
    : ConstraintHandler :=
  {| segmentConstraints := segmentConstraints c;
     stateConstraints := delete name_ (stateConstraints c) |}.

Definition RemoveSegmentConstraint (c : ConstraintHandler) (name_ : string)
    : ConstraintHandler :=
  {| segmentConstraints := delete name_ (segmentConstraints c);
     stateConstraints := stateConstraints c |}.

(** The loop shared by [StateConstraints] and [SegmentConstraints]:
    [names = append(names, name)] for each name of the range. *)
Definition rangeNames {A : Type} (constraints : gmap string A) : list string :=
  foldl (fun names entry => names ++ [fst entry]) [] (map_to_list constraints).

(** [StateConstraints] (lines 206-212) and [SegmentConstraints] (lines
    229-235). *)
Definition StateConstraints (c : ConstraintHandler) : list string :=
  rangeNames (stateConstraints c).

Definition SegmentConstraints (c : ConstraintHandler) : list string :=
  rangeNames (segmentConstraints c).

(** ** Predicates of the statements about resolving poses *)

(** A pose is there already, or the frame gives one for the
    configuration. *)
Definition posable (position : option Pose)
    (frame : option referenceframe.Frame) (configuration : slice Input) : Prop :=
  is_Some position \/
  exists f inputs pose,
    frame = Some f /\ configuration = Some inputs /\ Transform f inputs = Ok pose.

(** The segment of a frame between two configurations of any length. *)
Definition segmentBetween (frame : option referenceframe.Frame)
    (a b : slice Input) : SegmentInput.t :=
  {| SegmentInput.StartPosition := None;
     SegmentInput.EndPosition := None;
     SegmentInput.StartConfiguration := a;
     SegmentInput.EndConfiguration := b;
     SegmentInput.Frame := frame |}.

(** ** Constraints on the pose of a state *)

(** [StateMetric]: a distance of a state to the valid region. The
    metrics below read the pose of the state: [None] stands for the
    panic of a call on a state that has none. *)
Definition StateMetric : Type := StateInput.t -> option float64.

(** [r3.Vector.Distance] *)
Definition Distance (a b : Vector) : float64 := Norm (Sub a b).

Section Constructors.

(** [defaultEpsilon], [spatial.DistToLineSegment], [orientDist] and
    [CombineMetrics] are declared outside src/. *)
Variable defaultEpsilon : float64.
Variable DistToLineSegment : Vector -> Vector -> Vector -> float64.
Variable orientDist : R4AA -> R4AA -> float64.
Variable CombineMetrics : StateMetric -> StateMetric -> StateMetric.

(** The [validFunc] of a constructor: the poses are resolved, and the
    metric is tested on the state so resolved. *)
Definition validWhen (gradFunc : StateMetric) (test : float64 -> bool)
    : StateConstraint :=
  fun cInput =>
    match State_resolveInputsToPositions cInput with
    | (_, Some err) => false
    | (cInput, None) =>
        match gradFunc cInput with
        | Some grad => test grad
        | None => false
        end
    end.

(** The tolerance [NewLineConstraint] works with (lines 420-422). *)
Definition lineTolerance (pt1 pt2 : Vector) (tolerance : float64) : float64 :=
  if (Distance pt1 pt2 <? defaultEpsilon)%float then defaultEpsilon
  else tolerance.

(** [NewLineConstraint] (lines 419-437). *)
Definition NewLineConstraint (pt1 pt2 : Vector) (tolerance : float64)
    : StateConstraint * StateMetric :=
  let tolerance := lineTolerance pt1 pt2 tolerance in
  let gradFunc : StateMetric := fun cInput =>
    match StateInput.Position cInput with
    | Some position =>
        Some (math_Max
                (DistToLineSegment pt1 pt2 (Point position) - tolerance)%float 0)
    | None => None
    end in
  let validFunc := validWhen gradFunc (fun grad => (grad =? 0)%float) in
  (validFunc, gradFunc).

(** [NewSlerpOrientationConstraint] (lines 351-375). *)
Definition NewSlerpOrientationConstraint (start goal : Pose) (tolerance : float64)
    : StateConstraint * StateMetric :=
  let origDist :=
    math_Max (orientDist (Orientation start) (Orientation goal)) defaultEpsilon in
  let gradFunc : StateMetric := fun cInput =>
    match StateInput.Position cInput with
    | Some position =>
        let sDist := orientDist (Orientation start) (Orientation position) in
        let gDist :=
          if (defaultEpsilon <? origDist)%float
          then orientDist (Orientation goal) (Orientation position)
          else 0%float in
        Some ((sDist + gDist) - origDist)%float
    | None => None
    end in
  let validFunc := validWhen gradFunc (fun grad => (grad <? tolerance)%float) in
  (validFunc, gradFunc).

(** [NewAbsoluteLinearInterpolatingConstraint] (lines 328-337). *)
Definition NewAbsoluteLinearInterpolatingConstraint (from to : Pose)
    (linTol orientTol : float64) : StateConstraint * StateMetric :=
  let (orientConstraint, orientMetric) :=
    NewSlerpOrientationConstraint from to orientTol in
  let (lineConstraint, lineMetric) :=
    NewLineConstraint (Point from) (Point to) linTol in
  let interpMetric := CombineMetrics orientMetric lineMetric in
  let f : StateConstraint := fun cInput =>
    orientConstraint cInput && lineConstraint cInput in
  (f, interpMetric).

(** [NewProportionalLinearInterpolatingConstraint] (lines 341-346). *)
Definition NewProportionalLinearInterpolatingConstraint (from to : Pose)
    (epsilon : float64) : StateConstraint * StateMetric :=
  let orientTol :=
    (epsilon * orientDist (Orientation from) (Orientation to))%float in
  let linTol := (epsilon * Distance (Point from) (Point to))%float in
  NewAbsoluteLinearInterpolatingConstraint from to linTol orientTol.

End Constructors.

(** ** More stand-ins for the examples *)

(** The distance of a point to the x axis, standing in for the distance
    to a segment of that axis. *)
Definition distToXAxis (_ _ : Vector) (p : Vector) : float64 :=
  PrimFloat.sqrt (Y p * Y p + Z p * Z p)%float.

(** The state of the slide at a configuration. *)
Definition slideState (a : float64) : StateInput.t :=
  {| StateInput.Position := None;
     StateInput.Configuration := Some [ {| Value := a |} ];
     StateInput.Frame := Some slideFrame |}.

(** ** Predicates of the statements about the pose constraints *)

(** A constraint that decides on the resolved state: it rejects a state
    whose pose cannot be computed, and gives a state and the state with
    its pose filled in the same verdict. *)
Definition seesResolved (cons : StateConstraint) : Prop :=
  forall cInput,
    (snd (State_resolveInputsToPositions cInput) <> None -> cons cInput = false) /\
    (forall resolved,
       State_resolveInputsToPositions cInput = (resolved, None) ->
       cons cInput = cons resolved).

(** A stand-in for [PathStepCount] that counts no step. *)
Definition noSteps (_ _ : option Pose) (_ : float64) : int := 0.

End motionplan.


(* ===================================================================== *)
(** * Package builtin: move requests and plan execution *)
(* ===================================================================== *)

Module builtin.
Import spatialmath referenceframe.

(** [time.Second], in nanoseconds, the unit of [time.Duration]. *)
Definition Second : int := 1000000000.

(** Lines 31-35. *)
Definition defaultMaxReplans : int := -1.
Definition baseStopTimeout : int := Second * 5.

(** A [context.Context], by the calls that built it. *)
Inductive Context : Type :=
  | Background
  | WithCancel (parent : Context)
  | WithTimeout (parent : Context) (timeout : int).

(** The fields of [validatedExtra] that the request constructors read. *)
Record validatedExtra : Type :=
  { maxReplans : int;
    replanCostFactor : float64;
    motionProfile : string }.

(** [state.ExecuteResponse] *)
Record ExecuteResponse : Type :=
  { Replan : bool; ReplanReason : string }.

Definition noResponse : ExecuteResponse :=
  {| Replan := false; ReplanReason := "" |}.

(** ** Creating a move request *)

(** [fmt.Errorf("exceeded maximum number of replans: %d", maxReplans)] *)
Definition errExceededReplans (maxReplans_ : int) : error :=
  errorString ("exceeded maximum number of replans: " +:+ fmt_d maxReplans_).

Section Requests.

(** [newValidatedExtra] and everything a constructor does after the
    check of the replan count (the validation of the motion
    configuration, the lookups of sensors, base and frame system, the
    assembly of the request) are parameters: the first is not under
    src/, the rest calls collaborators that are not. *)
Variables Extra Request PlannerExecutor : Type.
Variable reqExtra : Request -> Extra.
Variable newValidatedExtra : Extra -> result validatedExtra.
Variable buildRequest : Request -> validatedExtra -> result PlannerExecutor.

(** The head shared by [newMoveOnGlobeRequest] (lines 379-388) and
    [newMoveOnMapRequest] (lines 499-508), followed by the rest of the
    constructor. *)
Definition newMoveRequest (req : Request) (replanCount : int)
    : result PlannerExecutor :=
  match newValidatedExtra (reqExtra req) with
  | Err err => Err err
  | Ok valExtra =>
      if 0 <=? maxReplans valExtra then
        if maxReplans valExtra <? replanCount
        then Err (errExceededReplans (maxReplans valExtra))
        else buildRequest req valExtra
      else buildRequest req valExtra
  end.

End Requests.

(** [newMoveOnGlobeRequest] and [newMoveOnMapRequest]: the same head in
    front of two different bodies. *)
Definition newMoveOnGlobeRequest := newMoveRequest.
Definition newMoveOnMapRequest := newMoveRequest.

(** ** Executing a plan *)

(** [atomic.Int32]: a value of 32 bits; [Add] wraps around. *)
Definition wrap32 (z : int) : int := (z + 2 ^ 31) mod 2 ^ 32 - 2 ^ 31.

(** The value [relativeMoveRequestFromAbsolute] stores in the waypoint
    index of a new request (line 658). *)
Definition initialWaypointIndex : int := 1.

(** What the actuation loop does to the world, in order. *)
Inductive event : Type :=
  | EvCancelled (ctxErr : error)
  | EvGoToInputs (i : int) (waypoint : list Input) (err : option error)
  | EvStop (stopCtx : Context) (err : option error)
  | EvAdd (newIndex : int).

(** Where the goroutine of [execute] stands: before its first statement,
    in the loop with its local [waypoints] and [i], returned, or stopped
    by a panic. *)
Inductive thread : Type :=
  | NotStarted
  | Looping (waypoints : list (list Input)) (i : int)
  | Returned (resp : ExecuteResponse) (err : option error)
  | Panicked.

Section Execution.

(** The collaborators of a move request: the kinematic base, the context
    of the call, the plan. [World] is whatever state they share. *)
Variable World : Type.
(** [ctx.Err()]: non-nil once the context is done. *)
Variable ctxErr : Context -> World -> option error.
Variable GoToInputs : Context -> list Input -> World -> option error * World.
Variable Stop : Context -> World -> option error * World.
Variable ErrorState : World -> int -> result Pose.
Variable planDeviationMM : float64.
(** The text of [ReplanReason] (lines 145-146). *)
Variable deviationReason : float64 -> float64 -> Vector -> string.

(** The request while a plan is executed: the world, the shared waypoint
    index, the goroutine of [execute], and the events so far. *)
Record execution : Type :=
  { world : World;
    waypointIndex : int;
    actuation : thread;
    trace : list event }.

(** [moveRequest.stop] (lines 764-772): a stop on a fresh context that
    times out after [baseStopTimeout]. *)
Definition stop (w : World) : option error * World :=
  Stop (WithTimeout Background baseStopTimeout) w.

Definition stopCtx : Context := WithTimeout Background baseStopTimeout.

(** [moveRequest.deviatedFromPlan] (lines 139-150). *)
Definition deviatedFromPlan (w : World) (waypointIndex_ : int)
    : ExecuteResponse * option error :=
  match ErrorState w waypointIndex_ with
  | Err err => (noResponse, Some err)
  | Ok errorState =>
      if (planDeviationMM <? Norm (Point errorState))%float then
        ({| Replan := true;
            ReplanReason := deviationReason planDeviationMM
                              (Norm (Point errorState)) (Point errorState) |}, None)
      else (noResponse, None)
  end.

(** [waypoints[i]]; an index out of range panics. *)
Definition at_ (waypoints : list (list Input)) (i : int) : option (list Input) :=
  if i <? 0 then None else waypoints !! Z.to_nat i.

(** One step of [execute] (lines 103-135): its start, one pass through
    the loop, or the return after the loop. [frameInputs] is the result
    of [GetFrameInputs] on the trajectory of the plan. *)
Definition executeStep (ctx : Context) (frameInputs : result (list (list Input)))
    (st : execution) : execution :=
  match actuation st with
  | NotStarted =>
      match frameInputs with
      | Err err =>
          {| world := world st; waypointIndex := waypointIndex st;
             actuation := Returned noResponse (Some err); trace := trace st |}
      | Ok waypoints =>
          {| world := world st; waypointIndex := waypointIndex st;
             actuation := Looping waypoints (waypointIndex st); trace := trace st |}
      end
  | Looping waypoints i =>
      if i <? Z.of_nat (length waypoints) then
        match ctxErr ctx (world st) with
        | Some cancelled =>
            let (stopErr, w) := stop (world st) in
            {| world := w; waypointIndex := waypointIndex st;
               actuation :=
                 match stopErr with
                 | Some stopErr =>
                     Returned noResponse (Wrap (Some cancelled) (Error stopErr))
                 | None => Returned noResponse None
                 end;
               trace := trace st ++ [EvCancelled cancelled; EvStop stopCtx stopErr] |}
        | None =>
            match at_ waypoints i with
            | None =>
                {| world := world st; waypointIndex := waypointIndex st;
                   actuation := Panicked; trace := trace st |}
            | Some waypoint =>
                let (err, w) := GoToInputs ctx waypoint (world st) in
                match err with
                | Some err =>
                    let (stopErr, w) := stop w in
                    {| world := w; waypointIndex := waypointIndex st;
                       actuation :=
                         match stopErr with
                         | Some stopErr =>
                             Returned noResponse (Wrap (Some err) (Error stopErr))
                         | None => Returned noResponse (Some err)
                         end;
                       trace := trace st ++ [EvGoToInputs i waypoint (Some err);
                                             EvStop stopCtx stopErr] |}
                | None =>
                    if i <? Z.of_nat (length waypoints) - 1 then
                      {| world := w;
                         waypointIndex := wrap32 (waypointIndex st + 1);
                         actuation := Looping waypoints (i + 1);
                         trace := trace st ++ [EvGoToInputs i waypoint None;
                                               EvAdd (wrap32 (waypointIndex st + 1))] |}
                    else
                      {| world := w; waypointIndex := waypointIndex st;
                         actuation := Looping waypoints (i + 1);
                         trace := trace st ++ [EvGoToInputs i waypoint None] |}
                end
            end
        end
      else
        let (resp, err) :=
          deviatedFromPlan (world st) (Z.of_nat (length waypoints) - 1) in
        {| world := world st; waypointIndex := waypointIndex st;
           actuation := Returned resp err; trace := trace st |}
  | Returned _ _ | Panicked => st
  end.

(** The steps [execute] makes at most: its start, a pass per waypoint,
    the return. *)
Definition executeFuel (waypoints : result (list (list Input))) : nat :=
  match waypoints with
  | Ok waypoints => S (S (length waypoints))
  | Err _ => 1
  end.

(** [moveRequest.execute] on its own, from a request whose waypoint
    index is [index]. *)
Definition execute (ctx : Context) (waypoints : result (list (list Input)))
    (w : World) (index : int) : execution :=
  Nat.iter (executeFuel waypoints) (executeStep ctx waypoints)
    {| world := w; waypointIndex := index; actuation := NotStarted; trace := [] |}.

(** The request [relativeMoveRequestFromAbsolute] builds, before
    [start]. *)
Definition newExecution (w : World) : execution :=
  {| world := w; waypointIndex := initialWaypointIndex;
     actuation := NotStarted; trace := [] |}.

(** The two pollers [start] spawns beside [execute]. *)
Inductive replanner : Type := position | obstacle.

(** Modelled from the spec: [replanner.startPolling] is not under src/.
    A poller reads the waypoint index to know which waypoint is current
    and hands its value to its poll function ([deviatedFromPlan] or
    [obstaclesIntersectPlan], which take it as an [int]); it never
    advances it. What a poll does to the world (sensor and detector
    queries) is left open. *)
Inductive pollStep (p : replanner) : execution -> execution -> Prop :=
  | poll (st : execution) (w : World) (read : int) :
      read = waypointIndex st ->
      pollStep p st
        {| world := w; waypointIndex := waypointIndex st;
           actuation := actuation st; trace := trace st |}.

(** A step of the three goroutines of [start] (lines 712-733), in any
    interleaving. *)
Inductive systemStep (ctx : Context) (waypoints : result (list (list Input)))
    : execution -> execution -> Prop :=
  | actuationStep (st : execution) :
      systemStep ctx waypoints st (executeStep ctx waypoints st)
  | pollerStep (p : replanner) (st st' : execution) :
      pollStep p st st' -> systemStep ctx waypoints st st'.

(** The states a committed plan can reach. *)
Inductive reachable (ctx : Context) (waypoints : result (list (list Input)))
    (w0 : World) : execution -> Prop :=
  | reachable_start : reachable ctx waypoints w0 (newExecution w0)
  | reachable_step (st st' : execution) :
      reachable ctx waypoints w0 st ->
      systemStep ctx waypoints st st' ->
      reachable ctx waypoints w0 st'.

(** The index of the final waypoint. *)
Definition finalIndex (waypoints : result (list (list Input))) : int :=
  match waypoints with
  | Ok waypoints => Z.of_nat (length waypoints) - 1
  | Err _ => 0
  end.

(** [execute] has returned or panicked. *)
Definition terminal (t : thread) : Prop :=
  match t with
  | Returned _ _ | Panicked => True
  | NotStarted | Looping _ _ => False
  end.

(** The steps [execute] has still to make, at most. *)
Definition stepsLeft (frameInputs : result (list (list Input)))
    (st : execution) : nat :=
  match actuation st with
  | NotStarted => executeFuel frameInputs
  | Looping waypoints i =>
      if i <? 0 then 1 else S (Z.to_nat (Z.of_nat (length waypoints) - i))
  | Returned _ _ | Panicked => 0
  end.

(** How a run of [execute] ends. *)
Inductive ending : Type :=
  | Completed
  | Cancelled (cancelled : error) (stopErr : option error)
  | Failed (i : int) (waypoint : list Input) (err : error) (stopErr : option error)
  | OutOfRange.

(** The last events of a run, by its ending. *)
Definition endingEvents (e : ending) : list event :=
  match e with
  | Completed | OutOfRange => []
  | Cancelled cancelled stopErr => [EvCancelled cancelled; EvStop stopCtx stopErr]
  | Failed i waypoint err stopErr =>
      [EvGoToInputs i waypoint (Some err); EvStop stopCtx stopErr]
  end.

(** The state of the goroutine that goes with an ending: the errors of
    the command (or the cancellation) and of the stop, combined. *)
Definition endsAs (t : thread) (e : ending) : Prop :=
  match e with
  | Completed => t <> Panicked
  | OutOfRange => t = Panicked
  | Cancelled cancelled stopErr =>
      t = Returned noResponse
            match stopErr with
            | Some stopErr => Wrap (Some cancelled) (Error stopErr)
            | None => None
            end
  | Failed _ _ err stopErr =>
      t = Returned noResponse
            match stopErr with
            | Some stopErr => Wrap (Some err) (Error stopErr)
            | None => Some err
            end
  end.

(** An event of a waypoint reached: the command succeeded, or the index
    moved on. *)
Definition isProgress (ev : event) : Prop :=
  match ev with
  | EvGoToInputs _ _ None | EvAdd _ => True
  | _ => False
  end.

(** The shape of the events of a run: waypoints reached, then the
    events of its ending. *)
Definition runShape (st : execution) : Prop :=
  exists (progress : list event) (e : ending),
    trace st = progress ++ endingEvents e /\
    Forall isProgress progress /\
    endsAs (actuation st) e.

(** What holds of the waypoint index while a plan is executed. *)
Definition indexInvariant (frameInputs : result (list (list Input)))
    (st : execution) : Prop :=
  1 <= waypointIndex st <= Z.max 1 (finalIndex frameInputs) /\
  match actuation st with
  | Looping waypoints i =>
      frameInputs = Ok waypoints /\ 1 <= i /\
      waypointIndex st
      = (if i <=? finalIndex frameInputs then i
         else Z.max 1 (finalIndex frameInputs))
  | _ => True
  end.


(** What a step of [execute] does to the index: nothing, or one more
    after the command for the current waypoint succeeded. *)
Definition advanced (st st' : execution) : Prop :=
  waypointIndex st' = waypointIndex st + 1 /\
  exists waypoints waypoint,
    actuation st = Looping waypoints (waypointIndex st) /\
    actuation st' = Looping waypoints (waypointIndex st') /\
    trace st'
    = trace st ++ [EvGoToInputs (waypointIndex st) waypoint None;
                         EvAdd (waypointIndex st')].

End Execution.

(** ** A base for the examples

    The world counts the commands sent to the base; the command of
    number [failAt] fails, the context is done once [cancelAt] commands
    were sent, and a stop fails when [stopFails]. *)
Record exampleBase : Type :=
  { failAt : nat; cancelAt : nat; stopFails : bool }.

Definition exampleCtxErr (b : exampleBase) (_ : Context) (sent : nat)
    : option error :=
  if (cancelAt b <=? sent)%nat then Some (errorString "context canceled") else None.

Definition exampleGoToInputs (b : exampleBase) (_ : Context)
    (_ : list Input) (sent : nat) : option error * nat :=
  (if (S sent =? failAt b)%nat then Some (errorString "motor stalled") else None,
   S sent).

Definition exampleStop (b : exampleBase) (_ : Context) (sent : nat)
    : option error * nat :=
  (if stopFails b then Some (errorString "stop timed out") else None, sent).

Definition exampleErrorState (_ : nat) (_ : int) : result Pose :=
  Ok (NewPoseFromPoint {| X := 0; Y := 0; Z := 0 |}).

(** A plan of four waypoints for a base with one input. *)
Definition examplePlan : result (list (list Input)) :=
  Ok [FloatsToInputs [0%float]; FloatsToInputs [1%float];
      FloatsToInputs [2%float]; FloatsToInputs [3%float]].

Definition exampleStep (b : exampleBase) :=
  executeStep nat (exampleCtxErr b) (exampleGoToInputs b) (exampleStop b)
    exampleErrorState 10 (fun _ _ _ => ""%string) (WithCancel Background)
    examplePlan.

Definition exampleExecute (b : exampleBase) : execution nat :=
  execute nat (exampleCtxErr b) (exampleGoToInputs b) (exampleStop b)
    exampleErrorState 10 (fun _ _ _ => ""%string) (WithCancel Background)
    examplePlan 0%nat initialWaypointIndex.

(** ** Validating a motion configuration *)

(** [motion.ObstacleDetectorName]: a vision service and a camera, by
    name. *)
Module ObstacleDetectorName.
Record t : Type :=
  { VisionServiceName : string;
    CameraName : string }.
End ObstacleDetectorName.

(** [motion.MotionConfiguration], by the fields that are read. *)
Module MotionConfiguration.
Record t : Type :=
  { ObstacleDetectors : slice ObstacleDetectorName.t;
    PositionPollingFreqHz : float64;
    ObstaclePollingFreqHz : float64;
    PlanDeviationMM : float64;
    LinearMPerSec : float64;
    AngularDegsPerSec : float64 }.
End MotionConfiguration.

(** [validatedMotionConfiguration] (lines 40-47). *)
Module validatedMotionConfiguration.
Record t : Type :=
  { obstacleDetectors : slice ObstacleDetectorName.t;
    positionPollingFreqHz : float64;
    obstaclePollingFreqHz : float64;
    planDeviationMM : float64;
    linearMPerSec : float64;
    angularDegsPerSec : float64 }.
End validatedMotionConfiguration.

(** [kinematicbase.Options], by the fields [kbOptionsFromCfg] writes. *)
Module Options.
Record t : Type :=
  { LinearVelocityMMPerSec : float64;
    AngularVelocityDegsPerSec : float64;
    PlanDeviationThresholdMM : float64;
    PositionOnlyMode : bool;
    GoalRadiusMM : float64;
    HeadingThresholdDegrees : float64 }.
End Options.

(** [validateNotNan] (lines 290-295). *)
Definition validateNotNan (f : float64) (name_ : string) : option error :=
  if IsNaN f then Some (errorString (name_ +:+ " may not be NaN")) else None.

(** [validateNotNeg] (lines 297-302). *)
Definition validateNotNeg (f : float64) (name_ : string) : option error :=
  if (f <? 0)%float then Some (errorString (name_ +:+ " may not be negative"))
  else None.

(** [validateNotNegNorNaN] (lines 304-309). *)
Definition validateNotNegNorNaN (f : float64) (name_ : string) : option error :=
  match validateNotNan f name_ with
  | Some err => Some err
  | None => validateNotNeg f name_
  end.

Section Configuration.
Import MotionConfiguration validatedMotionConfiguration.

(** The defaults of the package, of [kinematicbase] and of [motionplan]
    are declared outside src/. *)
Variables defaultAngularDegsPerSec defaultLinearMPerSec : float64.
Variables defaultObstaclePollingHz defaultPositionPollingHz : float64.
Variable defaultPlanDeviationM : float64.
Variable NewKinematicBaseOptions : Options.t.
Variable PositionOnlyMotionProfile : string.

(** [&validatedMotionConfiguration{}] *)
Definition emptyConfiguration : validatedMotionConfiguration.t :=
  {| obstacleDetectors := None;
     positionPollingFreqHz := 0; obstaclePollingFreqHz := 0;
     planDeviationMM := 0; linearMPerSec := 0; angularDegsPerSec := 0 |}.

(** The configuration [newValidatedMotionCfg] starts from. *)
Definition defaultConfiguration : validatedMotionConfiguration.t :=
  {| obstacleDetectors := Some [];
     positionPollingFreqHz := defaultPositionPollingHz;
     obstaclePollingFreqHz := defaultObstaclePollingHz;
     planDeviationMM := (defaultPlanDeviationM * 1e3)%float;
     linearMPerSec := defaultLinearMPerSec;
     angularDegsPerSec := defaultAngularDegsPerSec |}.

(** [newValidatedMotionCfg] (lines 311-371). *)
Definition newValidatedMotionCfg (motionCfg : option MotionConfiguration.t)
    : validatedMotionConfiguration.t * option error :=
  let empty := emptyConfiguration in
  let vmc := defaultConfiguration in
  match motionCfg with
  | None => (vmc, None)
  | Some motionCfg =>
      match validateNotNegNorNaN (LinearMPerSec motionCfg) "LinearMPerSec" with
      | Some err => (empty, Some err)
      | None =>
      match validateNotNegNorNaN (AngularDegsPerSec motionCfg)
              "AngularDegsPerSec" with
      | Some err => (empty, Some err)
      | None =>
      match validateNotNegNorNaN (PlanDeviationMM motionCfg) "PlanDeviationMM" with
      | Some err => (empty, Some err)
      | None =>
      match validateNotNegNorNaN (ObstaclePollingFreqHz motionCfg)
              "ObstaclePollingFreqHz" with
      | Some err => (empty, Some err)
      | None =>
      match validateNotNegNorNaN (PositionPollingFreqHz motionCfg)
              "PositionPollingFreqHz" with
      | Some err => (empty, Some err)
      | None =>
          ({| linearMPerSec :=
                if negb (LinearMPerSec motionCfg =? 0)%float
                then LinearMPerSec motionCfg else linearMPerSec vmc;
              angularDegsPerSec :=
                if negb (AngularDegsPerSec motionCfg =? 0)%float
                then AngularDegsPerSec motionCfg else angularDegsPerSec vmc;
              planDeviationMM :=
                if negb (PlanDeviationMM motionCfg =? 0)%float
                then PlanDeviationMM motionCfg else planDeviationMM vmc;
              obstaclePollingFreqHz :=
                if negb (ObstaclePollingFreqHz motionCfg =? 0)%float
                then ObstaclePollingFreqHz motionCfg
                else obstaclePollingFreqHz vmc;
              positionPollingFreqHz :=
                if negb (PositionPollingFreqHz motionCfg =? 0)%float
                then PositionPollingFreqHz motionCfg
                else positionPollingFreqHz vmc;
              obstacleDetectors :=
                match ObstacleDetectors motionCfg with
                | Some detectors => Some detectors
                | None => obstacleDetectors vmc
                end |}, None)
      end end end end end
  end.

(** [kbOptionsFromCfg] (lines 266-288). *)
Definition kbOptionsFromCfg (motionCfg : validatedMotionConfiguration.t)
    (validatedExtra_ : validatedExtra) : Options.t :=
  let kinematicsOptions := NewKinematicBaseOptions in
  {| Options.LinearVelocityMMPerSec :=
       if (0 <? linearMPerSec motionCfg)%float
       then (linearMPerSec motionCfg * 1000)%float
       else Options.LinearVelocityMMPerSec kinematicsOptions;
     Options.AngularVelocityDegsPerSec :=
       if (0 <? angularDegsPerSec motionCfg)%float
       then angularDegsPerSec motionCfg
       else Options.AngularVelocityDegsPerSec kinematicsOptions;
     Options.PlanDeviationThresholdMM :=
       if (0 <? planDeviationMM motionCfg)%float
       then planDeviationMM motionCfg
       else Options.PlanDeviationThresholdMM kinematicsOptions;
     Options.PositionOnlyMode :=
       if negb (String.eqb (motionProfile validatedExtra_) "")
       then String.eqb (motionProfile validatedExtra_) PositionOnlyMotionProfile
       else Options.PositionOnlyMode kinematicsOptions;
     Options.GoalRadiusMM := planDeviationMM motionCfg;
     Options.HeadingThresholdDegrees := 8 |}.

(** ** Predicates of the statements about the validation *)

(** A number the validation accepts: not NaN, not below zero. *)
Definition accepted (f : float64) : bool := negb (IsNaN f) && negb (f <? 0)%float.

(** The numbers of a configuration with the names they are checked
    under, in the order of the checks. *)
Definition checkedFields (motionCfg : MotionConfiguration.t)
    : list (float64 * string) :=
  [ (LinearMPerSec motionCfg, "LinearMPerSec"%string);
    (AngularDegsPerSec motionCfg, "AngularDegsPerSec"%string);
    (PlanDeviationMM motionCfg, "PlanDeviationMM"%string);
    (ObstaclePollingFreqHz motionCfg, "ObstaclePollingFreqHz"%string);
    (PositionPollingFreqHz motionCfg, "PositionPollingFreqHz"%string) ].

(** The numbers of a validated configuration. *)
Definition validatedFields (vmc : validatedMotionConfiguration.t)
    : list float64 :=
  [ linearMPerSec vmc; angularDegsPerSec vmc; planDeviationMM vmc;
    obstaclePollingFreqHz vmc; positionPollingFreqHz vmc ].

End Configuration.

(** ** The obstacle detectors of a request *)

Section Detectors.
Import ObstacleDetectorName.

(** A [vision.Service] is a key of the map by its identity; two names
    may lead to one service. [resource.DependencyNotFoundError] is not
    under src/. *)
Context {Service : Type} `{Countable Service}.
Variable DependencyNotFoundError : string -> error.
Variable visionServices : gmap string Service.

(** The loop of [relativeMoveRequestFromAbsolute] over the pairs of the
    configuration (lines 631-648). *)
Fixpoint groupDetectors (pairs : list ObstacleDetectorName.t)
    (obstacleDetectors : gmap Service (list string))
    : result (gmap Service (list string)) :=
  match pairs with
  | [] => Ok obstacleDetectors
  | obstacleDetectorNamePair :: rest =>
      let visionServiceName := VisionServiceName obstacleDetectorNamePair in
      match visionServices !! visionServiceName with
      | None => Err (DependencyNotFoundError visionServiceName)
      | Some visionSvc =>
          match obstacleDetectors !! visionSvc with
          | None =>
              groupDetectors rest
                (<[visionSvc := [CameraName obstacleDetectorNamePair]]>
                   obstacleDetectors)
          | Some camList =>
              groupDetectors rest
                (<[visionSvc := camList ++ [CameraName obstacleDetectorNamePair]]>
                   obstacleDetectors)
          end
      end
  end.

(** The cameras the pairs give to a service, in the order of the
    pairs. *)
Fixpoint camerasOf (visionSvc : Service) (pairs : list ObstacleDetectorName.t)
    : list string :=
  match pairs with
  | [] => []
  | detector :: rest =>
      if bool_decide (visionServices !! VisionServiceName detector = Some visionSvc)
      then CameraName detector :: camerasOf visionSvc rest
      else camerasOf visionSvc rest
  end.

End Detectors.

(** ** The commands of a run *)

(** The waypoints the base was sent to, in the order of the commands. *)
Fixpoint commanded (events : list event) : list (list Input) :=
  match events with
  | [] => []
  | EvGoToInputs _ waypoint _ :: rest => waypoint :: commanded rest
  | _ :: rest => commanded rest
  end.

(** A stop of the base is among the events. *)
Fixpoint stopped (events : list event) : bool :=
  match events with
  | [] => false
  | EvStop _ _ :: _ => true
  | _ :: rest => stopped rest
  end.

(** ** More stand-ins for the examples *)

(** A configuration with the five numbers given. *)
Definition exampleConfiguration (linear angular deviation obstacleHz positionHz : float64)
    : MotionConfiguration.t :=
  {| MotionConfiguration.ObstacleDetectors := None;
     MotionConfiguration.PositionPollingFreqHz := positionHz;
     MotionConfiguration.ObstaclePollingFreqHz := obstacleHz;
     MotionConfiguration.PlanDeviationMM := deviation;
     MotionConfiguration.LinearMPerSec := linear;
     MotionConfiguration.AngularDegsPerSec := angular |}.

(** The validation of the examples, with defaults of 60 degrees and 0.3
    m per second, polling at 1 Hz, a deviation of 2.6 m. *)
Definition exampleValidated :=
  newValidatedMotionCfg 60 0.3 1 1 2.6.

(** Options of a kinematic base for the examples. *)
Definition exampleOptions : Options.t :=
  {| Options.LinearVelocityMMPerSec := 200;
     Options.AngularVelocityDegsPerSec := 20;
     Options.PlanDeviationThresholdMM := 600;
     Options.PositionOnlyMode := false;
     Options.GoalRadiusMM := 300;
     Options.HeadingThresholdDegrees := 15 |}.

(** Two names for the vision service 1, one for the service 2. *)
Definition exampleServices : gmap string positive :=
  <["front"%string := 1%positive]>
    (<["front-alias"%string := 1%positive]> (<["rear"%string := 2%positive]> ∅)).

Definition examplePair (service camera : string) : ObstacleDetectorName.t :=
  {| ObstacleDetectorName.VisionServiceName := service;
     ObstacleDetectorName.CameraName := camera |}.

(** A base that follows every command, under a context that is never
    done: the world is the list of the waypoints reached, latest
    first. *)
Definition followingGoToInputs (_ : Context) (waypoint : list Input)
    (reached : list (list Input)) : option error * list (list Input) :=
  (None, waypoint :: reached).

Definition followingExecute (waypoints : list (list Input)) (index : int)
    : execution (list (list Input)) :=
  execute (list (list Input)) (fun _ _ => None) followingGoToInputs
    (fun _ reached => (None, reached))
    (fun _ _ => Ok (NewPoseFromPoint {| X := 0; Y := 0; Z := 0 |}))
    10 (fun _ _ _ => ""%string) (WithCancel Background) (Ok waypoints) [] index.

(** ** Predicates of the statements about a disturbed run *)

Section Disturbance.
Variable World : Type.
Variable ctxErr : Context -> World -> option error.
Variable GoToInputs : Context -> list Input -> World -> option error * World.
Variable ctx : Context.

(** The world after the commands for [waypoints], each sent in the
    world the one before has left. *)
Definition worldAfter (w : World) (waypoints : list (list Input)) : World :=
  foldl (fun w waypoint => snd (GoToInputs ctx waypoint w)) w waypoints.

(** Nothing disturbs the commands for [waypoints] from the world [w]:
    before each command the context is not done, and the command
    returns no error. *)
Fixpoint undisturbed (w : World) (waypoints : list (list Input)) : Prop :=
  match waypoints with
  | [] => True
  | waypoint :: rest =>
      ctxErr ctx w = None /\
      fst (GoToInputs ctx waypoint w) = None /\
      undisturbed (snd (GoToInputs ctx waypoint w)) rest
  end.

End Disturbance.

(** ** Predicates of the statements about the commands of a run *)

Section PlanOrder.
Variable World : Type.
Variable ErrorState : World -> int -> result Pose.
Variable planDeviationMM : float64.
Variable deviationReason : float64 -> float64 -> Vector -> string.
Variable waypoints : list (list Input).
Variable index : int.

(** The waypoints of the plan from [index] on. *)
Definition remaining : list (list Input) := drop (Z.to_nat index) waypoints.

(** A command carries the waypoint of its index. *)
Definition fromPlan (ev : event) : Prop :=
  match ev with
  | EvGoToInputs i waypoint _ => at_ waypoints i = Some waypoint
  | _ => True
  end.

(** What holds of a run of [execute] on the plan from [index]: the
    commands sent so far are the first of the remaining waypoints, in
    their order; a run that returned without a stop has sent them all
    and returns what [deviatedFromPlan] says of the last waypoint; a run
    that stopped the base returns the empty response. *)
Definition planOrder (st : execution World) : Prop :=
  Forall fromPlan (trace World st) /\
  match actuation World st with
  | NotStarted => trace World st = [] /\ waypointIndex World st = index
  | Looping waypoints' i =>
      waypoints' = waypoints /\ index <= i /\
      stopped (trace World st) = false /\
      commanded (trace World st) = take (Z.to_nat (i - index)) remaining
  | Returned resp err =>
      (stopped (trace World st) = false /\
       commanded (trace World st) = remaining /\
       (resp, err)
       = deviatedFromPlan World ErrorState planDeviationMM deviationReason
           (world World st) (Z.of_nat (length waypoints) - 1)) \/
      (stopped (trace World st) = true /\ resp = noResponse /\
       exists n, commanded (trace World st) = take n remaining)
  | Panicked => False
  end.

End PlanOrder.

End builtin.

(* ===================================================================== *)
(** * Package fake: the fake arm *)
(* ===================================================================== *)

Module fake.
Import spatialmath referenceframe.

(** A slice of [float64]: its backing array, by address, and its
    length. Every slice of this package starts at the head of its
    array. *)
Record Float64Slice : Type :=
  { array : positive;
    len : nat }.

(** The arrays behind the slices. *)
Abbreviation Memory := (gmap positive (list float64)) (only parsing).

(** The elements of a slice. *)
Definition elements (mem : Memory) (s : Float64Slice) : list float64 :=
  take (len s) (default [] (mem !! array s)).

(** [copy(dst, src)]: the first [min(len(dst), len(src))] elements of
    [src] are written over those of [dst]. *)
Definition copy (mem : Memory) (dst src : Float64Slice) : Memory :=
  let n := Nat.min (len dst) (len src) in
  let source := elements mem src in
  match mem !! array dst with
  | Some old => <[array dst := take n source ++ drop n old]> mem
  | None => mem
  end.

(** A slice made for new values: a fresh array. *)
Definition allocate (mem : Memory) (vals : list float64) : Memory * Float64Slice :=
  let address := fresh (dom mem) in
  (<[address := vals]> mem, {| array := address; len := length vals |}).

(** [pb.JointPositions] *)
Record JointPositions : Type := { Values : Float64Slice }.

(** [Arm], by the fields its methods read and write; the model and the
    planner are parameters of the methods below. *)
Record Arm : Type :=
  { Name : string;
    joints : JointPositions;
    CloseCount : int }.

Section Methods.

(** The model of the arm: its [Transform], and its conversions between
    joint positions and inputs, are not under src/. *)
Variable Transform : list Input -> result Pose.
Variable InputFromProtobuf : list float64 -> list Input.
Variable ProtobufFromInput : list Input -> list float64.

(** [Arm.MoveToJointPositions] (part_004, lines 142-151). *)
Definition MoveToJointPositions (a : Arm) (mem : Memory)
    (joints_ : JointPositions) : option error * Memory :=
  let inputs := InputFromProtobuf (elements mem (Values joints_)) in
  match Transform inputs with
  | Err err => (Some err, mem)
  | Ok _ => (None, copy mem (Values (joints a)) (Values joints_))
  end.

(** [Arm.JointPositions] (lines 154-157): a new message on the values
    of the arm. *)
Definition Arm_JointPositions (a : Arm) : JointPositions * option error :=
  let retJoint := {| Values := Values (joints a) |} in
  (retJoint, None).

(** [Arm.CurrentInputs] (lines 170-176). *)
Definition CurrentInputs (a : Arm) (mem : Memory) : result (list Input) :=
  match Arm_JointPositions a with
  | (_, Some err) => Err err
  | (res, None) => Ok (InputFromProtobuf (elements mem (Values res)))
  end.

(** [Arm.GoToInputs] (lines 179-181). [ProtobufFromInput] is not under
    src/: the message it returns is taken to be a new one, on an array
    of its own. *)
Definition GoToInputs (a : Arm) (mem : Memory) (goal : list Input)
    : option error * Memory :=
  let (mem, vals) := allocate mem (ProtobufFromInput goal) in
  MoveToJointPositions a mem {| Values := vals |}.

End Methods.

(** ** Predicates of the statements about the arm *)

(** The array of a slice is there and holds the slice. *)
Definition allocated (mem : Memory) (s : Float64Slice) : Prop :=
  exists vals, mem !! array s = Some vals /\ (len s <= length vals)%nat.

(** ** An arm for the examples: six joints at address 1, all at zero,
    as [NewArm] makes them, and a message of three values at address
    2 *)
Definition exampleArmMemory : Memory :=
  <[1%positive := [0; 0; 0; 0; 0; 0]%float]>
    (<[2%positive := [10; 20; 30]%float]> ∅).

Definition exampleFakeArm : Arm :=
  {| Name := "arm";
     joints := {| Values := {| array := 1; len := 6 |} |};
     CloseCount := 0 |}.

Definition exampleMessage : JointPositions :=
  {| Values := {| array := 2; len := 3 |} |}.

(** A model that accepts every input and takes joint values as
    inputs. *)
Definition anyTransform (_ : list Input) : result Pose :=
  Ok (NewPoseFromPoint {| X := 0; Y := 0; Z := 0 |}).

Definition InputsToFloats (inputs : list Input) : list float64 :=
  map Value inputs.

End fake.

(* ===================================================================== *)
(** * Facts about the Go runtime fragments *)
(* ===================================================================== *)

Module GoFacts.

Example fmt_5f_50 : fmt_5f 50%float = "50.00000"%string.
Proof. vm_compute. reflexivity. Qed.

Example fmt_5f_neg30 : fmt_5f (-30)%float = "-30.00000"%string.
Proof. vm_compute. reflexivity. Qed.

Example fmt_5f_rounds : fmt_5f 1.5707963267948966%float = "1.57080"%string.
Proof. vm_compute. reflexivity. Qed.

Example fmt_5f_small : fmt_5f 0.001%float = "0.00100"%string.
Proof. vm_compute. reflexivity. Qed.

(** ** Strings *)

Lemma append_assoc (s1 s2 s3 : string) :
  (s1 +:+ s2) +:+ s3 = s1 +:+ s2 +:+ s3.
Proof.
  induction s1 as [|a s1 IH]; [reflexivity|].
  change (String a ((s1 +:+ s2) +:+ s3) = String a (s1 +:+ s2 +:+ s3)).
  now rewrite IH.
Qed.

Lemma append_nil_r (s : string) : s +:+ "" = s.
Proof.
  induction s as [|a s IH]; [reflexivity|].
  change (String a (s +:+ "") = String a s). now rewrite IH.
Qed.

Lemma contains_intro (pre sub post : string) :
  contains (pre +:+ sub +:+ post) sub.
Proof. exists pre, post. reflexivity. Qed.

Lemma contains_prefix (sub post : string) : contains (sub +:+ post) sub.
Proof. exists ""%string, post. reflexivity. Qed.

Lemma contains_suffix (pre sub : string) : contains (pre +:+ sub) sub.
Proof. exists pre, ""%string. now rewrite append_nil_r. Qed.

(** ** Order facts on float64 used by the bound checks *)

Lemma SFcompare_antisym (x y : spec_float) (c : comparison) :
  SFcompare x y = Some c -> SFcompare y x = Some (CompOpp c).
Proof.
  destruct x as [sx|sx| |sx mx ex], y as [sy|sy| |sy my ey]; simpl;
    try discriminate;
    try (destruct sx; intros [= <-]; reflexivity);
    try (destruct sy; intros [= <-]; reflexivity);
    try (intros [= <-]; reflexivity).
  - destruct sx, sy; intros [= <-]; reflexivity.
  - intros [= <-]. f_equal.
    destruct sx, sy; try reflexivity.
    + rewrite (Z.compare_antisym ex ey).
      destruct (ex ?= ey)%Z; simpl; try reflexivity.
      rewrite (Pos.compare_cont_antisym mx my Eq). reflexivity.
    + rewrite (Z.compare_antisym ex ey).
      destruct (ex ?= ey)%Z; simpl; try reflexivity.
      rewrite (Pos.compare_cont_antisym mx my Eq). reflexivity.
Qed.

Lemma ltb_irrefl (x : float64) : PrimFloat.ltb x x = false.
Proof.
  rewrite FloatAxioms.ltb_spec. unfold SFltb.
  destruct (SFcompare (Prim2SF x) (Prim2SF x)) as [c|] eqn:E; [|reflexivity].
  pose proof (SFcompare_antisym _ _ _ E) as E'. rewrite E in E'.
  destruct c; try reflexivity; discriminate.
Qed.

Lemma leb_not_gt (x y : float64) :
  PrimFloat.leb x y = true -> PrimFloat.ltb y x = false.
Proof.
  rewrite FloatAxioms.leb_spec, FloatAxioms.ltb_spec. unfold SFleb, SFltb.
  destruct (SFcompare (Prim2SF x) (Prim2SF y)) as [c|] eqn:E; [|discriminate].
  rewrite (SFcompare_antisym _ _ _ E).
  destruct c; simpl; congruence.
Qed.

End GoFacts.

Import GoFacts.

Module SpatialFacts.
Import spatialmath.

Example Normalize_3_4_0 :
  Normalize {| X := 3; Y := 4; Z := 0 |}
  = {| X := 0.60000000000000009; Y := 0.80000000000000004; Z := 0 |}.
Proof. vm_compute. reflexivity. Qed.

End SpatialFacts.

(* ===================================================================== *)
(** * Single-DOF frames: transform and input validation *)
(* ===================================================================== *)

Module FrameFacts.
Import spatialmath referenceframe.

(** ** The prismatic frame of the test *)

Lemma unit_axis_3_4_0 :
  R3VectorAlmostEqual (Normalize {| X := 3; Y := 4; Z := 0 |})
    {| X := 0.6; Y := 0.8; Z := 0 |} floatTolerance = true.
Proof. vm_compute. reflexivity. Qed.

(** The assertion of [TestPrismaticFrame] (line 52) holds on the model. *)
Lemma TestPrismaticFrame_passes :
  TestPrismaticFrame_pose {| X := 3; Y := 4; Z := 0 |} = true.
Proof. vm_compute. reflexivity. Qed.

(** C4, as stated, fails: at input 5 the prismatic frame with axis
    (3,4,0) and limit [{-30,30}] returns a pose, and its point is not
    (15,20,0) within the floating tolerance (it is five times the unit
    axis, not five times the axis). *)
Lemma C4_point_is_not_15_20_0 :
  exists (frame : Frame) (pose : Pose),
    testPrismaticFrame "test" = Ok frame /\
    Transform frame (FloatsToInputs [5%float]) = Ok pose /\
    R3VectorAlmostEqual (Point pose) {| X := 15; Y := 20; Z := 0 |}
      floatTolerance = false /\
    TestPrismaticFrame_pose {| X := 15; Y := 20; Z := 0 |} = false.
Proof.
  eexists. eexists.
  split; [reflexivity|]. split; [vm_compute; reflexivity|].
  split; vm_compute; reflexivity.
Qed.

(** C4, amended: at input 5 the prismatic frame with axis (3,4,0) and
    limit [{-30,30}] returns a pose whose point is (3,4,0) within the
    floating tolerance: the unit axis (0.6,0.8,0) scaled by the input.
    This is the pose [TestPrismaticFrame] expects. *)
Theorem C4_prismatic_scales_unit_axis :
  exists (frame : Frame) (pose : Pose),
    testPrismaticFrame "test" = Ok frame /\
    Transform frame (FloatsToInputs [5%float]) = Ok pose /\
    Point pose = Mul (Normalize {| X := 3; Y := 4; Z := 0 |}) 5%float /\
    R3VectorAlmostEqual (Point pose) {| X := 3; Y := 4; Z := 0 |}
      floatTolerance = true /\
    PoseAlmostEqual pose (NewPoseFromPoint {| X := 3; Y := 4; Z := 0 |}) = true.
Proof.
  eexists. eexists.
  split; [reflexivity|]. split; [vm_compute; reflexivity|].
  repeat split; vm_compute; reflexivity.
Qed.

(** ** Input validation *)

Lemma validInputs_wrong_length (bf : baseFrame) (inputs : list Input) :
  length inputs <> length (limits bf) ->
  validInputs bf inputs
  = Some (NewIncorrectInputLengthError (length inputs) (length (limits bf))).
Proof.
  intros Hlen. unfold validInputs.
  destruct (Nat.eqb_spec (length inputs) (length (limits bf))); congruence.
Qed.

Lemma validInputs_single (nm : string) (l : Limit) (i : Input) :
  validInputs {| name := nm; limits := [l] |} [i]
  = if outOfBounds i l then Some (OOBError (Value i) l) else None.
Proof. unfold validInputs. simpl. destruct (outOfBounds i l); reflexivity. Qed.

Lemma boundary_in_bounds (l : Limit) (v : float64) :
  (Min l <=? Max l)%float = true ->
  v = Min l \/ v = Max l ->
  outOfBounds {| Value := v |} l = false.
Proof.
  intros Hwf [-> | ->]; unfold outOfBounds; simpl.
  - rewrite ltb_irrefl. rewrite (leb_not_gt _ _ Hwf). reflexivity.
  - rewrite (leb_not_gt _ _ Hwf). rewrite ltb_irrefl. reflexivity.
Qed.

Lemma OOBError_names_value_and_limit (v : float64) (l : Limit) :
  contains (Error (OOBError v l)) (fmt_5f v) /\
  contains (Error (OOBError v l)) (fmt_5f_Limit l) /\
  contains (Error (OOBError v l)) OOBErrString.
Proof.
  unfold OOBError; simpl. repeat split.
  - apply contains_prefix.
  - rewrite <- !append_assoc. apply contains_suffix.
  - rewrite <- (append_assoc (fmt_5f v) " "). apply contains_intro.
Qed.

Lemma SingleDOF_Transform_cases (limit : Limit) (f : Frame) :
  SingleDOF limit f ->
  forall input : list Input,
    match input with
    | [i] =>
        if outOfBounds i limit
        then Transform f input = Err (OOBError (Value i) limit)
        else exists pose, Transform f input = Ok pose
    | _ => exists e, Transform f input = Err e
    end.
Proof.
  intros [nm axis | nm axis] input; simpl;
    unfold translationalFrame_Transform, rotationalFrame_Transform; simpl.
  all: destruct input as [|i [|j rest]].
  all: try (rewrite validInputs_wrong_length by (simpl; lia); eauto).
  all: rewrite validInputs_single; destruct (outOfBounds i limit); eauto.
Qed.

(** C5, as stated, fails: the out-of-bounds error of the frame tests
    ([TestPrismaticFrame] line 68, [TestRevoluteFrame] line 104) is
    exactly ["<value> <OOBErrString> <limit>"]; it does not mention the
    name of the frame, and a frame with another name returns the very
    same error. *)
Lemma C5_oob_error_has_no_frame_name :
  exists (frame other : Frame) (e : error),
    testPrismaticFrame "test" = Ok frame /\
    testPrismaticFrame "gantry" = Ok other /\
    Transform frame (FloatsToInputs [50%float]) = Err e /\
    Transform other (FloatsToInputs [50%float]) = Err e /\
    Error e = "50.00000 input out of bounds {-30.00000 30.00000}"%string /\
    containsb (Error e) (Name frame) = false /\
    containsb (Error e) (Name other) = false.
Proof.
  do 3 eexists.
  split; [reflexivity|]. split; [reflexivity|].
  split; [vm_compute; reflexivity|].
  repeat split; vm_compute; reflexivity.
Qed.

(** C5, amended: for every single-DOF frame (translational or
    rotational) whose limit has min <= max, [Transform] with an input
    whose length is not 1 returns an error; [Transform] with a value
    below min or above max returns the out-of-bounds error
    ["<value> <OOBErrString> <limit>"], which includes the offending
    value and the violated limit (and no frame name: the error is the
    same whatever the frame is called); and [Transform] with a value
    equal to min or to max succeeds. *)
Theorem C5_single_dof_validation (limit : Limit) (f : Frame)
    (Hf : SingleDOF limit f)
    (Hwf : (Min limit <=? Max limit)%float = true) :
  (forall input : list Input,
      length input <> 1%nat -> exists e, Transform f input = Err e) /\
  (forall v : float64,
      (v <? Min limit)%float = true \/ (Max limit <? v)%float = true ->
      Transform f [ {| Value := v |} ] = Err (OOBError v limit) /\
      Error (OOBError v limit)
      = fmt_5f v +:+ " " +:+ OOBErrString +:+ " " +:+ fmt_5f_Limit limit /\
      contains (Error (OOBError v limit)) (fmt_5f v) /\
      contains (Error (OOBError v limit)) (fmt_5f_Limit limit)) /\
  (forall v : float64,
      v = Min limit \/ v = Max limit ->
      exists pose, Transform f [ {| Value := v |} ] = Ok pose).
Proof.
  split; [|split].
  - intros input Hlen.
    pose proof (SingleDOF_Transform_cases limit f Hf input) as H.
    destruct input as [|i [|j rest]]; simpl in Hlen; try lia; exact H.
  - intros v Hv.
    split; [|split; [reflexivity | split; apply OOBError_names_value_and_limit]].
    pose proof (SingleDOF_Transform_cases limit f Hf [ {| Value := v |} ]) as Hc.
    cbv beta iota in Hc. unfold outOfBounds in Hc. cbn [Value] in Hc.
    destruct Hv as [Hv | Hv]; rewrite Hv in Hc; [exact Hc|].
    rewrite orb_true_r in Hc. exact Hc.
  - intros v Hv.
    pose proof (SingleDOF_Transform_cases limit f Hf [ {| Value := v |} ]) as Hc.
    cbv beta iota in Hc. rewrite (boundary_in_bounds limit v Hwf Hv) in Hc.
    exact Hc.
Qed.

(** The bounds of a limit have to be in order for its boundary values to
    be accepted: with min 5 and max 3, the value 5 is above max. *)
Example boundary_of_inverted_limit :
  exists frame : Frame,
    NewTranslationalFrame "test" {| X := 1; Y := 0; Z := 0 |}
      {| Min := 5; Max := 3 |} = Ok frame /\
    Transform frame [ {| Value := 5 |} ]
    = Err (OOBError 5 {| Min := 5; Max := 3 |}).
Proof. eexists. split; [reflexivity | vm_compute; reflexivity]. Qed.

(** The theorem at the frames of the two tests: the prismatic frame with
    limit [{-30,30}] and the revolute frame with limits of a quarter
    turn. *)
Lemma C5_single_dof_validation_witness :
  ((exists e, Transform (testRevoluteFrame "test")
                (FloatsToInputs [45%float; 55%float]) = Err e) /\
   Transform (testRevoluteFrame "test") [ {| Value := 100%float |} ]
   = Err (OOBError 100%float
            {| Min := (-1.5707963267948966)%float;
               Max := 1.5707963267948966%float |}) /\
   (exists pose, Transform (testRevoluteFrame "test")
                   [ {| Value := 1.5707963267948966%float |} ] = Ok pose)).
Proof.
  pose proof (C5_single_dof_validation
                {| Min := (-1.5707963267948966)%float;
                   Max := 1.5707963267948966%float |}
                (testRevoluteFrame "test")
                (SingleDOF_rotational _ "test" {| X := 1; Y := 0; Z := 0 |})
                eq_refl) as [Hlen [Hoob Hbound]].
  split; [|split].
  - apply Hlen. simpl. lia.
  - apply Hoob. right. vm_compute. reflexivity.
  - apply Hbound. right. reflexivity.
Defined.

End FrameFacts.

(* ===================================================================== *)
(** * Frame and model configurations *)
(* ===================================================================== *)

Module ConfigFacts.
Import spatialmath referenceframe modelconfig.

(** ** [FrameConfig.Pose] and [FrameConfig.ParseConfig] *)

(** C9: the code at both kinds of input. The nil check of
    [FrameConfig.Pose] is inverted: a configuration whose link is
    present is rejected with [ErrNilPose], by [Pose] and so by
    [ParseConfig]; a configuration whose link is missing passes the check
    and the next statement reads a field of the nil link, which
    panics. *)
Theorem C9_Pose_nil_check_is_inverted `{Env} (cfg : FrameConfig.t) :
  match FrameConfig.Link cfg with
  | Some _ =>
      FrameConfig_Pose cfg = Returns (Err ErrNilPose) /\
      FrameConfig_ParseConfig cfg = Returns (Err ErrNilPose)
  | None =>
      FrameConfig_Pose cfg = Panics /\ FrameConfig_ParseConfig cfg = Panics
  end.
Proof.
  unfold FrameConfig_ParseConfig, FrameConfig_Pose.
  destruct (FrameConfig.Link cfg) as [link|]; simpl; split; reflexivity.
Qed.

(** A frame configuration with a link at (1,2,3) and no orientation. *)
Example FrameConfig_with_link_is_rejected :
  FrameConfig_ParseConfig (H := exampleEnv)
    {| FrameConfig.Link :=
         Some {| LinkConfig.ID := "arm";
                 LinkConfig.Translation := {| X := 1; Y := 2; Z := 3 |};
                 LinkConfig.Orientation := None;
                 LinkConfig.Parent := "world" |};
       FrameConfig.Geometries := None |}
  = Returns (Err (errorString "pose is not allowed to be nil")).
Proof. reflexivity. Qed.

Example FrameConfig_without_link_panics :
  FrameConfig_ParseConfig (H := exampleEnv)
    {| FrameConfig.Link := None; FrameConfig.Geometries := None |}
  = Panics.
Proof. reflexivity. Qed.

(** ** [JointConfig.ToFrame] *)

Section Joints.
Context `{Env}.

Lemma ToFrame_revolute (joint : JointConfig.t) :
  JointConfig.Type_ joint = RevoluteJoint ->
  JointConfig_ToFrame joint
  = NewRotationalFrame (JointConfig.ID joint)
      (AxisConfig_ParseConfig (JointConfig.Axis joint))
      {| referenceframe.Min := DegToRad (JointConfig.Min joint);
         referenceframe.Max := DegToRad (JointConfig.Max joint) |}.
Proof. intros E. unfold JointConfig_ToFrame. rewrite E. reflexivity. Qed.

Lemma ToFrame_prismatic (joint : JointConfig.t) :
  JointConfig.Type_ joint = PrismaticJoint ->
  JointConfig_ToFrame joint
  = NewTranslationalFrame (JointConfig.ID joint) (JointConfig.Axis joint)
      {| referenceframe.Min := JointConfig.Min joint;
         referenceframe.Max := JointConfig.Max joint |}.
Proof. intros E. unfold JointConfig_ToFrame. rewrite E. reflexivity. Qed.

Lemma ToFrame_unsupported (joint : JointConfig.t) :
  unsupported joint ->
  JointConfig_ToFrame joint
  = Err (NewUnsupportedJointTypeError (JointConfig.Type_ joint)).
Proof.
  intros [Hr Hp]. unfold JointConfig_ToFrame.
  destruct (String.eqb_spec (JointConfig.Type_ joint) RevoluteJoint); [contradiction|].
  destruct (String.eqb_spec (JointConfig.Type_ joint) PrismaticJoint); [contradiction|].
  reflexivity.
Qed.

(** ** The loops of [ParseConfig] *)

Variable ToStaticFrame : LinkConfig.t -> string -> result Frame.

Lemma addJoints_unsupported (joints : list JointConfig.t) (acc : Transforms) :
  (exists joint, joint ∈ joints /\ unsupported joint) ->
  isErr (addJoints joints acc) = true.
Proof.
  revert acc. induction joints as [|j rest IH]; intros acc [joint [Hin Hbad]].
  - inversion Hin.
  - simpl. apply elem_of_cons in Hin as [-> | Hin].
    + rewrite (ToFrame_unsupported _ Hbad). reflexivity.
    + destruct (JointConfig_ToFrame j); [|reflexivity].
      apply IH. eauto.
Qed.

Lemma namedWorldLink_true (links : list LinkConfig.t) :
  (exists link, link ∈ links /\ LinkConfig.ID link = World) ->
  namedWorldLink links = true.
Proof.
  intros [link [Hin E]]. unfold namedWorldLink. apply existsb_exists.
  exists link. split; [now apply list_elem_of_In|].
  rewrite E. apply String.eqb_refl.
Qed.

Lemma namedWorldJoint_true (joints : list JointConfig.t) :
  (exists joint, joint ∈ joints /\ JointConfig.ID joint = World) ->
  namedWorldJoint joints = true.
Proof.
  intros [joint [Hin E]]. unfold namedWorldJoint. apply existsb_exists.
  exists joint. split; [now apply list_elem_of_In|].
  rewrite E. apply String.eqb_refl.
Qed.

Lemma isSVA_test (cfg : ModelConfig.t) :
  isSVA cfg ->
  String.eqb (ModelConfig.KinParamType cfg) "SVA"
  || String.eqb (ModelConfig.KinParamType cfg) "" = true.
Proof. intros [-> | ->]; reflexivity. Qed.

Lemma collectTransforms_world (cfg : ModelConfig.t) :
  isSVA cfg ->
  (exists link, link ∈ ModelConfig.Links cfg /\ LinkConfig.ID link = World) \/
  (exists joint, joint ∈ ModelConfig.Joints cfg /\ JointConfig.ID joint = World) ->
  isErr (collectTransforms ToStaticFrame cfg) = true.
Proof.
  intros Hsva Hworld. unfold collectTransforms.
  rewrite (isSVA_test _ Hsva).
  destruct (namedWorldLink (ModelConfig.Links cfg)) eqn:El; [reflexivity|].
  destruct Hworld as [Hl | Hj].
  - rewrite (namedWorldLink_true _ Hl) in El. discriminate.
  - rewrite (namedWorldJoint_true _ Hj). reflexivity.
Qed.

Lemma collectTransforms_unsupported (cfg : ModelConfig.t) :
  isSVA cfg ->
  (exists joint, joint ∈ ModelConfig.Joints cfg /\ unsupported joint) ->
  isErr (collectTransforms ToStaticFrame cfg) = true.
Proof.
  intros Hsva Hbad. unfold collectTransforms.
  rewrite (isSVA_test _ Hsva).
  destruct (namedWorldLink (ModelConfig.Links cfg)); [reflexivity|].
  destruct (namedWorldJoint (ModelConfig.Joints cfg)); [reflexivity|].
  destruct (addLinks ToStaticFrame (ModelConfig.Links cfg) (∅, ∅)); [|reflexivity].
  now apply addJoints_unsupported.
Qed.

Lemma ParseConfig_collect_error (cfg : ModelConfig.t) (modelName : string) :
  isErr (collectTransforms ToStaticFrame cfg) = true ->
  isErr (ParseConfig ToStaticFrame cfg modelName) = true.
Proof.
  unfold ParseConfig.
  destruct (collectTransforms ToStaticFrame cfg) as [[t p]|e];
    [discriminate | reflexivity].
Qed.

(** ** End effectors *)

Lemma foldr_delete_lookup (parentMap : gmap string string)
    (entries : list (string * Frame)) (m : gmap string Frame)
    (id : string) (frame : Frame) :
  foldr (fun entry parents =>
           delete (parentOf parentMap (referenceframe.Name (snd entry))) parents)
    m entries !! id = Some frame
  <-> m !! id = Some frame /\
      forall entry, entry ∈ entries ->
        parentOf parentMap (referenceframe.Name (snd entry)) <> id.
Proof.
  induction entries as [|e rest IH]; simpl.
  - split; [intros Hm; split; [exact Hm | intros ? Hin; inversion Hin] | tauto].
  - rewrite lookup_delete_Some, IH. split.
    + intros [Hne [Hm Hrest]]. split; [exact Hm|].
      intros entry Hin. apply elem_of_cons in Hin as [-> | Hin]; auto.
    + intros [Hm Hall]. split; [|split; [exact Hm|]].
      * apply Hall. left.
      * intros entry Hin. apply Hall. now right.
Qed.

Lemma childless_lookup (transforms : gmap string Frame)
    (parentMap : gmap string string) (id : string) (frame : Frame) :
  childless transforms parentMap !! id = Some frame
  <-> transforms !! id = Some frame /\
      forall (id' : string) (frame' : Frame),
        transforms !! id' = Some frame' ->
        parentOf parentMap (referenceframe.Name frame') <> id.
Proof.
  unfold childless. rewrite foldr_delete_lookup. split; intros [Hm Hall].
  - split; [exact Hm|]. intros id' frame' Hl.
    apply (Hall (id', frame')). now apply elem_of_map_to_list.
  - split; [exact Hm|]. intros [id' frame'] Hin.
    apply (Hall id' frame'). now apply elem_of_map_to_list.
Qed.

Lemma childless_isEndEffector (transforms : gmap string Frame)
    (parentMap : gmap string string) (id : string) :
  is_Some (childless transforms parentMap !! id)
  <-> isEndEffector transforms parentMap id.
Proof.
  unfold isEndEffector. split.
  - intros [frame Hl]. apply childless_lookup in Hl as [Hm Hall]. eauto.
  - intros [[frame Hm] Hall]. exists frame. apply childless_lookup. eauto.
Qed.

Lemma size_lt_1 {A} (m : gmap string A) :
  (size m < 1)%nat <-> forall id, m !! id = None.
Proof.
  rewrite <- map_empty, <- map_size_empty_iff. lia.
Qed.

Lemma size_gt_1 {A} (m : gmap string A) :
  (1 < size m)%nat
  <-> exists id1 id2, id1 <> id2 /\ is_Some (m !! id1) /\ is_Some (m !! id2).
Proof.
  split.
  - intros Hsz.
    destruct (map_size_ne_0_lookup_1 m) as [id1 H1]; [lia|].
    destruct (map_size_ne_0_lookup_1 (delete id1 m)) as [id2 H2].
    { rewrite map_size_delete_Some by exact H1. lia. }
    apply lookup_delete_is_Some in H2 as [Hne H2]. eauto.
  - intros (id1 & id2 & Hne & H1 & H2).
    assert (size (delete id1 m) <> 0)%nat as Hd.
    { apply (map_size_ne_0_lookup_2 _ id2). apply lookup_delete_is_Some. auto. }
    rewrite map_size_delete_Some in Hd by exact H1. lia.
Qed.

Lemma ParseConfig_end_effectors (cfg : ModelConfig.t) (modelName : string)
    (transforms : gmap string Frame) (parentMap : gmap string string) :
  collectTransforms ToStaticFrame cfg = Ok (transforms, parentMap) ->
  ((forall id, ~ isEndEffector transforms parentMap id) ->
   ParseConfig ToStaticFrame cfg modelName
   = Err (errorString "need at least one end effector")) /\
  ((exists id1 id2, id1 <> id2 /\ isEndEffector transforms parentMap id1
                    /\ isEndEffector transforms parentMap id2) ->
   ParseConfig ToStaticFrame cfg modelName
   = Err (errorString "more than one end effector not supported")) /\
  (isErr (ParseConfig ToStaticFrame cfg modelName) = false ->
   exists ee, isEndEffector transforms parentMap ee /\
     forall id, isEndEffector transforms parentMap id -> id = ee).
Proof.
  intros Hc. unfold ParseConfig. rewrite Hc.
  set (parents := childless transforms parentMap).
  split; [|split].
  - intros Hnone.
    assert (size parents < 1)%nat as Hsz.
    { apply size_lt_1. intros id. apply eq_None_not_Some.
      intros Hs. apply (Hnone id). now apply childless_isEndEffector. }
    destruct (Nat.ltb_spec 1 (size parents)); [lia|].
    destruct (Nat.ltb_spec (size parents) 1); [reflexivity | lia].
  - intros (id1 & id2 & Hne & H1 & H2).
    assert (1 < size parents)%nat as Hsz.
    { apply size_gt_1. exists id1, id2.
      split; [exact Hne|]. split; now apply childless_isEndEffector. }
    destruct (Nat.ltb_spec 1 (size parents)); [reflexivity | lia].
  - destruct (Nat.ltb_spec 1 (size parents)) as [|Hle]; [discriminate|].
    destruct (Nat.ltb_spec (size parents) 1) as [|Hge]; [discriminate|].
    intros _.
    destruct (map_size_ne_0_lookup_1 parents) as [ee Hee]; [lia|].
    exists ee. split; [now apply childless_isEndEffector|].
    intros id Hid. destruct (decide (id = ee)) as [|Hne]; [assumption|].
    exfalso. apply childless_isEndEffector in Hid.
    assert (1 < size parents)%nat; [|lia].
    apply size_gt_1. eauto.
Qed.

(** The maps of a description that collects without error. *)
Lemma collected_Ok (cfg : ModelConfig.t) :
  isErr (collectTransforms ToStaticFrame cfg) = false ->
  collectTransforms ToStaticFrame cfg
  = Ok (fst (collected ToStaticFrame cfg), snd (collected ToStaticFrame cfg)).
Proof.
  unfold collected.
  destruct (collectTransforms ToStaticFrame cfg) as [[t p]|e];
    [reflexivity | discriminate].
Qed.

Lemma isSome_true {A} (o : option A) : isSome o = true -> is_Some o.
Proof. destruct o; [eauto | discriminate]. Qed.

End Joints.

(** ** The claim about [ModelConfig.ParseConfig] *)

Example exampleArm_parses :
  isErr (ParseConfig exampleToStaticFrame exampleArm "") = false.
Proof. vm_compute. reflexivity. Qed.

Example exampleArm_order :
  match ParseConfig exampleToStaticFrame exampleArm "" with
  | Ok m => map referenceframe.Name (OrdTransforms m) = ["base"; "shoulder"; "slide"]
  | Err _ => False
  end.
Proof. vm_compute. reflexivity. Qed.

(** C6, as stated, fails. The joint types "fixed" and "continuous" are
    declared constants of the package, yet [ToFrame] has no case for
    them: it returns the unsupported-joint-type error, and a model with
    such a joint does not parse. And a description of kind "DH" is read
    from its DH rows alone: a link named "world" in it is never
    looked at, and the description parses. *)
Lemma C6_fixed_and_continuous_are_unsupported :
  JointConfig_ToFrame (exampleJoint "wrist" FixedJoint "base")
  = Err (errorString "unsupported joint type detected: fixed") /\
  JointConfig_ToFrame (exampleJoint "wrist" ContinuousJoint "base")
  = Err (errorString "unsupported joint type detected: continuous") /\
  ParseConfig exampleToStaticFrame
    (exampleModel [exampleLink "base" "world"]
       [exampleJoint "wrist" FixedJoint "base"]) ""
  = Err (errorString "unsupported joint type detected: fixed") /\
  (exists link, link ∈ ModelConfig.Links exampleDH /\ LinkConfig.ID link = World) /\
  isErr (ParseConfig exampleToStaticFrame exampleDH "") = false.
Proof.
  split; [reflexivity|]. split; [reflexivity|].
  split; [reflexivity|].
  split; [|vm_compute; reflexivity].
  eexists. split; [apply list_elem_of_here | reflexivity].
Qed.

(** C6, amended. Parsing a kinematic-chain description of kind "SVA" (or
    of no stated kind) fails, returning an error and no model, when a
    link or a joint is named "world" or when a joint has a type other
    than "revolute" and "prismatic" ("fixed" and "continuous" included);
    parsing a description of any kind fails when the frames it collected
    have no end effector (a frame that is the parent of no frame) or
    more than one, so a parsed model has exactly one. A joint of type
    "revolute" is handed to [NewRotationalFrame] with its limits turned
    from degrees to radians, a joint of type "prismatic" to
    [NewTranslationalFrame], and [ToFrame] returns what the constructor
    returns; every other type gets the unsupported-joint-type error. *)
Theorem C6_ParseConfig_validation `{Env}
    (ToStaticFrame : LinkConfig.t -> string -> result Frame)
    (cfg : ModelConfig.t) (modelName : string) :
  (isSVA cfg ->
   (exists link, link ∈ ModelConfig.Links cfg /\ LinkConfig.ID link = World) \/
   (exists joint, joint ∈ ModelConfig.Joints cfg /\ JointConfig.ID joint = World) ->
   isErr (ParseConfig ToStaticFrame cfg modelName) = true) /\
  (isSVA cfg ->
   (exists joint, joint ∈ ModelConfig.Joints cfg /\ unsupported joint) ->
   isErr (ParseConfig ToStaticFrame cfg modelName) = true) /\
  (forall (transforms : gmap string Frame) (parentMap : gmap string string),
     collectTransforms ToStaticFrame cfg = Ok (transforms, parentMap) ->
     ((forall id, ~ isEndEffector transforms parentMap id) ->
      ParseConfig ToStaticFrame cfg modelName
      = Err (errorString "need at least one end effector")) /\
     ((exists id1 id2, id1 <> id2 /\ isEndEffector transforms parentMap id1
                       /\ isEndEffector transforms parentMap id2) ->
      ParseConfig ToStaticFrame cfg modelName
      = Err (errorString "more than one end effector not supported")) /\
     (isErr (ParseConfig ToStaticFrame cfg modelName) = false ->
      exists ee, isEndEffector transforms parentMap ee /\
        forall id, isEndEffector transforms parentMap id -> id = ee)) /\
  (forall joint : JointConfig.t,
     (JointConfig.Type_ joint = RevoluteJoint ->
      JointConfig_ToFrame joint
      = NewRotationalFrame (JointConfig.ID joint)
          (AxisConfig_ParseConfig (JointConfig.Axis joint))
          {| referenceframe.Min := DegToRad (JointConfig.Min joint);
             referenceframe.Max := DegToRad (JointConfig.Max joint) |}) /\
     (JointConfig.Type_ joint = PrismaticJoint ->
      JointConfig_ToFrame joint
      = NewTranslationalFrame (JointConfig.ID joint) (JointConfig.Axis joint)
          {| referenceframe.Min := JointConfig.Min joint;
             referenceframe.Max := JointConfig.Max joint |}) /\
     (unsupported joint ->
      JointConfig_ToFrame joint
      = Err (NewUnsupportedJointTypeError (JointConfig.Type_ joint)))).
Proof.
  split; [|split; [|split]].
  - intros Hsva Hworld. apply ParseConfig_collect_error.
    now apply collectTransforms_world.
  - intros Hsva Hbad. apply ParseConfig_collect_error.
    now apply collectTransforms_unsupported.
  - intros transforms parentMap Hc. now apply ParseConfig_end_effectors.
  - intros joint. split; [|split].
    + apply ToFrame_revolute.
    + apply ToFrame_prismatic.
    + apply ToFrame_unsupported.
Qed.

(** The theorem at three descriptions of the example environment: one
    with a link named "world", one whose two joints are each other's
    parent (no end effector), one with two joints on the same link (two
    end effectors). *)
Lemma C6_ParseConfig_validation_witness :
  isErr (ParseConfig exampleToStaticFrame
           (exampleModel [exampleLink "world" "world"] []) "") = true /\
  ParseConfig exampleToStaticFrame
    (exampleModel [] [exampleJoint "a" "revolute" "b";
                      exampleJoint "b" "revolute" "a"]) ""
  = Err (errorString "need at least one end effector") /\
  ParseConfig exampleToStaticFrame
    (exampleModel [exampleLink "base" "world"]
       [exampleJoint "left" "revolute" "base";
        exampleJoint "right" "prismatic" "base"]) ""
  = Err (errorString "more than one end effector not supported").
Proof.
  split; [|split].
  - apply (proj1 (C6_ParseConfig_validation exampleToStaticFrame _ "")).
    + unfold isSVA. left. reflexivity.
    + left. eexists. split; [apply list_elem_of_here | reflexivity].
  - assert (isErr (collectTransforms exampleToStaticFrame
                     (exampleModel [] [exampleJoint "a" "revolute" "b";
                                       exampleJoint "b" "revolute" "a"])) = false)
      as Hc by (vm_compute; reflexivity).
    apply collected_Ok in Hc.
    apply (proj1 (proj1 (proj2 (proj2
             (C6_ParseConfig_validation exampleToStaticFrame _ ""))) _ _ Hc)).
    intros id Hid. apply childless_isEndEffector in Hid as [frame Hid].
    assert (size (childless
                    (fst (collected exampleToStaticFrame
                            (exampleModel [] [exampleJoint "a" "revolute" "b";
                                              exampleJoint "b" "revolute" "a"])))
                    (snd (collected exampleToStaticFrame
                            (exampleModel [] [exampleJoint "a" "revolute" "b";
                                              exampleJoint "b" "revolute" "a"]))))
            = 0%nat) as Hsz by (vm_compute; reflexivity).
    apply map_size_empty_iff in Hsz. rewrite Hsz in Hid.
    rewrite lookup_empty in Hid. discriminate.
  - assert (isErr (collectTransforms exampleToStaticFrame
                     (exampleModel [exampleLink "base" "world"]
                        [exampleJoint "left" "revolute" "base";
                         exampleJoint "right" "prismatic" "base"])) = false)
      as Hc by (vm_compute; reflexivity).
    apply collected_Ok in Hc.
    apply (proj1 (proj2 (proj1 (proj2 (proj2
             (C6_ParseConfig_validation exampleToStaticFrame _ ""))) _ _ Hc))).
    exists "left"%string, "right"%string.
    split; [discriminate|].
    split; apply childless_isEndEffector; apply isSome_true;
      vm_compute; reflexivity.
Defined.

End ConfigFacts.

(* ===================================================================== *)
(** * The constraint handler: checks across a segment *)
(* ===================================================================== *)

Module ConstraintFacts.
Import spatialmath referenceframe motionplan.

(** ** The verdict of a registry does not depend on the order of the
    range over it *)

Lemma checkAll_true {A : Type} (constraints : list (string * (A -> bool)))
    (cInput : A) :
  fst (checkAll constraints cInput) = true
  <-> forall name_ cFunc, (name_, cFunc) ∈ constraints -> cFunc cInput = true.
Proof.
  induction constraints as [|[n f] rest IH]; simpl.
  - split; [intros _ ? ? Hin; inversion Hin | reflexivity].
  - destruct (f cInput) eqn:Ef; simpl.
    + rewrite IH. split.
      * intros Hall n' f' Hin. apply elem_of_cons in Hin as [[= -> ->] | Hin]; eauto.
      * intros Hall n' f' Hin. apply (Hall n' f'). now right.
    + split; [discriminate|]. intros Hall.
      rewrite <- Ef. apply (Hall n f). left.
Qed.

Lemma CheckStateConstraints_true (c : ConstraintHandler) (cInput : StateInput.t) :
  fst (CheckStateConstraints c cInput) = true
  <-> forall name_ cFunc,
        stateConstraints c !! name_ = Some cFunc -> cFunc cInput = true.
Proof.
  unfold CheckStateConstraints. rewrite checkAll_true.
  split; intros Hall n f Hl; apply (Hall n f); now apply elem_of_map_to_list.
Qed.

Lemma CheckSegmentConstraints_true (c : ConstraintHandler) (cInput : SegmentInput.t) :
  fst (CheckSegmentConstraints c cInput) = true
  <-> forall name_ cFunc,
        segmentConstraints c !! name_ = Some cFunc -> cFunc cInput = true.
Proof.
  unfold CheckSegmentConstraints. rewrite checkAll_true.
  split; intros Hall n f Hl; apply (Hall n f); now apply elem_of_map_to_list.
Qed.

(** ** Resolving poses leaves configurations and frame as they are *)

Lemma Segment_resolve_keeps (ci ci' : SegmentInput.t) (err : option error) :
  Segment_resolveInputsToPositions ci = (ci', err) ->
  SegmentInput.StartConfiguration ci' = SegmentInput.StartConfiguration ci /\
  SegmentInput.EndConfiguration ci' = SegmentInput.EndConfiguration ci /\
  SegmentInput.Frame ci' = SegmentInput.Frame ci.
Proof.
  unfold Segment_resolveInputsToPositions.
  destruct (resolvePosition (SegmentInput.StartPosition ci) _ _); simpl;
    [|intros [= <- <-]; auto].
  destruct (resolvePosition (SegmentInput.EndPosition ci) _ _);
    intros [= <- <-]; auto.
Qed.

Lemma State_resolve_keeps (s s' : StateInput.t) (err : option error) :
  State_resolveInputsToPositions s = (s', err) ->
  StateInput.Configuration s' = StateInput.Configuration s.
Proof.
  unfold State_resolveInputsToPositions.
  destruct (resolvePosition _ _ _); intros [= <- <-]; reflexivity.
Qed.

Section Across.
Variable PathStepCount : option Pose -> option Pose -> float64 -> int.
Variable InterpolateInputs : slice Input -> slice Input -> float64 -> slice Input.
Variable c : ConstraintHandler.
Variable ci : SegmentInput.t.
Variable steps : int.

Let state (i : int) : StateInput.t := interpolated InterpolateInputs ci steps i.
Let loop := acrossLoop InterpolateInputs c ci steps.

Lemma satisfies_or_not (s : StateInput.t) :
  satisfies c s \/ violates c s \/ snd (State_resolveInputsToPositions s) <> None.
Proof.
  unfold satisfies, violates.
  destruct (snd (State_resolveInputsToPositions s)); [right; right; discriminate|].
  destruct (fst (CheckStateConstraints c (fst (State_resolveInputsToPositions s))));
    auto.
Qed.

Lemma loop_step_satisfied (n : nat) (i : int) (lastGood : slice Input) :
  satisfies c (state i) ->
  loop (S n) i lastGood = loop n (i + 1) (StateInput.Configuration (state i)).
Proof.
  intros [Hres Hpass]. unfold loop. simpl. fold (state i).
  destruct (State_resolveInputsToPositions (state i)) as [s e] eqn:E.
  simpl in Hres, Hpass. subst e. rewrite Hpass. simpl.
  now rewrite (State_resolve_keeps _ _ _ E).
Qed.

Lemma loop_step_violated (n : nat) (i : int) (lastGood : slice Input) :
  violates c (state i) ->
  loop (S n) i lastGood
  = if i =? 0 then (false, None) else (false, Some (validPortion ci lastGood)).
Proof.
  intros [Hres Hpass]. unfold loop. simpl. fold (state i).
  destruct (State_resolveInputsToPositions (state i)) as [s e] eqn:E.
  simpl in Hres, Hpass. subst e. rewrite Hpass. reflexivity.
Qed.

Lemma loop_step_unresolved (n : nat) (i : int) (lastGood : slice Input) :
  snd (State_resolveInputsToPositions (state i)) <> None ->
  loop (S n) i lastGood = (false, None).
Proof.
  intros Hres. unfold loop. simpl. fold (state i).
  destruct (State_resolveInputsToPositions (state i)) as [s [e|]];
    [reflexivity | contradiction].
Qed.

(** Every state satisfies the constraints: the loop runs to its end. *)
Lemma loop_all_satisfied (n : nat) (i : int) (lastGood : slice Input) :
  (forall j, i <= j < i + Z.of_nat n -> satisfies c (state j)) ->
  loop n i lastGood = (true, None).
Proof.
  revert i lastGood. induction n as [|n IH]; intros i lastGood Hall.
  - reflexivity.
  - rewrite loop_step_satisfied by (apply Hall; lia).
    apply IH. intros j Hj. apply Hall. lia.
Qed.

(** The loop ran to its end: every state satisfied the constraints. *)
Lemma loop_true_inv (n : nat) (i : int) (lastGood : slice Input)
    (sub : option SegmentInput.t) :
  loop n i lastGood = (true, sub) ->
  sub = None /\ forall j, i <= j < i + Z.of_nat n -> satisfies c (state j).
Proof.
  revert i lastGood. induction n as [|n IH]; intros i lastGood.
  - intros [= <-]. split; [reflexivity | intros j Hj; lia].
  - destruct (satisfies_or_not (state i)) as [Hs | [Hv | Hu]].
    + rewrite (loop_step_satisfied _ _ _ Hs). intros Hl.
      apply IH in Hl as [-> Hrest]. split; [reflexivity|].
      intros j Hj. destruct (Z.eq_dec j i) as [-> | Hne]; [exact Hs|].
      apply Hrest. lia.
    + rewrite (loop_step_violated _ _ _ Hv). destruct (i =? 0); discriminate.
    + rewrite (loop_step_unresolved _ _ _ Hu). discriminate.
Qed.

(** The first state that does not satisfy the constraints is rejected by
    one of them: the valid portion ends at the step before. *)
Lemma loop_first_violation (n : nat) (i k : int) (lastGood : slice Input) :
  0 <= i -> i <= k < i + Z.of_nat n ->
  (forall j, i <= j < k -> satisfies c (state j)) ->
  violates c (state k) ->
  loop n i lastGood
  = if k =? 0 then (false, None)
    else (false, Some (validPortion ci
                         (if k =? i then lastGood
                          else StateInput.Configuration (state (k - 1))))).
Proof.
  revert i lastGood. induction n as [|n IH]; intros i lastGood Hi Hk Hbefore Hv.
  - lia.
  - destruct (Z.eq_dec k i) as [-> | Hne].
    + rewrite (loop_step_violated _ _ _ Hv). now rewrite Z.eqb_refl.
    + rewrite loop_step_satisfied by (apply Hbefore; lia).
      rewrite (IH (i + 1)); [|lia|lia|intros j Hj; apply Hbefore; lia|exact Hv].
      destruct (Z.eqb_spec k 0); [reflexivity|].
      destruct (Z.eqb_spec k i); [contradiction|].
      destruct (Z.eqb_spec k (i + 1)) as [-> | _]; [|reflexivity].
      now replace (i + 1 - 1) with i by lia.
Qed.

(** The first state that does not satisfy the constraints has no pose:
    nothing of the segment is returned. *)
Lemma loop_first_unresolved (n : nat) (i k : int) (lastGood : slice Input) :
  i <= k < i + Z.of_nat n ->
  (forall j, i <= j < k -> satisfies c (state j)) ->
  snd (State_resolveInputsToPositions (state k)) <> None ->
  loop n i lastGood = (false, None).
Proof.
  revert i lastGood. induction n as [|n IH]; intros i lastGood Hk Hbefore Hu.
  - lia.
  - destruct (Z.eq_dec k i) as [-> | Hne].
    + now apply loop_step_unresolved.
    + rewrite loop_step_satisfied by (apply Hbefore; lia).
      apply IH; [lia | intros j Hj; apply Hbefore; lia | exact Hu].
Qed.


End Across.

(** ** [CheckStateConstraintsAcrossSegment] *)

Section Claims.
Variable PathStepCount : option Pose -> option Pose -> float64 -> int.
Variable InterpolateInputs : slice Input -> slice Input -> float64 -> slice Input.

Let Across := CheckStateConstraintsAcrossSegment PathStepCount InterpolateInputs.
Let Validity := CheckSegmentAndStateValidity PathStepCount InterpolateInputs.
Let state := interpolated InterpolateInputs.
Let stepsOf := motionplan.stepsOf PathStepCount.

Lemma interpolated_resolved (ci ci' : SegmentInput.t) (err : option error)
    (steps i : int) :
  Segment_resolveInputsToPositions ci = (ci', err) ->
  state ci' steps i = state ci steps i.
Proof.
  intros Hres. destruct (Segment_resolve_keeps _ _ _ Hres) as (Hs & He & Hf).
  unfold state, interpolated. now rewrite Hs, He, Hf.
Qed.

Lemma validPortion_resolved (ci ci' : SegmentInput.t) (err : option error)
    (lastGood : slice Input) :
  Segment_resolveInputsToPositions ci = (ci', err) ->
  validPortion ci' lastGood = validPortion ci lastGood.
Proof.
  intros Hres. destruct (Segment_resolve_keeps _ _ _ Hres) as (Hs & _ & _).
  unfold validPortion. now rewrite Hs.
Qed.

Lemma Across_resolved (c : ConstraintHandler) (ci ci' : SegmentInput.t)
    (resolution : float64) :
  Segment_resolveInputsToPositions ci = (ci', None) ->
  Across c ci resolution
  = acrossLoop InterpolateInputs c ci' (stepsOf ci' resolution)
      (Z.to_nat (stepsOf ci' resolution + 1)) 0 None.
Proof.
  intros Hres. unfold Across, CheckStateConstraintsAcrossSegment.
  now rewrite Hres.
Qed.

Lemma Across_unresolved (c : ConstraintHandler) (ci ci' : SegmentInput.t)
    (resolution : float64) (err : error) :
  Segment_resolveInputsToPositions ci = (ci', Some err) ->
  Across c ci resolution = (false, None).
Proof.
  intros Hres. unfold Across, CheckStateConstraintsAcrossSegment.
  now rewrite Hres.
Qed.

(** The check returns [true] exactly when the segment resolves and each
    of its [steps + 1] interpolated states satisfies the constraints. *)
Lemma Across_true (c : ConstraintHandler) (ci : SegmentInput.t)
    (resolution : float64) (sub : option SegmentInput.t) :
  Across c ci resolution = (true, sub)
  <-> sub = None /\
      exists ci', Segment_resolveInputsToPositions ci = (ci', None) /\
        forall i, 0 <= i <= stepsOf ci' resolution ->
          satisfies c (state ci (stepsOf ci' resolution) i).
Proof.
  destruct (Segment_resolveInputsToPositions ci) as [ci' [err|]] eqn:Hres.
  - rewrite (Across_unresolved _ _ _ _ _ Hres). split; [discriminate|].
    intros [_ (ci'' & [=] & _)].
  - rewrite (Across_resolved _ _ _ _ Hres). split.
    + intros Hl. apply loop_true_inv in Hl as [-> Hall].
      split; [reflexivity|]. exists ci'. split; [reflexivity|].
      intros i Hi. unfold state.
      rewrite <- (interpolated_resolved _ _ _ _ _ Hres).
      apply Hall. lia.
    + intros [-> (ci'' & [= <-] & Hall)].
      apply loop_all_satisfied. intros j Hj.
      fold (state ci' (stepsOf ci' resolution) j).
      rewrite (interpolated_resolved _ _ _ _ _ Hres). apply Hall. lia.
Qed.

Lemma Across_first_violation (c : ConstraintHandler) (ci ci' : SegmentInput.t)
    (resolution : float64) (k : int) :
  Segment_resolveInputsToPositions ci = (ci', None) ->
  0 <= k <= stepsOf ci' resolution ->
  (forall i, 0 <= i < k -> satisfies c (state ci (stepsOf ci' resolution) i)) ->
  violates c (state ci (stepsOf ci' resolution) k) ->
  Across c ci resolution
  = if k =? 0 then (false, None)
    else (false, Some (validPortion ci
            (StateInput.Configuration (state ci (stepsOf ci' resolution) (k - 1))))).
Proof.
  intros Hres Hk Hbefore Hv.
  rewrite (Across_resolved _ _ _ _ Hres).
  rewrite (loop_first_violation InterpolateInputs c ci' _ _ 0 k None);
    try lia.
  - destruct (Z.eqb_spec k 0); [reflexivity|].
    fold (state ci' (stepsOf ci' resolution) (k - 1)).
    rewrite (interpolated_resolved _ _ _ _ _ Hres).
    now rewrite (validPortion_resolved _ _ _ _ Hres).
  - intros j Hj. fold (state ci' (stepsOf ci' resolution) j).
    rewrite (interpolated_resolved _ _ _ _ _ Hres). now apply Hbefore.
  - fold (state ci' (stepsOf ci' resolution) k).
    now rewrite (interpolated_resolved _ _ _ _ _ Hres).
Qed.

(** The first state that does not satisfy the constraints has no pose
    (the frame rejects its configuration): nothing is returned of the
    segment. *)
Lemma Across_first_unresolved (c : ConstraintHandler) (ci ci' : SegmentInput.t)
    (resolution : float64) (k : int) :
  Segment_resolveInputsToPositions ci = (ci', None) ->
  0 <= k <= stepsOf ci' resolution ->
  (forall i, 0 <= i < k -> satisfies c (state ci (stepsOf ci' resolution) i)) ->
  snd (State_resolveInputsToPositions (state ci (stepsOf ci' resolution) k))
  <> None ->
  Across c ci resolution = (false, None).
Proof.
  intros Hres Hk Hbefore Hu.
  rewrite (Across_resolved _ _ _ _ Hres).
  apply (loop_first_unresolved InterpolateInputs c ci' _ _ 0 k); try lia.
  - intros j Hj. fold (state ci' (stepsOf ci' resolution) j).
    rewrite (interpolated_resolved _ _ _ _ _ Hres). now apply Hbefore.
  - fold (state ci' (stepsOf ci' resolution) k).
    now rewrite (interpolated_resolved _ _ _ _ _ Hres).
Qed.

(** C1: [CheckStateConstraintsAcrossSegment] on a segment whose start
    and end configurations resolve to poses. With [steps] the step count
    of the resolved segment and the interpolated states those of steps
    [0..steps]: when every interpolated state satisfies all state
    constraints the result is [(true, nil)]; when the first state that
    does not is an intermediate one, rejected by a constraint, the result
    is [false] with the sub-segment from the original start configuration
    to the configuration of the step before; when the start state itself
    fails the result is [(false, nil)]. *)
Theorem C1_across_segment (c : ConstraintHandler) (ci ci' : SegmentInput.t)
    (resolution : float64)
    (Hres : Segment_resolveInputsToPositions ci = (ci', None)) :
  let steps := stepsOf ci' resolution in
  ((forall i, 0 <= i <= steps -> satisfies c (state ci steps i)) ->
   Across c ci resolution = (true, None)) /\
  (forall k, 0 < k <= steps ->
     (forall i, 0 <= i < k -> satisfies c (state ci steps i)) ->
     violates c (state ci steps k) ->
     Across c ci resolution
     = (false, Some {| SegmentInput.StartPosition := None;
                       SegmentInput.EndPosition := None;
                       SegmentInput.StartConfiguration :=
                         SegmentInput.StartConfiguration ci;
                       SegmentInput.EndConfiguration :=
                         StateInput.Configuration (state ci steps (k - 1));
                       SegmentInput.Frame := None |})) /\
  (0 <= steps -> ~ satisfies c (state ci steps 0) ->
   Across c ci resolution = (false, None)).
Proof.
  intros steps. split; [|split].
  - intros Hall. apply Across_true. split; [reflexivity|]. eauto.
  - intros k Hk Hbefore Hv.
    rewrite (Across_first_violation c ci ci' resolution k Hres);
      [|lia|exact Hbefore|exact Hv].
    destruct (Z.eqb_spec k 0); [lia | reflexivity].
  - intros Hsteps Hnot.
    destruct (satisfies_or_not c (state ci steps 0)) as [Hs | [Hv | Hu]];
      [contradiction| |].
    + rewrite (Across_first_violation c ci ci' resolution 0 Hres);
        [reflexivity | lia | intros i Hi; lia | exact Hv].
    + rewrite (Across_resolved _ _ _ _ Hres).
      apply (loop_first_unresolved InterpolateInputs c ci' _ _ 0 0); try lia.
      fold (state ci' (stepsOf ci' resolution) 0).
      now rewrite (interpolated_resolved _ _ _ _ _ Hres).
Qed.

(** C2: [CheckSegmentAndStateValidity] returns [(true, nil)] if and only
    if the segment passes every segment constraint, resolves to poses,
    and every interpolated state of its [steps + 1] steps satisfies every
    state constraint. When the first state that does not is an
    intermediate one, rejected by a constraint, the result is [false]
    with the sub-segment up to the step before, provided the segment and
    that sub-segment pass the segment constraints, and [(false, nil)]
    otherwise. *)
Theorem C2_segment_and_state_validity (c : ConstraintHandler)
    (ci : SegmentInput.t) (resolution : float64) :
  (Validity c ci resolution = (true, None)
   <-> passesSegmentConstraints c ci = true /\
       exists ci', Segment_resolveInputsToPositions ci = (ci', None) /\
         forall i, 0 <= i <= stepsOf ci' resolution ->
           satisfies c (state ci (stepsOf ci' resolution) i)) /\
  (fst (Validity c ci resolution) = true -> snd (Validity c ci resolution) = None) /\
  (forall ci' k,
     Segment_resolveInputsToPositions ci = (ci', None) ->
     let steps := stepsOf ci' resolution in
     0 < k <= steps ->
     (forall i, 0 <= i < k -> satisfies c (state ci steps i)) ->
     violates c (state ci steps k) ->
     let subSegment :=
       validPortion ci (StateInput.Configuration (state ci steps (k - 1))) in
     Validity c ci resolution
     = if passesSegmentConstraints c ci && passesSegmentConstraints c subSegment
       then (false, Some subSegment) else (false, None)).
Proof.
  unfold Validity, CheckSegmentAndStateValidity, passesSegmentConstraints.
  fold Across. split; [|split].
  - destruct (fst (CheckSegmentConstraints c ci)); simpl;
      [|split; [discriminate | intros [[=] _]]].
    destruct (Across c ci resolution) as [valid sub] eqn:E.
    destruct valid; simpl.
    + apply Across_true in E as [-> Hall]. split; auto.
    + split.
      * destruct sub as [s|]; [|discriminate].
        destruct (fst (CheckSegmentConstraints c s)); discriminate.
      * intros [_ Hall].
        assert (Across c ci resolution = (true, None)) as E'
          by (apply Across_true; auto).
        rewrite E in E'. discriminate.
  - destruct (fst (CheckSegmentConstraints c ci)); simpl; [|discriminate].
    destruct (Across c ci resolution) as [[|] sub]; simpl; [reflexivity|].
    destruct sub as [s|]; [|discriminate].
    destruct (fst (CheckSegmentConstraints c s)); discriminate.
  - intros ci' k Hres. cbv zeta. intros Hk Hbefore Hv.
    destruct (fst (CheckSegmentConstraints c ci)); simpl; [|reflexivity].
    rewrite (Across_first_violation c ci ci' resolution k Hres);
      [|lia|exact Hbefore|exact Hv].
    destruct (Z.eqb_spec k 0); [lia|]. simpl.
    destruct (fst (CheckSegmentConstraints c _)); reflexivity.
Qed.


End Claims.

(** ** The checks at concrete segments *)

Ltac step_cases i H :=
  let Hc := fresh "Hc" in
  unfold stepsOf, fourSteps in *;
  assert (Hc : i = 0 \/ i = 1 \/ i = 2 \/ i = 3 \/ i = 4) by lia;
  clear H; destruct Hc as [-> | [-> | [-> | [-> | ->]]]].

Lemma resolves_fst (ci : SegmentInput.t) :
  isSome (snd (Segment_resolveInputsToPositions ci)) = false ->
  Segment_resolveInputsToPositions ci
  = (fst (Segment_resolveInputsToPositions ci), None).
Proof.
  destruct (Segment_resolveInputsToPositions ci) as [ci' [e|]];
    [discriminate | reflexivity].
Qed.

Lemma slideSegment_resolves :
  Segment_resolveInputsToPositions slideSegment
  = (fst (Segment_resolveInputsToPositions slideSegment), None).
Proof. apply resolves_fst. vm_compute. reflexivity. Qed.


(** The slide moves from 0 to 4 in four steps, through 1, 2 and 3. A
    bound of 5 on x is met throughout; a bound of 2.5 is first broken at
    step 3, and the valid portion ends at configuration 2; a bound of 0 is
    broken at the start. *)
Lemma C1_across_segment_witness :
  exampleAcross (stateHandler "bound" (xBelow 5)) slideSegment 1 = (true, None) /\
  exampleAcross (stateHandler "bound" (xBelow 2.5)) slideSegment 1
  = (false, Some {| SegmentInput.StartPosition := None;
                    SegmentInput.EndPosition := None;
                    SegmentInput.StartConfiguration := Some [ {| Value := 0 |} ];
                    SegmentInput.EndConfiguration := Some [ {| Value := 2 |} ];
                    SegmentInput.Frame := None |}) /\
  exampleAcross (stateHandler "bound" (xBelow 0)) slideSegment 1 = (false, None).
Proof.
  split; [|split].
  - apply (proj1 (C1_across_segment fourSteps exampleInterpolateInputs _ _ _ 1
                    slideSegment_resolves)).
    intros i Hi. step_cases i Hi; split; vm_compute; reflexivity.
  - apply (proj1 (proj2 (C1_across_segment fourSteps exampleInterpolateInputs
                           (stateHandler "bound" (xBelow 2.5)) _ _ 1
                           slideSegment_resolves)) 3).
    + unfold stepsOf, fourSteps. lia.
    + intros i Hi. unfold stepsOf, fourSteps.
      assert (Hc : i = 0 \/ i = 1 \/ i = 2) by lia.
      destruct Hc as [-> | [-> | ->]]; split; vm_compute; reflexivity.
    + split; vm_compute; reflexivity.
  - apply (proj2 (proj2 (C1_across_segment fourSteps exampleInterpolateInputs
                           _ _ _ 1 slideSegment_resolves))).
    + unfold stepsOf, fourSteps. lia.
    + intros [_ Hpass]. vm_compute in Hpass. discriminate.
Defined.

(** The same segment under [CheckSegmentAndStateValidity], with the
    bound of 2.5 on x: the valid portion, which ends at 2, is returned
    when the segment constraint accepts it and the whole segment, and
    dropped when the segment constraint wants the end at 3 or more. *)
Lemma C2_segment_and_state_validity_witness :
  exampleValidity
    (AddSegmentConstraint (stateHandler "bound" (xBelow 2.5)) "end" (endBelow 5))
    slideSegment 1
  = (false, Some {| SegmentInput.StartPosition := None;
                    SegmentInput.EndPosition := None;
                    SegmentInput.StartConfiguration := Some [ {| Value := 0 |} ];
                    SegmentInput.EndConfiguration := Some [ {| Value := 2 |} ];
                    SegmentInput.Frame := None |}) /\
  exampleValidity
    (AddSegmentConstraint (stateHandler "bound" (xBelow 2.5)) "end" (endAtLeast 3))
    slideSegment 1
  = (false, None) /\
  exampleValidity
    (AddSegmentConstraint (stateHandler "bound" (xBelow 5)) "end" (endAtLeast 3))
    slideSegment 1
  = (true, None).
Proof.
  assert (Hsteps : 0 < 3 <= stepsOf fourSteps
                     (fst (Segment_resolveInputsToPositions slideSegment)) 1)
    by (unfold stepsOf, fourSteps; lia).
  assert (Hbefore : forall i, 0 <= i < 3 ->
            satisfies (stateHandler "bound" (xBelow 2.5))
              (interpolated exampleInterpolateInputs slideSegment 4 i)).
  { intros i Hi. assert (Hc : i = 0 \/ i = 1 \/ i = 2) by lia.
    destruct Hc as [-> | [-> | ->]]; split; vm_compute; reflexivity. }
  assert (Hv : violates (stateHandler "bound" (xBelow 2.5))
                 (interpolated exampleInterpolateInputs slideSegment 4 3))
    by (split; vm_compute; reflexivity).
  unfold exampleValidity. split; [|split].
  - rewrite (proj2 (proj2 (C2_segment_and_state_validity fourSteps
                             exampleInterpolateInputs
                             (AddSegmentConstraint
                                (stateHandler "bound" (xBelow 2.5)) "end"
                                (endBelow 5))
                             slideSegment 1))
               _ 3 slideSegment_resolves Hsteps Hbefore Hv).
    reflexivity.
  - rewrite (proj2 (proj2 (C2_segment_and_state_validity fourSteps
                             exampleInterpolateInputs
                             (AddSegmentConstraint
                                (stateHandler "bound" (xBelow 2.5)) "end"
                                (endAtLeast 3))
                             slideSegment 1))
               _ 3 slideSegment_resolves Hsteps Hbefore Hv).
    reflexivity.
  - apply (proj1 (C2_segment_and_state_validity fourSteps
                    exampleInterpolateInputs _ slideSegment 1)).
    split; [vm_compute; reflexivity|].
    eexists. split; [apply slideSegment_resolves|].
    intros i Hi. step_cases i Hi; split; vm_compute; reflexivity.
Defined.



End ConstraintFacts.

(* ===================================================================== *)
(** * Move requests: the replan limit, stopping, the waypoint index *)
(* ===================================================================== *)

Module RequestFacts.
Import spatialmath referenceframe builtin.

(** ** The replan limit *)

Section Replans.
Variables Extra Request PlannerExecutor : Type.
Variable reqExtra : Request -> Extra.
Variable newValidatedExtra : Extra -> result validatedExtra.
Variable buildRequest : Request -> validatedExtra -> result PlannerExecutor.

Let onGlobe := newMoveOnGlobeRequest Extra Request PlannerExecutor reqExtra
                 newValidatedExtra buildRequest.
Let onMap := newMoveOnMapRequest Extra Request PlannerExecutor reqExtra
               newValidatedExtra buildRequest.

Lemma newMoveRequest_guard (req : Request) (replanCount : int)
    (valExtra : validatedExtra) :
  newValidatedExtra (reqExtra req) = Ok valExtra ->
  newMoveRequest Extra Request PlannerExecutor reqExtra newValidatedExtra
    buildRequest req replanCount
  = if (0 <=? maxReplans valExtra) && (maxReplans valExtra <? replanCount)
    then Err (errExceededReplans (maxReplans valExtra))
    else buildRequest req valExtra.
Proof.
  intros Hextra. unfold newMoveRequest. rewrite Hextra.
  destruct (0 <=? maxReplans valExtra); [|reflexivity].
  destruct (maxReplans valExtra <? replanCount); reflexivity.
Qed.

(** C7: with the extra parameters of the request validated, both
    constructors return the error "exceeded maximum number of replans"
    when the configured maximum is not negative and the replan count
    exceeds it, and go on to build the request when the count does not
    exceed it, so a request is only ever built for a count within a
    non-negative maximum. With a negative maximum, such as the default
    of -1, the check never fires, whatever the count. *)
Theorem C7_replan_limit (req : Request) (replanCount : int)
    (valExtra : validatedExtra)
    (Hextra : newValidatedExtra (reqExtra req) = Ok valExtra) :
  (0 <= maxReplans valExtra ->
   (maxReplans valExtra < replanCount ->
    onGlobe req replanCount = Err (errExceededReplans (maxReplans valExtra)) /\
    onMap req replanCount = Err (errExceededReplans (maxReplans valExtra))) /\
   (replanCount <= maxReplans valExtra ->
    onGlobe req replanCount = buildRequest req valExtra /\
    onMap req replanCount = buildRequest req valExtra) /\
   (isErr (onGlobe req replanCount) = false -> replanCount <= maxReplans valExtra) /\
   (isErr (onMap req replanCount) = false -> replanCount <= maxReplans valExtra)) /\
  (maxReplans valExtra < 0 ->
   onGlobe req replanCount = buildRequest req valExtra /\
   onMap req replanCount = buildRequest req valExtra) /\
  defaultMaxReplans = -1 /\
  (forall m, Error (errExceededReplans m)
             = "exceeded maximum number of replans: " +:+ fmt_d m).
Proof.
  unfold onGlobe, onMap, newMoveOnGlobeRequest, newMoveOnMapRequest.
  rewrite (newMoveRequest_guard req replanCount valExtra Hextra).
  split; [|split; [|split; [reflexivity | reflexivity]]].
  - intros Hmax.
    destruct (Z.leb_spec 0 (maxReplans valExtra)); [|lia]. simpl.
    destruct (Z.ltb_spec (maxReplans valExtra) replanCount).
    + repeat split; try lia; try discriminate.
    + repeat split; intros; lia.
  - intros Hneg.
    destruct (Z.leb_spec 0 (maxReplans valExtra)); [lia|]. simpl. auto.
Qed.

End Replans.

(** The theorem at a request whose extra parameters give the maximum:
    a maximum of 2 stops the third replan, the default maximum stops
    none. *)
Lemma C7_replan_limit_witness :
  newMoveOnGlobeRequest int int unit (fun req => req)
    (fun m => Ok {| maxReplans := m; replanCostFactor := 1; motionProfile := "" |})
    (fun _ _ => Ok tt) 2 3
  = Err (errorString "exceeded maximum number of replans: 2") /\
  newMoveOnMapRequest int int unit (fun req => req)
    (fun m => Ok {| maxReplans := m; replanCostFactor := 1; motionProfile := "" |})
    (fun _ _ => Ok tt) defaultMaxReplans 1000
  = Ok tt.
Proof.
  split.
  - apply (C7_replan_limit int int unit (fun req => req)
             (fun m => Ok {| maxReplans := m; replanCostFactor := 1;
                             motionProfile := "" |})
             (fun _ _ => Ok tt) 2 3 _ eq_refl); simpl; lia.
  - apply (C7_replan_limit int int unit (fun req => req)
             (fun m => Ok {| maxReplans := m; replanCostFactor := 1;
                             motionProfile := "" |})
             (fun _ _ => Ok tt) defaultMaxReplans 1000 _ eq_refl).
    reflexivity.
Defined.

(** ** The actuation loop *)

Section Executing.
Variable World : Type.
Variable ctxErr : Context -> World -> option error.
Variable GoToInputs : Context -> list Input -> World -> option error * World.
Variable Stop : Context -> World -> option error * World.
Variable ErrorState : World -> int -> result Pose.
Variable planDeviationMM : float64.
Variable deviationReason : float64 -> float64 -> Vector -> string.
Variable ctx : Context.

Let step := executeStep World ctxErr GoToInputs Stop ErrorState planDeviationMM
              deviationReason ctx.
Let run := execute World ctxErr GoToInputs Stop ErrorState planDeviationMM
             deviationReason ctx.

Ltac step_cases frameInputs st :=
  unfold step, executeStep, stop, deviatedFromPlan;
  destruct st as [w idx t tr]; simpl;
  destruct t as [|wps i|resp err|]; simpl;
  [ destruct frameInputs as [wps|e0]; simpl
  | destruct (Z.ltb_spec i (Z.of_nat (length wps)));
    [ destruct (ctxErr ctx w) as [cancelled|];
      [ destruct (Stop (WithTimeout Background baseStopTimeout) w)
          as [[stopErr|] w']
      | destruct (at_ wps i) as [wp|] eqn:Hat;
        [ destruct (GoToInputs ctx wp w) as [[err|] w1];
          [ destruct (Stop (WithTimeout Background baseStopTimeout) w1)
              as [[stopErr|] w2]
          | destruct (Z.ltb_spec i (Z.of_nat (length wps) - 1)) ]
        | ] ]
    | destruct (ErrorState w (Z.of_nat (length wps) - 1)) as [pose|e1];
      [ destruct (planDeviationMM <? Norm (Point pose))%float | ] ]
  | | ]; simpl.

Lemma terminal_dec (t : thread) : terminal t \/ ~ terminal t.
Proof. destruct t; simpl; tauto. Qed.

Lemma step_terminal (frameInputs : result (list (list Input)))
    (st : execution World) :
  terminal (actuation World st) -> step frameInputs st = st.
Proof.
  destruct st as [w idx t tr]. unfold step, executeStep. simpl.
  destruct t; simpl; intros Ht; try contradiction; reflexivity.
Qed.

(** *** Every run returns *)

Lemma at_negative (wps : list (list Input)) (i : int) :
  i < 0 -> at_ wps i = None.
Proof. intros Hi. unfold at_. destruct (Z.ltb_spec i 0); [reflexivity | lia]. Qed.

Lemma stepsLeft_decreases (frameInputs : result (list (list Input)))
    (st : execution World) :
  ~ terminal (actuation World st) ->
  (stepsLeft World frameInputs (step frameInputs st)
   < stepsLeft World frameInputs st)%nat \/
  terminal (actuation World (step frameInputs st)).
Proof.
  intros Hnt. revert Hnt. step_cases frameInputs st; intros Hnt;
    try (right; exact I); try contradiction; unfold stepsLeft; simpl.
  - left. destruct (Z.ltb_spec idx 0); lia.
  - left. destruct (Z.ltb_spec i 0); [rewrite at_negative in Hat by lia; discriminate|].
    destruct (Z.ltb_spec (i + 1) 0); lia.
  - left. destruct (Z.ltb_spec i 0); [rewrite at_negative in Hat by lia; discriminate|].
    destruct (Z.ltb_spec (i + 1) 0); lia.
Qed.

Lemma iter_terminal (frameInputs : result (list (list Input))) (n : nat)
    (st : execution World) :
  terminal (actuation World st) -> Nat.iter n (step frameInputs) st = st.
Proof.
  intros Ht. induction n as [|n IH]; [reflexivity|].
  simpl. rewrite IH. now apply step_terminal.
Qed.

Lemma iter_terminates (frameInputs : result (list (list Input))) (n : nat)
    (st : execution World) :
  (stepsLeft World frameInputs st <= n)%nat \/ terminal (actuation World st) ->
  terminal (actuation World (Nat.iter n (step frameInputs) st)).
Proof.
  revert st. induction n as [|n IH]; intros st Hn.
  - destruct Hn as [Hn | Ht]; [|exact Ht]. simpl.
    destruct st as [w idx t tr]. unfold stepsLeft in Hn. simpl in *.
    destruct t as [|wps i| |]; simpl; try exact I.
    + unfold executeFuel in Hn. destruct frameInputs; lia.
    + revert Hn. destruct (i <? 0); lia.
  - rewrite Nat.iter_succ_r.
    destruct (terminal_dec (actuation World st)) as [Ht | Hnt].
    + rewrite (step_terminal _ _ Ht). apply IH. now right.
    + destruct Hn as [Hn | Ht]; [|contradiction]. apply IH.
      destruct (stepsLeft_decreases frameInputs st Hnt) as [Hlt | Ht];
        [left; lia | now right].
Qed.

(** [execute] returns, or panics on an index out of range. *)
Lemma execute_terminates (frameInputs : result (list (list Input)))
    (w : World) (index : int) :
  terminal (actuation World (run frameInputs w index)).
Proof.
  unfold run, execute. apply iter_terminates. left.
  unfold stepsLeft. simpl. lia.
Qed.

(** *** Stopping on an error or a cancellation *)

(** The pass of the loop that finds the context done: the base is
    stopped on [stopCtx], and the two errors are wrapped into one. *)
Lemma step_cancelled (frameInputs : result (list (list Input)))
    (st : execution World) (wps : list (list Input)) (i : int)
    (cancelled : error) :
  actuation World st = Looping wps i ->
  i < Z.of_nat (length wps) ->
  ctxErr ctx (world World st) = Some cancelled ->
  step frameInputs st
  = {| world := snd (Stop stopCtx (world World st));
       waypointIndex := waypointIndex World st;
       actuation :=
         Returned noResponse
           match fst (Stop stopCtx (world World st)) with
           | Some stopErr => Wrap (Some cancelled) (Error stopErr)
           | None => None
           end;
       trace := trace World st
                ++ [EvCancelled cancelled;
                    EvStop stopCtx (fst (Stop stopCtx (world World st)))] |}.
Proof.
  intros Ht Hi Hc. destruct st as [w idx t tr]. simpl in *. subst t.
  unfold step, executeStep, stop, stopCtx. simpl.
  destruct (Z.ltb_spec i (Z.of_nat (length wps))); [|lia].
  rewrite Hc.
  destruct (Stop (WithTimeout Background baseStopTimeout) w) as [[stopErr|] w'];
    reflexivity.
Qed.

(** The pass of the loop whose command fails: the base is stopped on
    [stopCtx] in the world the command left. *)
Lemma step_failed (frameInputs : result (list (list Input)))
    (st : execution World) (wps : list (list Input)) (i : int)
    (waypoint : list Input) (err : error) (w1 : World) :
  actuation World st = Looping wps i ->
  i < Z.of_nat (length wps) ->
  ctxErr ctx (world World st) = None ->
  at_ wps i = Some waypoint ->
  GoToInputs ctx waypoint (world World st) = (Some err, w1) ->
  step frameInputs st
  = {| world := snd (Stop stopCtx w1);
       waypointIndex := waypointIndex World st;
       actuation :=
         Returned noResponse
           match fst (Stop stopCtx w1) with
           | Some stopErr => Wrap (Some err) (Error stopErr)
           | None => Some err
           end;
       trace := trace World st
                ++ [EvGoToInputs i waypoint (Some err);
                    EvStop stopCtx (fst (Stop stopCtx w1))] |}.
Proof.
  intros Ht Hi Hc Hat Hgo. destruct st as [w idx t tr]. simpl in *. subst t.
  unfold step, executeStep, stop, stopCtx. simpl.
  destruct (Z.ltb_spec i (Z.of_nat (length wps))); [|lia].
  rewrite Hc, Hat, Hgo.
  destruct (Stop (WithTimeout Background baseStopTimeout) w1) as [[stopErr|] w2];
    reflexivity.
Qed.

Lemma runShape_progress (st : execution World) (evs : list event)
    (w : World) (idx : int) (t : thread) :
  runShape World st -> ~ terminal (actuation World st) ->
  Forall isProgress evs -> t <> Panicked ->
  runShape World {| world := w; waypointIndex := idx; actuation := t;
                    trace := trace World st ++ evs |}.
Proof.
  intros (progress & e & Htr & Hprog & Hends) Hnt Hevs Ht.
  exists (progress ++ evs), Completed. simpl.
  assert (e = Completed) as ->.
  { destruct e; simpl in Hends; try reflexivity; rewrite Hends in Hnt;
      exfalso; apply Hnt; exact I. }
  simpl in Htr. rewrite app_nil_r in Htr. rewrite Htr, app_nil_r.
  split; [reflexivity|]. split; [now apply Forall_app | exact Ht].
Qed.

Lemma runShape_ending (st : execution World) (e : ending)
    (w : World) (idx : int) (t : thread) :
  runShape World st -> ~ terminal (actuation World st) ->
  endsAs t e ->
  runShape World {| world := w; waypointIndex := idx; actuation := t;
                    trace := trace World st ++ endingEvents e |}.
Proof.
  intros (progress & e0 & Htr & Hprog & Hends) Hnt Ht.
  exists progress, e. simpl.
  assert (e0 = Completed) as ->.
  { destruct e0; simpl in Hends; try reflexivity; rewrite Hends in Hnt;
      exfalso; apply Hnt; exact I. }
  simpl in Htr. rewrite app_nil_r in Htr. rewrite Htr.
  split; [reflexivity|]. split; assumption.
Qed.

Lemma runShape_same_trace (st : execution World) (w : World) (idx : int)
    (t : thread) :
  runShape World st -> ~ terminal (actuation World st) ->
  t <> Panicked ->
  runShape World {| world := w; waypointIndex := idx; actuation := t;
                    trace := trace World st |}.
Proof.
  intros Hshape Hnt Ht.
  pose proof (runShape_progress st [] w idx t Hshape Hnt
                ltac:(constructor) Ht) as H.
  now rewrite app_nil_r in H.
Qed.

Lemma runShape_step (frameInputs : result (list (list Input)))
    (st : execution World) :
  runShape World st -> runShape World (step frameInputs st).
Proof.
  intros Hshape.
  destruct (terminal_dec (actuation World st)) as [Ht | Hnt];
    [now rewrite step_terminal|].
  revert Hshape Hnt. step_cases frameInputs st; intros Hshape Hnt;
    try contradiction.
  - apply (runShape_same_trace _ _ _ _ Hshape Hnt). discriminate.
  - apply (runShape_same_trace _ _ _ _ Hshape Hnt). discriminate.
  - apply (runShape_ending _ (Cancelled cancelled (Some stopErr)) _ _ _ Hshape Hnt).
    reflexivity.
  - apply (runShape_ending _ (Cancelled cancelled None) _ _ _ Hshape Hnt).
    reflexivity.
  - apply (runShape_ending _ (Failed i wp err (Some stopErr)) _ _ _ Hshape Hnt).
    reflexivity.
  - apply (runShape_ending _ (Failed i wp err None) _ _ _ Hshape Hnt).
    reflexivity.
  - apply (runShape_progress _ _ _ _ _ Hshape Hnt);
      [repeat constructor | discriminate].
  - apply (runShape_progress _ _ _ _ _ Hshape Hnt);
      [repeat constructor | discriminate].
  - pose proof (runShape_ending _ OutOfRange w idx Panicked Hshape Hnt eq_refl)
      as Hout.
    simpl in Hout. now rewrite app_nil_r in Hout.
  - apply (runShape_same_trace _ _ _ _ Hshape Hnt). discriminate.
  - apply (runShape_same_trace _ _ _ _ Hshape Hnt). discriminate.
  - apply (runShape_same_trace _ _ _ _ Hshape Hnt). discriminate.
Qed.

Lemma runShape_iter (frameInputs : result (list (list Input))) (n : nat)
    (st : execution World) :
  runShape World st -> runShape World (Nat.iter n (step frameInputs) st).
Proof.
  intros Hshape. induction n as [|n IH]; [exact Hshape|].
  simpl. now apply runShape_step.
Qed.

Lemma Wrap_keeps_both (cause stopErr : error) :
  exists combined,
    Wrap (Some cause) (Error stopErr) = Some combined /\
    Error combined = Error stopErr +:+ ": " +:+ Error cause /\
    contains (Error combined) (Error cause) /\
    contains (Error combined) (Error stopErr).
Proof.
  exists (withMessage cause (Error stopErr)). simpl.
  split; [reflexivity|]. split; [reflexivity|]. split.
  - rewrite <- append_assoc. apply contains_suffix.
  - apply contains_prefix.
Qed.

(** [execute] returns (or panics on an index out of range), and the
    events of its run are commands that succeeded and advances of the
    index, followed by one of the endings. *)
Lemma execute_run_shape (frameInputs : result (list (list Input)))
    (w : World) (index : int) :
  terminal (actuation World (run frameInputs w index)) /\
  runShape World (run frameInputs w index).
Proof.
  split; [apply execute_terminates|].
  unfold run, execute. apply runShape_iter.
  exists [], Completed. simpl. split; [reflexivity|].
  split; [constructor | discriminate].
Qed.

(** *** The waypoint index *)

Lemma wrap32_small (z : int) : - 2 ^ 31 <= z < 2 ^ 31 -> wrap32 z = z.
Proof.
  intros Hz. unfold wrap32.
  rewrite Z.mod_small by lia. lia.
Qed.

Lemma indexInvariant_step (frameInputs : result (list (list Input)))
    (st : execution World) :
  finalIndex frameInputs < 2 ^ 31 ->
  indexInvariant World frameInputs st ->
  indexInvariant World frameInputs (step frameInputs st) /\
  (waypointIndex World (step frameInputs st) = waypointIndex World st \/
   (advanced World st (step frameInputs st) /\
    waypointIndex World (step frameInputs st) <= finalIndex frameInputs)).
Proof.
  intros Hlen. unfold indexInvariant, advanced.
  step_cases frameInputs st; intros [Hidx Hloop];
    try (split; [split; [exact Hidx | exact I] | left; reflexivity]).
  - split; [|left; reflexivity]. split; [exact Hidx|].
    split; [reflexivity|]. split; [lia|]. simpl in *.
    destruct (Z.leb_spec idx (Z.of_nat (length wps) - 1)); lia.
  - destruct Hloop as (-> & Hi & Heq). simpl in *.
    destruct (Z.leb_spec i (Z.of_nat (length wps) - 1)); [|lia]. subst idx.
    rewrite wrap32_small by lia.
    split; [|right]. 
    + split; [lia|]. split; [reflexivity|]. split; [lia|].
      destruct (Z.leb_spec (i + 1) (Z.of_nat (length wps) - 1)); lia.
    + split; [|lia]. split; [reflexivity|]. eauto.
  - destruct Hloop as (-> & Hi & Heq). simpl in *.
    split; [|left; reflexivity]. split; [exact Hidx|].
    split; [reflexivity|]. split; [lia|].
    destruct (Z.leb_spec i (Z.of_nat (length wps) - 1)); [|lia].
    destruct (Z.leb_spec (i + 1) (Z.of_nat (length wps) - 1)); lia.
Qed.

Lemma indexInvariant_reachable (frameInputs : result (list (list Input)))
    (w0 : World) (st : execution World) :
  finalIndex frameInputs < 2 ^ 31 ->
  reachable World ctxErr GoToInputs Stop ErrorState planDeviationMM
    deviationReason ctx frameInputs w0 st ->
  indexInvariant World frameInputs st.
Proof.
  intros Hlen Hreach. induction Hreach as [|st st' Hreach IH Hstep].
  - unfold indexInvariant, newExecution, initialWaypointIndex. simpl. lia.
  - destruct Hstep as [st | p st st' Hpoll].
    + now apply indexInvariant_step.
    + destruct Hpoll as [st w read Hread]. exact IH.
Qed.

Lemma reachable_iter (frameInputs : result (list (list Input))) (w0 : World)
    (n : nat) :
  reachable World ctxErr GoToInputs Stop ErrorState planDeviationMM
    deviationReason ctx frameInputs w0
    (Nat.iter n (step frameInputs) (newExecution World w0)).
Proof.
  induction n as [|n IH]; simpl.
  - constructor.
  - eapply reachable_step; [exact IH | constructor].
Qed.

(** C10: while a committed plan is executed, in any interleaving of the
    actuation loop and the two pollers, the waypoint index starts at 1; a
    step of a poller leaves it as it is; a step of the actuation loop
    leaves it as it is or adds exactly 1 to it, the latter only in the
    step in which the command for the current waypoint returned without
    error, and never beyond the index of the final waypoint; so it never
    decreases and stays between 1 and the index of the final waypoint
    (or at 1 for a plan of fewer than two waypoints). The plan has at
    most 2^31 waypoints, so that the 32-bit index does not wrap. *)
Theorem C10_waypoint_index (frameInputs : result (list (list Input)))
    (w0 : World) (Hlen : finalIndex frameInputs < 2 ^ 31) :
  waypointIndex World (newExecution World w0) = 1 /\
  (forall st,
     reachable World ctxErr GoToInputs Stop ErrorState planDeviationMM
       deviationReason ctx frameInputs w0 st ->
     1 <= waypointIndex World st <= Z.max 1 (finalIndex frameInputs)) /\
  (forall st st' p,
     pollStep World p st st' ->
     waypointIndex World st' = waypointIndex World st) /\
  (forall st st',
     reachable World ctxErr GoToInputs Stop ErrorState planDeviationMM
       deviationReason ctx frameInputs w0 st ->
     systemStep World ctxErr GoToInputs Stop ErrorState planDeviationMM
       deviationReason ctx frameInputs st st' ->
     waypointIndex World st <= waypointIndex World st' /\
     (waypointIndex World st' = waypointIndex World st \/
      (st' = step frameInputs st /\ advanced World st st' /\
       waypointIndex World st' <= finalIndex frameInputs))).
Proof.
  split; [reflexivity|]. split; [|split].
  - intros st Hreach.
    now destruct (indexInvariant_reachable frameInputs w0 st Hlen Hreach).
  - intros st st' p [st0 w read Hread]. reflexivity.
  - intros st st' Hreach Hstep.
    pose proof (indexInvariant_reachable frameInputs w0 st Hlen Hreach) as Hinv.
    destruct Hstep as [st | p st st' Hpoll].
    + destruct (indexInvariant_step frameInputs st Hlen Hinv) as [_ [Heq | [Hadv Hle]]].
      * fold (step frameInputs st). rewrite Heq. split; [lia | now left].
      * fold (step frameInputs st). split; [destruct Hadv; lia|].
        right. auto.
    + destruct Hpoll as [st w read Hread]. simpl. split; [lia | now left].
Qed.

End Executing.

(** The theorem at the plan of four waypoints and a base whose second
    command fails: after three steps of [execute] the index is within
    its bounds. *)
Lemma C10_waypoint_index_witness :
  1 <= waypointIndex nat
         (Nat.iter 3 (exampleStep {| failAt := 2; cancelAt := 100; stopFails := true |})
            (newExecution nat 0%nat)) <= 3.
Proof.
  pose proof (C10_waypoint_index nat
                (exampleCtxErr {| failAt := 2; cancelAt := 100; stopFails := true |})
                (exampleGoToInputs {| failAt := 2; cancelAt := 100; stopFails := true |})
                (exampleStop {| failAt := 2; cancelAt := 100; stopFails := true |})
                exampleErrorState 10 (fun _ _ _ => ""%string)
                (WithCancel Background) examplePlan 0%nat
                ltac:(simpl; lia)) as (_ & Hbounds & _).
  apply Hbounds. apply reachable_iter.
Defined.

(** A run in which the second command fails and the stop fails too, and
    a run cancelled after one command whose stop succeeds. *)
Example execute_failure_and_failed_stop :
  actuation nat (exampleExecute {| failAt := 2; cancelAt := 100; stopFails := true |})
  = Returned noResponse
      (Some (withMessage (errorString "motor stalled") "stop timed out")) /\
  trace nat (exampleExecute {| failAt := 2; cancelAt := 100; stopFails := true |})
  = [EvGoToInputs 1 (FloatsToInputs [1%float]) None; EvAdd 2;
     EvGoToInputs 2 (FloatsToInputs [2%float]) (Some (errorString "motor stalled"));
     EvStop (WithTimeout Background 5000000000) (Some (errorString "stop timed out"))].
Proof. split; vm_compute; reflexivity. Qed.

Example execute_cancelled :
  actuation nat (exampleExecute {| failAt := 0; cancelAt := 1; stopFails := false |})
  = Returned noResponse None /\
  trace nat (exampleExecute {| failAt := 0; cancelAt := 1; stopFails := false |})
  = [EvGoToInputs 1 (FloatsToInputs [1%float]) None; EvAdd 2;
     EvCancelled (errorString "context canceled");
     EvStop (WithTimeout Background 5000000000) None].
Proof. split; vm_compute; reflexivity. Qed.

End RequestFacts.

(* ===================================================================== *)
(** * The constraint handler: poses, registries, returned sub-segments *)
(* ===================================================================== *)

Module HandlerFacts.
Import spatialmath referenceframe motionplan ConstraintFacts.

(** ** Resolving poses *)

Lemma resolvePosition_Ok (position : option Pose)
    (frame : option referenceframe.Frame) (configuration : slice Input)
    (r : option Pose) :
  resolvePosition position frame configuration = Ok r ->
  posable position frame configuration /\
  exists pose, r = Some pose /\ (position = None \/ position = Some pose).
Proof.
  unfold resolvePosition, posable.
  destruct position as [p|].
  - intros [= <-]. split; [left|]; eauto.
  - destruct frame as [f|]; [|discriminate].
    destruct configuration as [inputs|]; [|discriminate].
    destruct (Transform f inputs) as [pos|e] eqn:E; [|discriminate].
    intros [= <-]. split; [right; eauto 10 | eauto].
Qed.

Lemma resolvePosition_posable (position : option Pose)
    (frame : option referenceframe.Frame) (configuration : slice Input) :
  posable position frame configuration ->
  isErr (resolvePosition position frame configuration) = false.
Proof.
  unfold resolvePosition.
  intros [[p ->] | (f & inputs & pose & -> & -> & E)]; [reflexivity|].
  destruct position; [reflexivity|]. now rewrite E.
Qed.

(** X1: [SegmentInput.resolveInputsToPositions] is idempotent. After a
    call that returns no error both poses of the segment are set, and a
    second call returns no error and leaves the segment as the first
    call left it. *)
Theorem Segment_resolve_idempotent (ci ci' : SegmentInput.t) :
  Segment_resolveInputsToPositions ci = (ci', None) ->
  is_Some (SegmentInput.StartPosition ci') /\
  is_Some (SegmentInput.EndPosition ci') /\
  Segment_resolveInputsToPositions ci' = (ci', None).
Proof.
  unfold Segment_resolveInputsToPositions.
  destruct (resolvePosition (SegmentInput.StartPosition ci) _ _) as [a|] eqn:Ea;
    [|discriminate]. simpl.
  destruct (resolvePosition (SegmentInput.EndPosition ci) _ _) as [b|] eqn:Eb;
    [|discriminate].
  apply resolvePosition_Ok in Ea as [_ (pa & -> & _)].
  apply resolvePosition_Ok in Eb as [_ (pb & -> & _)].
  intros [= <-]. simpl. eauto.
Qed.

Lemma Segment_resolve_idempotent_witness :
  is_Some (SegmentInput.StartPosition
             (fst (Segment_resolveInputsToPositions slideSegment))) /\
  is_Some (SegmentInput.EndPosition
             (fst (Segment_resolveInputsToPositions slideSegment))) /\
  Segment_resolveInputsToPositions
    (fst (Segment_resolveInputsToPositions slideSegment))
  = (fst (Segment_resolveInputsToPositions slideSegment), None).
Proof. exact (Segment_resolve_idempotent _ _ slideSegment_resolves). Defined.

(** X2: [SegmentInput.resolveInputsToPositions] returns no error exactly
    when each end of the segment has a pose already or has a frame and
    a configuration that the frame transforms without error. A segment
    that carries both poses needs neither frame nor configurations. *)
Theorem Segment_resolve_succeeds_iff (ci : SegmentInput.t) :
  snd (Segment_resolveInputsToPositions ci) = None
  <-> posable (SegmentInput.StartPosition ci) (SegmentInput.Frame ci)
        (SegmentInput.StartConfiguration ci) /\
      posable (SegmentInput.EndPosition ci) (SegmentInput.Frame ci)
        (SegmentInput.EndConfiguration ci).
Proof.
  unfold Segment_resolveInputsToPositions. split.
  - destruct (resolvePosition (SegmentInput.StartPosition ci) _ _) as [a|] eqn:Ea;
      [|discriminate]. simpl.
    destruct (resolvePosition (SegmentInput.EndPosition ci) _ _) as [b|] eqn:Eb;
      [|discriminate].
    intros _. split.
    + exact (proj1 (resolvePosition_Ok _ _ _ _ Ea)).
    + exact (proj1 (resolvePosition_Ok _ _ _ _ Eb)).
  - intros [Ha Hb].
    apply resolvePosition_posable in Ha, Hb.
    destruct (resolvePosition (SegmentInput.StartPosition ci) _ _);
      [|discriminate]. simpl.
    destruct (resolvePosition (SegmentInput.EndPosition ci) _ _);
      [reflexivity | discriminate].
Qed.

(** X3: an error at the end pose leaves the segment half resolved. When
    the start pose is missing and the frame gives it, but the end has
    no pose and cannot get one, the call returns an error and the
    segment keeps the start pose it has just been given; the end pose
    stays empty. *)
Theorem Segment_resolve_partial (ci : SegmentInput.t)
    (frame : referenceframe.Frame) (inputs : list Input) (pose : Pose) :
  SegmentInput.StartPosition ci = None ->
  SegmentInput.Frame ci = Some frame ->
  SegmentInput.StartConfiguration ci = Some inputs ->
  Transform frame inputs = Ok pose ->
  ~ posable (SegmentInput.EndPosition ci) (SegmentInput.Frame ci)
      (SegmentInput.EndConfiguration ci) ->
  exists err,
    Segment_resolveInputsToPositions ci
    = ({| SegmentInput.StartPosition := Some pose;
          SegmentInput.EndPosition := None;
          SegmentInput.StartConfiguration := SegmentInput.StartConfiguration ci;
          SegmentInput.EndConfiguration := SegmentInput.EndConfiguration ci;
          SegmentInput.Frame := SegmentInput.Frame ci |}, Some err).
Proof.
  intros Hs Hf Hc Ht Hend.
  unfold Segment_resolveInputsToPositions.
  rewrite Hs, Hf, Hc. simpl. rewrite Ht. simpl.
  destruct (resolvePosition (SegmentInput.EndPosition ci) (Some frame)
              (SegmentInput.EndConfiguration ci)) as [b|e] eqn:Eb.
  - exfalso. apply Hend. rewrite Hf.
    exact (proj1 (resolvePosition_Ok _ _ _ _ Eb)).
  - exists e. do 2 f_equal.
    destruct (SegmentInput.EndPosition ci) as [p|] eqn:Ep; [|reflexivity].
    exfalso. apply Hend. left. eauto.
Qed.

Lemma not_posable_nil (frame : option referenceframe.Frame) :
  ~ posable None frame None.
Proof.
  intros [[p [=]] | (f & inputs & pose & _ & [=] & _)].
Qed.

Lemma Segment_resolve_partial_witness :
  exists err,
    Segment_resolveInputsToPositions
      (segmentBetween (Some slideFrame) (Some [ {| Value := 1 |} ]) None)
    = ({| SegmentInput.StartPosition :=
            Some (NewPoseFromPoint {| X := 1; Y := 0; Z := 0 |});
          SegmentInput.EndPosition := None;
          SegmentInput.StartConfiguration := Some [ {| Value := 1 |} ];
          SegmentInput.EndConfiguration := None;
          SegmentInput.Frame := Some slideFrame |}, Some err).
Proof.
  apply (Segment_resolve_partial
           (segmentBetween (Some slideFrame) (Some [ {| Value := 1 |} ]) None)
           slideFrame [ {| Value := 1 |} ]
           (NewPoseFromPoint {| X := 1; Y := 0; Z := 0 |}));
    try reflexivity.
  apply not_posable_nil.
Defined.

(** ** The registries *)

Lemma checkAll_false {A : Type} (constraints : list (string * (A -> bool)))
    (cInput : A) (name_ : string) :
  checkAll constraints cInput = (false, name_) ->
  exists cFunc, (name_, cFunc) ∈ constraints /\ cFunc cInput = false.
Proof.
  induction constraints as [|[n f] rest IH]; simpl; [discriminate|].
  destruct (f cInput) eqn:Ef; simpl.
  - intros Hrest. destruct (IH Hrest) as (g & Hin & Hg).
    exists g. split; [now right | exact Hg].
  - intros [= <-]. exists f. split; [left | exact Ef].
Qed.

Lemma checkAll_true_name {A : Type} (constraints : list (string * (A -> bool)))
    (cInput : A) (name_ : string) :
  checkAll constraints cInput = (true, name_) -> name_ = ""%string.
Proof.
  induction constraints as [|[n f] rest IH]; simpl; [now intros [= <-]|].
  destruct (f cInput); simpl; [exact IH | discriminate].
Qed.

(** X4: the name [CheckStateConstraints] and [CheckSegmentConstraints]
    return with [false] is the name of a registered constraint that
    rejects the input, whatever the order of the range over the map;
    with [true] the name is empty and every registered constraint
    accepts the input. *)
Theorem Check_names_a_failing_constraint (c : ConstraintHandler)
    (state : StateInput.t) (segment : SegmentInput.t) :
  match CheckStateConstraints c state with
  | (true, name_) =>
      name_ = ""%string /\
      forall n cFunc, stateConstraints c !! n = Some cFunc -> cFunc state = true
  | (false, name_) =>
      exists cFunc, stateConstraints c !! name_ = Some cFunc /\ cFunc state = false
  end /\
  match CheckSegmentConstraints c segment with
  | (true, name_) =>
      name_ = ""%string /\
      forall n cFunc,
        segmentConstraints c !! n = Some cFunc -> cFunc segment = true
  | (false, name_) =>
      exists cFunc,
        segmentConstraints c !! name_ = Some cFunc /\ cFunc segment = false
  end.
Proof.
  split.
  - destruct (CheckStateConstraints c state) as [[|] n] eqn:E.
    + split; [exact (checkAll_true_name _ _ _ E)|].
      apply CheckStateConstraints_true. now rewrite E.
    + destruct (checkAll_false _ _ _ E) as (f & Hin & Hf).
      exists f. split; [now apply elem_of_map_to_list | exact Hf].
  - destruct (CheckSegmentConstraints c segment) as [[|] n] eqn:E.
    + split; [exact (checkAll_true_name _ _ _ E)|].
      apply CheckSegmentConstraints_true. now rewrite E.
    + destruct (checkAll_false _ _ _ E) as (f & Hin & Hf).
      exists f. split; [now apply elem_of_map_to_list | exact Hf].
Qed.

Lemma bool_eq_iff (a b : bool) : (a = true <-> b = true) -> a = b.
Proof. destruct a, b; intuition congruence. Qed.

(** X5: adding a constraint under a name replaces the constraint of
    that name and touches no other. The verdict on a state after
    [AddStateConstraint(name, cons)] is the verdict of [cons] together
    with the verdict of the handler from which [name] was removed; the
    same holds of segments; and removing the name again gives the
    handler from which it was removed before. *)
Theorem Add_overwrites_one_name (c : ConstraintHandler) (name_ : string)
    (cons : StateConstraint) (scons : SegmentConstraint)
    (state : StateInput.t) (segment : SegmentInput.t) :
  fst (CheckStateConstraints (AddStateConstraint c name_ cons) state)
  = cons state && fst (CheckStateConstraints (RemoveStateConstraint c name_) state) /\
  fst (CheckSegmentConstraints (AddSegmentConstraint c name_ scons) segment)
  = scons segment
    && fst (CheckSegmentConstraints (RemoveSegmentConstraint c name_) segment) /\
  RemoveStateConstraint (AddStateConstraint c name_ cons) name_
  = RemoveStateConstraint c name_ /\
  RemoveSegmentConstraint (AddSegmentConstraint c name_ scons) name_
  = RemoveSegmentConstraint c name_.
Proof.
  split; [|split; [|split]].
  - apply bool_eq_iff. rewrite andb_true_iff, !CheckStateConstraints_true.
    simpl. split.
    + intros Hall. split.
      * apply (Hall name_). apply lookup_insert_eq.
      * intros n f Hl. apply lookup_delete_Some in Hl as [Hne Hl].
        apply (Hall n). now rewrite lookup_insert_ne.
    + intros [Hc Hall] n f Hl.
      apply lookup_insert_Some in Hl as [[<- <-] | [Hne Hl]]; [exact Hc|].
      apply (Hall n). apply lookup_delete_Some. auto.
  - apply bool_eq_iff. rewrite andb_true_iff, !CheckSegmentConstraints_true.
    simpl. split.
    + intros Hall. split.
      * apply (Hall name_). apply lookup_insert_eq.
      * intros n f Hl. apply lookup_delete_Some in Hl as [Hne Hl].
        apply (Hall n). now rewrite lookup_insert_ne.
    + intros [Hc Hall] n f Hl.
      apply lookup_insert_Some in Hl as [[<- <-] | [Hne Hl]]; [exact Hc|].
      apply (Hall n). apply lookup_delete_Some. auto.
  - unfold RemoveStateConstraint, AddStateConstraint. simpl.
    now rewrite delete_insert_eq.
  - unfold RemoveSegmentConstraint, AddSegmentConstraint. simpl.
    now rewrite delete_insert_eq.
Qed.

Lemma rangeNames_fst {A : Type} (constraints : gmap string A) :
  rangeNames constraints = (map_to_list constraints).*1.
Proof.
  unfold rangeNames.
  assert (forall (l : list (string * A)) acc,
            foldl (fun names entry => names ++ [fst entry]) acc l = acc ++ l.*1)
    as Hfold.
  { induction l as [|e l IH]; intros acc; simpl.
    - now rewrite app_nil_r.
    - rewrite IH. now rewrite <- app_assoc. }
  apply Hfold.
Qed.

Lemma rangeNames_elem {A : Type} (constraints : gmap string A) (name_ : string) :
  name_ ∈ rangeNames constraints <-> is_Some (constraints !! name_).
Proof.
  rewrite rangeNames_fst, list_elem_of_fmap. split.
  - intros [[n f] [-> Hin]]. apply elem_of_map_to_list in Hin. eauto.
  - intros [f Hl]. exists (name_, f). split; [reflexivity|].
    now apply elem_of_map_to_list.
Qed.

(** X6: [StateConstraints] and [SegmentConstraints] list every
    registered name once. After [AddStateConstraint] the list holds the
    added name and the names it held before; after
    [RemoveStateConstraint] it holds the other names it held before. *)
Theorem Constraint_names_listed_once (c : ConstraintHandler) (name_ : string)
    (cons : StateConstraint) :
  NoDup (StateConstraints c) /\ NoDup (SegmentConstraints c) /\
  length (StateConstraints c) = size (stateConstraints c) /\
  length (SegmentConstraints c) = size (segmentConstraints c) /\
  (forall n, n ∈ StateConstraints c <-> is_Some (stateConstraints c !! n)) /\
  (forall n, n ∈ SegmentConstraints c <-> is_Some (segmentConstraints c !! n)) /\
  (forall n, n ∈ StateConstraints (AddStateConstraint c name_ cons)
             <-> n = name_ \/ n ∈ StateConstraints c) /\
  (forall n, n ∈ StateConstraints (RemoveStateConstraint c name_)
             <-> n <> name_ /\ n ∈ StateConstraints c).
Proof.
  unfold StateConstraints, SegmentConstraints.
  repeat split.
  - rewrite rangeNames_fst. apply NoDup_fst_map_to_list.
  - rewrite rangeNames_fst. apply NoDup_fst_map_to_list.
  - rewrite rangeNames_fst, length_fmap. apply length_map_to_list.
  - rewrite rangeNames_fst, length_fmap. apply length_map_to_list.
  - apply rangeNames_elem.
  - apply rangeNames_elem.
  - apply rangeNames_elem.
  - apply rangeNames_elem.
  - rewrite !rangeNames_elem. simpl. rewrite lookup_insert_is_Some.
    intros [-> | [_ Hs]]; [now left | now right].
  - rewrite !rangeNames_elem. simpl. rewrite lookup_insert_is_Some.
    intros [-> | Hs]; [now left|].
    destruct (decide (name_ = n)) as [-> | Hne]; [now left | now right].
  - apply rangeNames_elem in H. simpl in H.
    apply lookup_delete_is_Some in H as [Hne _]. congruence.
  - apply rangeNames_elem in H. simpl in H.
    apply lookup_delete_is_Some in H as [_ Hs]. now apply rangeNames_elem.
  - intros [Hne Hs]. apply rangeNames_elem. simpl.
    apply lookup_delete_is_Some. apply rangeNames_elem in Hs. split; congruence.
Qed.

(** ** What a returned sub-segment says *)

Section Inversion.
Variable PathStepCount : option Pose -> option Pose -> float64 -> int.
Variable InterpolateInputs : slice Input -> slice Input -> float64 -> slice Input.

Let Across := CheckStateConstraintsAcrossSegment PathStepCount InterpolateInputs.
Let Validity := CheckSegmentAndStateValidity PathStepCount InterpolateInputs.
Let state := interpolated InterpolateInputs.
Let stepsOf := motionplan.stepsOf PathStepCount.

Lemma loop_sub_inv (c : ConstraintHandler) (ci : SegmentInput.t) (steps : int)
    (n : nat) (i : int) (lastGood : slice Input) (sub : SegmentInput.t) :
  acrossLoop InterpolateInputs c ci steps n i lastGood = (false, Some sub) ->
  exists k, i <= k < i + Z.of_nat n /\ k <> 0 /\
    (forall j, i <= j < k -> satisfies c (state ci steps j)) /\
    violates c (state ci steps k) /\
    sub = validPortion ci
            (if k =? i then lastGood
             else StateInput.Configuration (state ci steps (k - 1))).
Proof.
  revert i lastGood. induction n as [|n IH]; intros i lastGood; [discriminate|].
  destruct (satisfies_or_not c (state ci steps i)) as [Hs | [Hv | Hu]].
  - rewrite (loop_step_satisfied InterpolateInputs c ci steps n i lastGood Hs).
    intros Hl. destruct (IH _ _ Hl) as (k & Hk & Hk0 & Hbefore & Hv & ->).
    exists k. split; [lia|]. split; [exact Hk0|]. split; [|split; [exact Hv|]].
    + intros j Hj. destruct (Z.eq_dec j i) as [-> | Hne]; [exact Hs|].
      apply Hbefore. lia.
    + destruct (Z.eqb_spec k i); [lia|].
      destruct (Z.eqb_spec k (i + 1)) as [E | _]; [|reflexivity].
      rewrite E. now replace (i + 1 - 1) with i by lia.
  - rewrite (loop_step_violated InterpolateInputs c ci steps n i lastGood Hv).
    destruct (Z.eqb_spec i 0) as [|Hi]; [discriminate|].
    intros [= <-]. exists i. split; [lia|]. split; [exact Hi|].
    split; [intros j Hj; lia|]. split; [exact Hv|].
    now rewrite Z.eqb_refl.
  - rewrite (loop_step_unresolved InterpolateInputs c ci steps n i lastGood Hu).
    discriminate.
Qed.

(** X7: the sub-segment [CheckStateConstraintsAcrossSegment] returns is
    always the longest valid start of the segment. Whenever the result
    is [false] with a sub-segment, the segment resolved to poses, some
    step [k] after the start is the first whose interpolated state does
    not satisfy the constraints, that state was rejected by a constraint
    (its pose could be computed), and the sub-segment runs from the start
    configuration to the configuration of step [k - 1]. *)
Theorem Across_sub_segment_is_longest_valid (c : ConstraintHandler)
    (ci : SegmentInput.t) (resolution : float64) (sub : SegmentInput.t) :
  Across c ci resolution = (false, Some sub) ->
  exists ci' k,
    Segment_resolveInputsToPositions ci = (ci', None) /\
    0 < k <= stepsOf ci' resolution /\
    (forall i, 0 <= i < k -> satisfies c (state ci (stepsOf ci' resolution) i)) /\
    violates c (state ci (stepsOf ci' resolution) k) /\
    sub = validPortion ci
            (StateInput.Configuration (state ci (stepsOf ci' resolution) (k - 1))).
Proof.
  destruct (Segment_resolveInputsToPositions ci) as [ci' [err|]] eqn:Hres.
  - unfold Across.
    rewrite (Across_unresolved PathStepCount InterpolateInputs _ _ _ _ _ Hres).
    discriminate.
  - unfold Across.
    rewrite (Across_resolved PathStepCount InterpolateInputs _ _ _ _ Hres).
    intros Hl. apply loop_sub_inv in Hl as (k & Hk & Hk0 & Hbefore & Hv & ->).
    exists ci', k. split; [reflexivity|].
    fold (stepsOf ci' resolution) in *.
    split; [lia|]. split; [|split].
    + intros i Hi. unfold state.
      rewrite <- (interpolated_resolved InterpolateInputs _ _ _ _ _ Hres).
      apply Hbefore. lia.
    + unfold state.
      now rewrite <- (interpolated_resolved InterpolateInputs _ _ _ _ _ Hres).
    + destruct (Z.eqb_spec k 0); [contradiction|].
      unfold state.
      rewrite (interpolated_resolved InterpolateInputs _ _ _ _ _ Hres).
      apply (validPortion_resolved _ _ _ _ Hres).
Qed.

Lemma Across_sub_portion (c : ConstraintHandler) (ci : SegmentInput.t)
    (resolution : float64) (sub : SegmentInput.t) :
  Across c ci resolution = (false, Some sub) ->
  exists lastGood, sub = validPortion ci lastGood.
Proof.
  unfold Across, CheckStateConstraintsAcrossSegment.
  destruct (Segment_resolveInputsToPositions ci) as [ci' [err|]] eqn:Hres;
    [discriminate|].
  intros Hl. apply loop_sub_inv in Hl as (k & _ & _ & _ & _ & ->).
  eexists. apply (validPortion_resolved _ _ _ _ Hres).
Qed.

(** X8: a sub-segment returned by [CheckSegmentAndStateValidity] has
    passed the segment constraints, as the whole segment has, and it is
    the one [CheckStateConstraintsAcrossSegment] returned. It carries
    the start configuration of the segment and neither a frame nor
    poses: the segment constraints were asked about two configurations
    only. *)
Theorem Validity_sub_segment_passed (c : ConstraintHandler)
    (ci : SegmentInput.t) (resolution : float64) (sub : SegmentInput.t) :
  Validity c ci resolution = (false, Some sub) ->
  passesSegmentConstraints c ci = true /\
  passesSegmentConstraints c sub = true /\
  Across c ci resolution = (false, Some sub) /\
  SegmentInput.StartConfiguration sub = SegmentInput.StartConfiguration ci /\
  SegmentInput.Frame sub = None /\
  SegmentInput.StartPosition sub = None /\
  SegmentInput.EndPosition sub = None.
Proof.
  unfold Validity, CheckSegmentAndStateValidity, passesSegmentConstraints.
  fold Across.
  destruct (fst (CheckSegmentConstraints c ci)); simpl; [|discriminate].
  destruct (Across c ci resolution) as [[|] [s|]] eqn:E; simpl; try discriminate.
  destruct (fst (CheckSegmentConstraints c s)) eqn:Es; [|discriminate].
  intros [= <-].
  destruct (Across_sub_portion _ _ _ _ E) as [lastGood ->].
  repeat split; assumption.
Qed.

(** X29: the step counts at the edge. When [PathStepCount] returns a
    negative count the loop is not entered: the segment is accepted
    without a single state being checked. When it returns zero, one
    state is checked, and its interpolation factor is [0/0], which is
    NaN: the verdict is that of the state [InterpolateInputs] gives for
    NaN, and no sub-segment is returned. *)
Theorem Across_degenerate_step_counts (c : ConstraintHandler)
    (ci ci' : SegmentInput.t) (resolution : float64) :
  Segment_resolveInputsToPositions ci = (ci', None) ->
  (stepsOf ci' resolution < 0 -> Across c ci resolution = (true, None)) /\
  (stepsOf ci' resolution = 0 ->
   snd (Across c ci resolution) = None /\
   (fst (Across c ci resolution) = true
    <-> satisfies c
          {| StateInput.Position := None;
             StateInput.Configuration :=
               InterpolateInputs (SegmentInput.StartConfiguration ci)
                 (SegmentInput.EndConfiguration ci) nan;
             StateInput.Frame := SegmentInput.Frame ci |})).
Proof.
  intros Hres. unfold Across.
  rewrite (Across_resolved PathStepCount InterpolateInputs _ _ _ _ Hres).
  fold (stepsOf ci' resolution).
  destruct (Segment_resolve_keeps _ _ _ Hres) as (Hs & He & Hf).
  split.
  - intros Hneg.
    replace (Z.to_nat (stepsOf ci' resolution + 1)) with 0%nat by lia.
    reflexivity.
  - intros Hzero. rewrite Hzero. simpl.
    unfold interpolated, satisfies. rewrite Hs, He, Hf.
    change (float64_of_int 0 / float64_of_int 0)%float with nan.
    destruct (State_resolveInputsToPositions _) as [s [err|]]; simpl.
    + split; [reflexivity|]. split; [discriminate | intros [[=] _]].
    + destruct (fst (CheckStateConstraints c s)); simpl.
      * split; [reflexivity|]. split; auto.
      * split; [reflexivity|]. split; [discriminate | intros [_ [=]]].
Qed.

End Inversion.

(** A segment of no step: the state checked has NaN for a
    configuration, which the slide takes for a pose and the bound on x
    rejects. *)
Lemma Across_degenerate_step_counts_witness :
  snd (CheckStateConstraintsAcrossSegment noSteps exampleInterpolateInputs
         (stateHandler "bound" (xBelow 5)) slideSegment 1) = None /\
  (fst (CheckStateConstraintsAcrossSegment noSteps exampleInterpolateInputs
          (stateHandler "bound" (xBelow 5)) slideSegment 1) = true
   <-> satisfies (stateHandler "bound" (xBelow 5))
         {| StateInput.Position := None;
            StateInput.Configuration :=
              exampleInterpolateInputs
                (SegmentInput.StartConfiguration slideSegment)
                (SegmentInput.EndConfiguration slideSegment) nan;
            StateInput.Frame := SegmentInput.Frame slideSegment |}).
Proof.
  apply (Across_degenerate_step_counts noSteps exampleInterpolateInputs
           (stateHandler "bound" (xBelow 5)) slideSegment _ 1
           slideSegment_resolves).
  reflexivity.
Defined.

Lemma Across_sub_segment_is_longest_valid_witness :
  exists ci' k,
    Segment_resolveInputsToPositions slideSegment = (ci', None) /\
    0 < k <= stepsOf fourSteps ci' 1 /\
    (forall i, 0 <= i < k ->
       satisfies (stateHandler "bound" (xBelow 2.5))
         (interpolated exampleInterpolateInputs slideSegment
            (stepsOf fourSteps ci' 1) i)) /\
    violates (stateHandler "bound" (xBelow 2.5))
      (interpolated exampleInterpolateInputs slideSegment
         (stepsOf fourSteps ci' 1) k) /\
    segmentBetween None (Some [ {| Value := 0 |} ]) (Some [ {| Value := 2 |} ])
    = validPortion slideSegment
        (StateInput.Configuration
           (interpolated exampleInterpolateInputs slideSegment
              (stepsOf fourSteps ci' 1) (k - 1))).
Proof.
  apply (Across_sub_segment_is_longest_valid fourSteps exampleInterpolateInputs
           (stateHandler "bound" (xBelow 2.5)) slideSegment 1).
  vm_compute. reflexivity.
Defined.

Lemma Validity_sub_segment_passed_witness :
  passesSegmentConstraints
    (AddSegmentConstraint (stateHandler "bound" (xBelow 2.5)) "end" (endBelow 5))
    slideSegment = true /\
  passesSegmentConstraints
    (AddSegmentConstraint (stateHandler "bound" (xBelow 2.5)) "end" (endBelow 5))
    (segmentBetween None (Some [ {| Value := 0 |} ]) (Some [ {| Value := 2 |} ]))
  = true /\
  exampleAcross
    (AddSegmentConstraint (stateHandler "bound" (xBelow 2.5)) "end" (endBelow 5))
    slideSegment 1
  = (false,
     Some (segmentBetween None (Some [ {| Value := 0 |} ])
             (Some [ {| Value := 2 |} ]))) /\
  SegmentInput.StartConfiguration
    (segmentBetween None (Some [ {| Value := 0 |} ]) (Some [ {| Value := 2 |} ]))
  = SegmentInput.StartConfiguration slideSegment /\
  SegmentInput.Frame
    (segmentBetween None (Some [ {| Value := 0 |} ]) (Some [ {| Value := 2 |} ]))
  = None /\
  SegmentInput.StartPosition
    (segmentBetween None (Some [ {| Value := 0 |} ]) (Some [ {| Value := 2 |} ]))
  = None /\
  SegmentInput.EndPosition
    (segmentBetween None (Some [ {| Value := 0 |} ]) (Some [ {| Value := 2 |} ]))
  = None.
Proof.
  apply (Validity_sub_segment_passed fourSteps exampleInterpolateInputs
           (AddSegmentConstraint (stateHandler "bound" (xBelow 2.5)) "end"
              (endBelow 5))
           slideSegment 1).
  vm_compute. reflexivity.
Defined.

End HandlerFacts.

(* ===================================================================== *)
(** * Model descriptions: rows, end effector, frame configurations *)
(* ===================================================================== *)

Module ModelFacts.
Import spatialmath referenceframe modelconfig ConfigFacts.

Section Models.
Context `{Env}.
Variable ToStaticFrame : LinkConfig.t -> string -> result Frame.

(** ** The end effector of a parsed model *)

Lemma lastKey_singleton (parents : gmap string Frame) :
  size parents = 1%nat -> is_Some (parents !! lastKey parents).
Proof.
  intros Hsz. unfold lastKey.
  pose proof (length_map_to_list parents) as Hlen. rewrite Hsz in Hlen.
  destruct (map_to_list parents) as [|[k v] [|e rest]] eqn:E;
    simpl in Hlen; try lia.
  simpl. exists v. apply elem_of_map_to_list. rewrite E. left.
Qed.

Lemma unique_end_effector (transforms : gmap string Frame)
    (parentMap : gmap string string) :
  size (childless transforms parentMap) = 1%nat
  <-> exists ee, isEndEffector transforms parentMap ee /\
        forall id, isEndEffector transforms parentMap id -> id = ee.
Proof.
  set (parents := childless transforms parentMap). split.
  - intros Hsz.
    destruct (map_size_ne_0_lookup_1 parents) as [ee Hee]; [lia|].
    exists ee. split; [now apply childless_isEndEffector|].
    intros id Hid. destruct (decide (id = ee)) as [|Hne]; [assumption|].
    exfalso. apply childless_isEndEffector in Hid.
    assert (1 < size parents)%nat; [|lia].
    apply size_gt_1. eauto.
  - intros (ee & Hee & Huniq).
    apply childless_isEndEffector in Hee. fold parents in Hee.
    assert (~ (size parents < 1)%nat) as Hge.
    { intros Hlt. rewrite size_lt_1 in Hlt. rewrite Hlt in Hee.
      destruct Hee; discriminate. }
    assert (~ (1 < size parents)%nat) as Hle; [|lia].
    intros Hgt. apply size_gt_1 in Hgt as (id1 & id2 & Hne & H1 & H2).
    apply childless_isEndEffector in H1, H2.
    apply Huniq in H1, H2. congruence.
Qed.

Lemma ParseConfig_model_fields (cfg : ModelConfig.t) (modelName : string)
    (model : SimpleModel) :
  ParseConfig ToStaticFrame cfg modelName = Ok model ->
  modelConfig model = cfg /\
  model_name model
  = if String.eqb modelName "" then ModelConfig.Name cfg else modelName.
Proof.
  unfold ParseConfig.
  destruct (collectTransforms ToStaticFrame cfg) as [[t p]|e]; [|discriminate].
  destruct (1 <? size (childless t p))%nat; [discriminate|].
  destruct (size (childless t p) <? 1)%nat; [discriminate|].
  destruct (sortTransforms t p _ World); [|discriminate].
  intros [= <-]. split; reflexivity.
Qed.

(** X9: [ModelConfig.ParseConfig] returns a model exactly when the rows
    of the description were collected without error, exactly one
    collected frame is the parent of no frame, and [sortTransforms]
    orders the frames from that frame to the world. The model then holds
    that order and the description, and carries the given name, or the
    name of the description when the given name is empty. *)
Theorem ParseConfig_returns_model_iff (cfg : ModelConfig.t)
    (modelName : string) (model : SimpleModel) :
  ParseConfig ToStaticFrame cfg modelName = Ok model
  <-> exists transforms parentMap ee ordered,
        collectTransforms ToStaticFrame cfg = Ok (transforms, parentMap) /\
        isEndEffector transforms parentMap ee /\
        (forall id, isEndEffector transforms parentMap id -> id = ee) /\
        sortTransforms transforms parentMap ee World = Ok ordered /\
        model = {| model_name :=
                     if String.eqb modelName "" then ModelConfig.Name cfg
                     else modelName;
                   modelConfig := cfg;
                   OrdTransforms := ordered |}.
Proof.
  unfold ParseConfig. split.
  - destruct (collectTransforms ToStaticFrame cfg) as [[t p]|e]; [|discriminate].
    destruct (Nat.ltb_spec 1 (size (childless t p))); [discriminate|].
    destruct (Nat.ltb_spec (size (childless t p)) 1); [discriminate|].
    assert (size (childless t p) = 1%nat) as Hsz by lia.
    destruct (sortTransforms t p (lastKey (childless t p)) World)
      as [ordered|e] eqn:Es; [|discriminate].
    intros [= <-].
    exists t, p, (lastKey (childless t p)), ordered.
    split; [reflexivity|].
    pose proof (lastKey_singleton _ Hsz) as Hlast.
    apply childless_isEndEffector in Hlast.
    split; [exact Hlast|]. split; [|split; [exact Es | reflexivity]].
    apply unique_end_effector in Hsz as (ee & _ & Huniq).
    intros id Hid. rewrite (Huniq _ Hid). symmetry. now apply Huniq.
  - intros (t & p & ee & ordered & -> & Hee & Huniq & Hsort & ->).
    assert (size (childless t p) = 1%nat) as Hsz
      by (apply unique_end_effector; eauto).
    rewrite Hsz. simpl.
    pose proof (lastKey_singleton _ Hsz) as Hlast.
    apply childless_isEndEffector in Hlast.
    rewrite (Huniq _ Hlast), Hsort. reflexivity.
Qed.

(** ** The frames of a description of links and joints *)

Lemma addLinks_rows (links : list LinkConfig.t) (acc acc' : Transforms) :
  addLinks ToStaticFrame links acc = Ok acc' ->
  forall id,
    ((forall link, link ∈ links -> LinkConfig.ID link <> id) /\
     fst acc' !! id = fst acc !! id /\ snd acc' !! id = snd acc !! id) \/
    (exists link frame,
       link ∈ links /\ LinkConfig.ID link = id /\
       ToStaticFrame link id = Ok frame /\
       fst acc' !! id = Some frame /\
       snd acc' !! id = Some (LinkConfig.Parent link)).
Proof.
  revert acc. induction links as [|link rest IH]; intros acc; simpl.
  - intros [= <-] id. left. split; [|auto]. intros link Hin. inversion Hin.
  - destruct (ToStaticFrame link (LinkConfig.ID link)) as [frame|e] eqn:Ef;
      [|discriminate].
    intros Hrest id.
    destruct (IH _ Hrest id) as [(Hnone & Ht & Hp) | (l & f & Hin & Hrow)].
    + simpl in Ht, Hp.
      destruct (decide (LinkConfig.ID link = id)) as [<- | Hne].
      * right. exists link, frame. split; [left|].
        split; [reflexivity|]. split; [exact Ef|].
        rewrite Ht, Hp, !lookup_insert_eq. auto.
      * left. rewrite lookup_insert_ne in Ht by exact Hne.
        rewrite lookup_insert_ne in Hp by exact Hne.
        split; [|auto]. intros l Hin.
        apply elem_of_cons in Hin as [-> | Hin]; auto.
    + right. exists l, f. split; [now right | exact Hrow].
Qed.

Lemma addJoints_rows (joints : list JointConfig.t) (acc acc' : Transforms) :
  addJoints joints acc = Ok acc' ->
  forall id,
    ((forall joint, joint ∈ joints -> JointConfig.ID joint <> id) /\
     fst acc' !! id = fst acc !! id /\ snd acc' !! id = snd acc !! id) \/
    (exists joint frame,
       joint ∈ joints /\ JointConfig.ID joint = id /\
       JointConfig_ToFrame joint = Ok frame /\
       fst acc' !! id = Some frame /\
       snd acc' !! id = Some (JointConfig.Parent joint)).
Proof.
  revert acc. induction joints as [|joint rest IH]; intros acc; simpl.
  - intros [= <-] id. left. split; [|auto]. intros joint Hin. inversion Hin.
  - destruct (JointConfig_ToFrame joint) as [frame|e] eqn:Ef; [|discriminate].
    intros Hrest id.
    destruct (IH _ Hrest id) as [(Hnone & Ht & Hp) | (j & f & Hin & Hrow)].
    + simpl in Ht, Hp.
      destruct (decide (JointConfig.ID joint = id)) as [<- | Hne].
      * right. exists joint, frame. split; [left|].
        split; [reflexivity|]. split; [exact Ef|].
        rewrite Ht, Hp, !lookup_insert_eq. auto.
      * left. rewrite lookup_insert_ne in Ht by exact Hne.
        rewrite lookup_insert_ne in Hp by exact Hne.
        split; [|auto]. intros j Hin.
        apply elem_of_cons in Hin as [-> | Hin]; auto.
    + right. exists j, f. split; [now right | exact Hrow].
Qed.

Lemma namedWorldLink_false (links : list LinkConfig.t) :
  namedWorldLink links = false ->
  forall link, link ∈ links -> LinkConfig.ID link <> World.
Proof.
  intros Hno link Hin E.
  rewrite namedWorldLink_true in Hno; [discriminate | eauto].
Qed.

Lemma namedWorldJoint_false (joints : list JointConfig.t) :
  namedWorldJoint joints = false ->
  forall joint, joint ∈ joints -> JointConfig.ID joint <> World.
Proof.
  intros Hno joint Hin E.
  rewrite namedWorldJoint_true in Hno; [discriminate | eauto].
Qed.

(** X10: the two maps a description of links and joints is collected
    into hold the same ids, the ids of its rows, and never the id
    "world". Under each id the frame and the parent come from one row:
    from a joint of that id, or, when no joint has that id, from a link
    of that id; so a joint silently replaces a link of the same id. *)
Theorem SVA_frames_come_from_rows (cfg : ModelConfig.t)
    (transforms : gmap string Frame) (parentMap : gmap string string) :
  isSVA cfg ->
  collectTransforms ToStaticFrame cfg = Ok (transforms, parentMap) ->
  (forall id,
     match transforms !! id with
     | Some frame =>
         fromJoint cfg id frame (parentMap !! id) \/
         ((forall joint, joint ∈ ModelConfig.Joints cfg ->
             JointConfig.ID joint <> id) /\
          fromLink ToStaticFrame cfg id frame (parentMap !! id))
     | None =>
         parentMap !! id = None /\
         (forall link, link ∈ ModelConfig.Links cfg -> LinkConfig.ID link <> id) /\
         (forall joint, joint ∈ ModelConfig.Joints cfg ->
            JointConfig.ID joint <> id)
     end) /\
  transforms !! World = None /\ parentMap !! World = None.
Proof.
  intros Hsva. unfold collectTransforms. rewrite (isSVA_test _ Hsva).
  destruct (namedWorldLink (ModelConfig.Links cfg)) eqn:Ewl; [discriminate|].
  destruct (namedWorldJoint (ModelConfig.Joints cfg)) eqn:Ewj; [discriminate|].
  destruct (addLinks ToStaticFrame (ModelConfig.Links cfg) (∅, ∅))
    as [acc|e] eqn:El; [|discriminate].
  intros Ej.
  pose proof (addLinks_rows _ _ _ El) as Hlinks.
  pose proof (addJoints_rows _ _ _ Ej) as Hjoints.
  simpl in Hlinks, Hjoints.
  assert (forall id,
     match transforms !! id with
     | Some frame =>
         fromJoint cfg id frame (parentMap !! id) \/
         ((forall joint, joint ∈ ModelConfig.Joints cfg ->
             JointConfig.ID joint <> id) /\
          fromLink ToStaticFrame cfg id frame (parentMap !! id))
     | None =>
         parentMap !! id = None /\
         (forall link, link ∈ ModelConfig.Links cfg -> LinkConfig.ID link <> id) /\
         (forall joint, joint ∈ ModelConfig.Joints cfg ->
            JointConfig.ID joint <> id)
     end) as Hall.
  { intros id.
    destruct (Hjoints id) as [(Hnoj & Ht & Hp) | (j & f & Hin & Hid & Hf & Ht & Hp)].
    - destruct (Hlinks id)
        as [(Hnol & Ht' & Hp') | (l & f & Hin & Hid & Hf & Ht' & Hp')].
      + rewrite Ht, Ht', Hp, Hp', !lookup_empty. auto.
      + rewrite Ht, Ht', Hp, Hp'. right. split; [exact Hnoj|].
        exists l. auto.
    - rewrite Ht, Hp. left. exists j. auto. }
  split; [exact Hall|].
  specialize (Hall World).
  destruct (transforms !! World) as [frame|].
  - exfalso. destruct Hall as [(j & Hin & Hid & _) | [_ (l & Hin & Hid & _)]].
    + exact (namedWorldJoint_false _ Ewj j Hin Hid).
    + exact (namedWorldLink_false _ Ewl l Hin Hid).
  - split; [reflexivity | exact (proj1 Hall)].
Qed.

(** X14: the kind of a description selects the rows that are read. A
    description of kind "DH" gives the same frames, or the same error,
    whatever its links and joints; one of kind "SVA", or of no kind,
    whatever its DH rows; any other kind is rejected with an error that
    names it, whatever the rows. *)
Theorem KinParamType_selects_the_rows (cfg : ModelConfig.t)
    (links : list LinkConfig.t) (joints : list JointConfig.t)
    (dhParams : list DHParamConfig.t) (modelName : string) :
  (ModelConfig.KinParamType cfg = "DH"%string ->
   orderedOf (ParseConfig ToStaticFrame
                (withRows cfg links joints (ModelConfig.DHParams cfg)) modelName)
   = orderedOf (ParseConfig ToStaticFrame cfg modelName)) /\
  (isSVA cfg ->
   orderedOf (ParseConfig ToStaticFrame
                (withRows cfg (ModelConfig.Links cfg) (ModelConfig.Joints cfg)
                   dhParams) modelName)
   = orderedOf (ParseConfig ToStaticFrame cfg modelName)) /\
  (~ isSVA cfg -> ModelConfig.KinParamType cfg <> "DH"%string ->
   ParseConfig ToStaticFrame cfg modelName
   = Err (errorString ("unsupported param type: " +:+ ModelConfig.KinParamType cfg
                       +:+ ", supported params are SVA and DH"))).
Proof.
  split; [|split].
  - intros Hdh. unfold ParseConfig, collectTransforms, withRows. simpl.
    rewrite Hdh. simpl.
    destruct (addDHParams (ModelConfig.DHParams cfg) (∅, ∅)) as [[t p]|e];
      [|reflexivity].
    destruct (1 <? size (childless t p))%nat; [reflexivity|].
    destruct (size (childless t p) <? 1)%nat; [reflexivity|].
    destruct (sortTransforms t p _ World); reflexivity.
  - intros Hsva. unfold ParseConfig, collectTransforms, withRows. simpl.
    rewrite (isSVA_test _ Hsva).
    destruct (namedWorldLink _); [reflexivity|].
    destruct (namedWorldJoint _); [reflexivity|].
    destruct (addLinks ToStaticFrame _ _) as [acc|e]; [|reflexivity].
    destruct (addJoints _ acc) as [[t p]|e]; [|reflexivity].
    destruct (1 <? size (childless t p))%nat; [reflexivity|].
    destruct (size (childless t p) <? 1)%nat; [reflexivity|].
    destruct (sortTransforms t p _ World); reflexivity.
  - intros Hsva Hdh. unfold ParseConfig, collectTransforms.
    destruct (String.eqb_spec (ModelConfig.KinParamType cfg) "SVA") as [E|_];
      [exfalso; apply Hsva; now left|].
    destruct (String.eqb_spec (ModelConfig.KinParamType cfg) "") as [E|_];
      [exfalso; apply Hsva; now right|].
    destruct (String.eqb_spec (ModelConfig.KinParamType cfg) "DH") as [E|_];
      [contradiction|].
    reflexivity.
Qed.

(** ** The rows of a DH description *)

Lemma addDHParams_rows (dhs : list DHParamConfig.t) (acc acc' : Transforms) :
  addDHParams dhs acc = Ok acc' ->
  forall id,
    ((forall dh, dh ∈ dhs ->
        DHParamConfig.ID dh <> id /\ DHParamConfig.ID dh +:+ "_j" <> id) /\
     fst acc' !! id = fst acc !! id /\ snd acc' !! id = snd acc !! id) \/
    (exists dh frame,
       dh ∈ dhs /\ DHParamConfig.ID dh = id /\
       rowLinkFrame dh = Ok frame /\
       fst acc' !! id = Some frame /\
       snd acc' !! id = Some (DHParamConfig.ID dh +:+ "_j")) \/
    (exists dh frame,
       dh ∈ dhs /\ DHParamConfig.ID dh +:+ "_j" = id /\
       NewRotationalFrame id {| Theta := 0; RX := 0; RY := 0; RZ := 1 |}
         {| referenceframe.Min := DegToRad (DHParamConfig.Min dh);
            referenceframe.Max := DegToRad (DHParamConfig.Max dh) |} = Ok frame /\
       fst acc' !! id = Some frame /\
       snd acc' !! id = Some (DHParamConfig.Parent dh)).
Proof.
  revert acc. induction dhs as [|dh rest IH]; intros acc.
  - intros [= <-] id. left. split; [|auto]. intros dh Hin. inversion Hin.
  - simpl.
    destruct (NewRotationalFrame _ _ _) as [jointFrame|e] eqn:Ej; [|discriminate].
    fold (rowLinkFrame dh).
    destruct (rowLinkFrame dh) as [linkFrame|e] eqn:El; [|discriminate].
    intros Hrest id.
    destruct (IH _ Hrest id)
      as [(Hnone & Ht & Hp) | [(d & f & Hin & Hrow) | (d & f & Hin & Hrow)]].
    + simpl in Ht, Hp.
      destruct (decide (DHParamConfig.ID dh = id)) as [Hid | Hne].
      * subst id. right. left. exists dh, linkFrame. split; [left|].
        split; [reflexivity|]. split; [exact El|].
        rewrite Ht, Hp, !lookup_insert_eq. auto.
      * rewrite lookup_insert_ne in Ht by exact Hne.
        rewrite lookup_insert_ne in Hp by exact Hne.
        destruct (decide (DHParamConfig.ID dh +:+ "_j" = id)) as [Hid | Hnej].
        -- subst id. right. right. exists dh, jointFrame. split; [left|].
           split; [reflexivity|]. split; [exact Ej|].
           rewrite Ht, Hp, !lookup_insert_eq. auto.
        -- left. rewrite lookup_insert_ne in Ht by exact Hnej.
           rewrite lookup_insert_ne in Hp by exact Hnej.
           split; [|auto]. intros d Hin.
           apply elem_of_cons in Hin as [-> | Hin]; auto.
    + right. left. exists d, f. split; [now right | exact Hrow].
    + right. right. exists d, f. split; [now right | exact Hrow].
Qed.

(** X28: the two maps a description of kind "DH" is collected into hold
    the same ids: for each row its id and its id followed by "_j".
    Under each id the frame and the parent come from one row: the link
    frame of a row of that id, with the joint of that row as parent, or
    the joint frame of a row whose joint has that id, with the parent
    of that row. The links and joints of the description are not
    read. *)
Theorem DH_frames_come_from_rows (cfg : ModelConfig.t)
    (transforms : gmap string Frame) (parentMap : gmap string string) :
  ModelConfig.KinParamType cfg = "DH"%string ->
  collectTransforms ToStaticFrame cfg = Ok (transforms, parentMap) ->
  forall id,
    match transforms !! id with
    | Some frame =>
        fromRowLink cfg id frame (parentMap !! id) \/
        fromRowJoint cfg id frame (parentMap !! id)
    | None =>
        parentMap !! id = None /\
        forall dh, dh ∈ ModelConfig.DHParams cfg ->
          DHParamConfig.ID dh <> id /\ DHParamConfig.ID dh +:+ "_j" <> id
    end.
Proof.
  intros Hdh. unfold collectTransforms. rewrite Hdh. simpl.
  intros Hc id.
  destruct (addDHParams_rows _ _ _ Hc id)
    as [(Hnone & Ht & Hp)
       | [(d & f & Hin & Hid & Hf & Ht & Hp) | (d & f & Hin & Hid & Hf & Ht & Hp)]];
    simpl in Ht, Hp; rewrite Ht, Hp.
  - rewrite !lookup_empty. auto.
  - left. exists d. auto.
  - right. exists d. auto.
Qed.

(** X11: [ParseConfig] and [ToDHFrames] build the same frames of a DH
    row. When [ToDHFrames] returns a joint frame and a link frame, and
    the parser of geometry configurations returns an error for a
    missing configuration, the loop of [ParseConfig] stores that joint
    frame under [ID_j] with the parent of the row, and that link frame
    under [ID] with parent [ID_j]. *)
Theorem DH_row_frames_agree (dh : DHParamConfig.t)
    (rest : list DHParamConfig.t) (acc : Transforms) (rFrame lFrame : Frame) :
  DHParamConfig_ToDHFrames dh = Ok (rFrame, lFrame) ->
  (DHParamConfig.Geometry_ dh = None ->
   isErr (GeometryConfig_ParseConfig None) = true) ->
  addDHParams (dh :: rest) acc
  = addDHParams rest
      (<[DHParamConfig.ID dh := lFrame]>
         (<[DHParamConfig.ID dh +:+ "_j" := rFrame]> (fst acc)),
       <[DHParamConfig.ID dh := DHParamConfig.ID dh +:+ "_j"]>
         (<[DHParamConfig.ID dh +:+ "_j" := DHParamConfig.Parent dh]> (snd acc))).
Proof.
  unfold DHParamConfig_ToDHFrames. simpl.
  destruct (NewRotationalFrame _ _ _) as [r|e]; [|discriminate].
  destruct (DHParamConfig.Geometry_ dh) as [geometry|].
  - destruct (GeometryConfig_ParseConfig (Some geometry)) as [g|e];
      [|discriminate].
    destruct (NewStaticFrameWithGeometry _ _ g) as [l|e]; [|discriminate].
    intros [= <- <-] _. reflexivity.
  - intros Hl Hnil. specialize (Hnil eq_refl).
    destruct (GeometryConfig_ParseConfig None) as [g|e]; [discriminate|].
    destruct (NewStaticFrame _ _) as [l|e']; [|discriminate].
    injection Hl as <- <-. reflexivity.
Qed.

(** X12: a geometry configuration that does not parse stops
    [ToDHFrames] and does not stop [ParseConfig]. For a row with such a
    geometry, [ToDHFrames] returns the error of the geometry parser,
    while the loop of [ParseConfig] drops the error and stores a link
    frame without geometry. *)
Theorem DH_geometry_error_is_dropped (dh : DHParamConfig.t)
    (rest : list DHParamConfig.t) (acc : Transforms)
    (geometry : GeometryConfig) (err : error) (rFrame lFrame : Frame) :
  DHParamConfig.Geometry_ dh = Some geometry ->
  GeometryConfig_ParseConfig (Some geometry) = Err err ->
  NewRotationalFrame (DHParamConfig.ID dh +:+ "_j")
    {| Theta := 0; RX := 0; RY := 0; RZ := 1 |}
    {| referenceframe.Min := DegToRad (DHParamConfig.Min dh);
       referenceframe.Max := DegToRad (DHParamConfig.Max dh) |} = Ok rFrame ->
  NewStaticFrame (DHParamConfig.ID dh)
    (NewPoseFromDH (DHParamConfig.A dh) (DHParamConfig.D dh)
       (DegToRad (DHParamConfig.Alpha dh))) = Ok lFrame ->
  DHParamConfig_ToDHFrames dh = Err err /\
  addDHParams (dh :: rest) acc
  = addDHParams rest
      (<[DHParamConfig.ID dh := lFrame]>
         (<[DHParamConfig.ID dh +:+ "_j" := rFrame]> (fst acc)),
       <[DHParamConfig.ID dh := DHParamConfig.ID dh +:+ "_j"]>
         (<[DHParamConfig.ID dh +:+ "_j" := DHParamConfig.Parent dh]> (snd acc))).
Proof.
  intros Hg Hparse Hr Hl. unfold DHParamConfig_ToDHFrames. simpl.
  rewrite Hr, Hg, Hparse, Hl. split; reflexivity.
Qed.

(** ** Frame configurations *)

Variable NewOrientationConfig : R4AA -> result (option OrientationConfig).
Variable NewGeometryConfig : Geometry -> result (option GeometryConfig).

(** X13: a configuration made by [NewFrameConfig] does not parse back.
    The configuration holds a link with the name and the point of the
    frame and one geometry entry, and because it holds a link,
    [FrameConfig.Pose] and [FrameConfig.ParseConfig] return
    [ErrNilPose] for it. *)
Theorem NewFrameConfig_does_not_parse_back (frame : StaticFrame.t)
    (cfg : FrameConfig.t) :
  NewFrameConfig NewOrientationConfig NewGeometryConfig frame = Ok cfg ->
  (exists link geom,
     FrameConfig.Link cfg = Some link /\
     LinkConfig.ID link = StaticFrame.name frame /\
     LinkConfig.Translation link = Point (StaticFrame.transform frame) /\
     FrameConfig.Geometries cfg = Some [geom] /\
     (StaticFrame.geometry frame = None -> geom = None)) /\
  FrameConfig_Pose cfg = Returns (Err ErrNilPose) /\
  FrameConfig_ParseConfig cfg = Returns (Err ErrNilPose).
Proof.
  unfold NewFrameConfig.
  destruct (NewOrientationConfig _) as [orient|e]; [|discriminate].
  destruct (StaticFrame.geometry frame) as [g|] eqn:Eg.
  - destruct (NewGeometryConfig g) as [geom|e]; [|discriminate].
    intros [= <-]. split; [|split; reflexivity].
    eexists _, geom. simpl. repeat split. discriminate.
  - intros [= <-]. split; [|split; reflexivity].
    eexists _, None. simpl. repeat split.
Qed.

(** ** Loading a description *)

Variable json_Unmarshal : list Byte.byte -> result ModelConfig.t.

(** X15: a model that [UnmarshalModelJSON] returns was parsed from data
    that is not empty, holds the description the JSON decoder returned
    for the data, and carries the given name, or the name of that
    description when the given name is empty. *)
Theorem UnmarshalModelJSON_names_model (jsonData : list Byte.byte)
    (modelName : string) (model : SimpleModel) :
  UnmarshalModelJSON ToStaticFrame json_Unmarshal jsonData modelName = Ok model ->
  jsonData <> [] /\
  exists m,
    json_Unmarshal jsonData = Ok m /\
    ParseConfig ToStaticFrame m modelName = Ok model /\
    modelConfig model = m /\
    model_name model
    = if String.eqb modelName "" then ModelConfig.Name m else modelName.
Proof.
  unfold UnmarshalModelJSON.
  destruct jsonData as [|b data]; simpl; [discriminate|].
  destruct (json_Unmarshal (b :: data)) as [m|e]; [|discriminate].
  intros Hp. split; [discriminate|]. exists m.
  split; [reflexivity|]. split; [exact Hp|].
  exact (ParseConfig_model_fields _ _ _ Hp).
Qed.

End Models.

(** ** The statements at the example descriptions *)

Lemma SVA_frames_come_from_rows_witness :
  fst (collected exampleToStaticFrame exampleArm) !! World = None /\
  snd (collected exampleToStaticFrame exampleArm) !! World = None.
Proof.
  apply (SVA_frames_come_from_rows exampleToStaticFrame exampleArm).
  - left. reflexivity.
  - apply collected_Ok. vm_compute. reflexivity.
Defined.

Lemma DH_frames_come_from_rows_witness :
  match fst (collected exampleToStaticFrame exampleDH) !! "a"%string with
  | Some frame =>
      fromRowLink exampleDH "a" frame
        (snd (collected exampleToStaticFrame exampleDH) !! "a"%string) \/
      fromRowJoint exampleDH "a" frame
        (snd (collected exampleToStaticFrame exampleDH) !! "a"%string)
  | None =>
      snd (collected exampleToStaticFrame exampleDH) !! "a"%string = None /\
      forall dh, dh ∈ ModelConfig.DHParams exampleDH ->
        DHParamConfig.ID dh <> "a"%string /\
        DHParamConfig.ID dh +:+ "_j" <> "a"%string
  end.
Proof.
  apply (DH_frames_come_from_rows exampleToStaticFrame exampleDH).
  - reflexivity.
  - apply collected_Ok. vm_compute. reflexivity.
Defined.

Lemma DH_row_frames_agree_witness :
  exists rFrame lFrame,
    DHParamConfig_ToDHFrames (H := exampleEnv) (exampleRow "a" "world" None)
    = Ok (rFrame, lFrame) /\
    addDHParams (H := exampleEnv) [exampleRow "a" "world" None] (∅, ∅)
    = Ok (<["a"%string := lFrame]> (<["a_j"%string := rFrame]> ∅),
          <["a"%string := "a_j"%string]> (<["a_j"%string := "world"%string]> ∅)).
Proof.
  eexists _, _. split; [reflexivity|].
  apply (DH_row_frames_agree (H := exampleEnv) (exampleRow "a" "world" None)
           [] (∅, ∅) _ _ eq_refl).
  intros _. reflexivity.
Defined.

Lemma DH_geometry_error_is_dropped_witness :
  exists rFrame lFrame,
    DHParamConfig_ToDHFrames (H := exampleEnvWith noGeometry)
      (exampleRow (E := exampleEnvWith noGeometry) "a" "world" (Some "box"%string))
    = Err (errorString "geometry is not supported") /\
    addDHParams (H := exampleEnvWith noGeometry)
      [exampleRow (E := exampleEnvWith noGeometry) "a" "world" (Some "box"%string)] (∅, ∅)
    = Ok (<["a"%string := lFrame]> (<["a_j"%string := rFrame]> ∅),
          <["a"%string := "a_j"%string]> (<["a_j"%string := "world"%string]> ∅)).
Proof.
  eexists _, _.
  apply (DH_geometry_error_is_dropped (H := exampleEnvWith noGeometry)
           (exampleRow (E := exampleEnvWith noGeometry) "a" "world" (Some "box"%string)) [] (∅, ∅)
           "box"%string _ _ _ eq_refl eq_refl eq_refl eq_refl).
Defined.

Lemma NewFrameConfig_does_not_parse_back_witness :
  FrameConfig_ParseConfig (H := exampleEnv)
    {| FrameConfig.Link :=
         Some (@LinkConfig.Build_t exampleEnv "tip" {| X := 1; Y := 2; Z := 3 |}
                 (Some NewZeroOrientation) "");
       FrameConfig.Geometries := Some [None] |}
  = Returns (Err ErrNilPose).
Proof.
  apply (NewFrameConfig_does_not_parse_back (H := exampleEnv)
           (fun o => Ok (Some o)) (fun g => Ok (Some g)) exampleStatic).
  reflexivity.
Defined.

Lemma isErr_false_Ok {A : Type} (r : result A) (P : A -> Prop) :
  isErr r = false -> (forall a, r = Ok a -> P a) ->
  match r with Ok a => P a | Err _ => False end.
Proof. destruct r; [auto | discriminate]. Qed.

Lemma UnmarshalModelJSON_names_model_witness :
  match UnmarshalModelJSON exampleToStaticFrame (fun _ => Ok exampleArm)
          [Byte.x7b; Byte.x7d] "" with
  | Ok model => model_name model = "arm"%string /\ modelConfig model = exampleArm
  | Err _ => False
  end.
Proof.
  apply isErr_false_Ok; [vm_compute; reflexivity|].
  intros model Hm.
  destruct (UnmarshalModelJSON_names_model exampleToStaticFrame
              (fun _ => Ok exampleArm) [Byte.x7b; Byte.x7d] "" model Hm)
    as [_ (m & [= <-] & _ & Hcfg & Hname)].
  split; [exact Hname | exact Hcfg].
Defined.

End ModelFacts.

(* ===================================================================== *)
(** * Move requests: the motion configuration and the obstacle detectors *)
(* ===================================================================== *)

Module ConfigurationFacts.
Import spatialmath referenceframe builtin.
Import MotionConfiguration validatedMotionConfiguration.

(** ** Comparisons with zero and with NaN *)

Lemma Prim2SF_zero : Prim2SF 0 = S754_zero false.
Proof. reflexivity. Qed.

Lemma SFcompare_refl_not_nan (x : spec_float) :
  x <> S754_nan -> SFcompare x x = Some Eq.
Proof.
  destruct x as [s|s| |s m e]; simpl; intros Hx; try contradiction.
  - destruct s; reflexivity.
  - destruct s; reflexivity.
  - rewrite Z.compare_refl, Pos.compare_cont_refl. destruct s; reflexivity.
Qed.

Lemma IsNaN_spec (f : float64) : IsNaN f = true <-> Prim2SF f = S754_nan.
Proof.
  unfold IsNaN. rewrite FloatAxioms.eqb_spec. unfold SFeqb. split.
  - intros Hn. destruct (Prim2SF f) as [s|s| |s m e] eqn:E; [| |reflexivity|];
      rewrite SFcompare_refl_not_nan in Hn by discriminate; discriminate.
  - intros ->. reflexivity.
Qed.

Lemma ltb_nan_r (x y : float64) : IsNaN y = true -> (x <? y)%float = false.
Proof.
  intros Hy. apply IsNaN_spec in Hy.
  rewrite FloatAxioms.ltb_spec, Hy. unfold SFltb.
  destruct (Prim2SF x); reflexivity.
Qed.

Lemma ltb_nan_l (x y : float64) : IsNaN x = true -> (x <? y)%float = false.
Proof.
  intros Hx. apply IsNaN_spec in Hx.
  rewrite FloatAxioms.ltb_spec, Hx. reflexivity.
Qed.

(** A number that is neither NaN nor negative nor equal to zero is
    above zero. *)
Lemma accepted_nonzero_positive (f : float64) :
  accepted f = true -> (f =? 0)%float = false -> (0 <? f)%float = true.
Proof.
  unfold accepted. intros Hacc Hz.
  apply andb_true_iff in Hacc as [Hnan Hneg].
  apply negb_true_iff in Hnan, Hneg.
  assert (Prim2SF f <> S754_nan) as Hn.
  { intros E. apply IsNaN_spec in E. congruence. }
  revert Hneg Hz.
  rewrite FloatAxioms.eqb_spec, !FloatAxioms.ltb_spec, Prim2SF_zero.
  unfold SFeqb, SFltb.
  destruct (Prim2SF f) as [s|s| |s m e]; simpl; try contradiction;
    try discriminate; destruct s; simpl; congruence.
Qed.

Lemma positive_accepted (f : float64) :
  (0 <? f)%float = true -> accepted f = true.
Proof.
  unfold accepted. intros Hpos. apply andb_true_iff. split; apply negb_true_iff.
  - destruct (IsNaN f) eqn:E; [|reflexivity].
    rewrite (ltb_nan_r 0 f E) in Hpos. discriminate.
  - apply leb_not_gt. revert Hpos.
    rewrite FloatAxioms.ltb_spec, FloatAxioms.leb_spec. unfold SFltb, SFleb.
    destruct (SFcompare _ _) as [[| |]|]; congruence.
Qed.

(** ** [newValidatedMotionCfg] *)

Lemma validate_cases (f : float64) (name_ : string) :
  match validateNotNegNorNaN f name_ with
  | None => accepted f = true
  | Some err =>
      accepted f = false /\
      err = errorString (name_ +:+ (if IsNaN f then " may not be NaN"
                                    else " may not be negative"))
  end.
Proof.
  unfold validateNotNegNorNaN, validateNotNan, validateNotNeg, accepted.
  destruct (IsNaN f); simpl; [auto|].
  destruct (f <? 0)%float; simpl; auto.
Qed.

Section Validation.
Variables defaultAngularDegsPerSec defaultLinearMPerSec : float64.
Variables defaultObstaclePollingHz defaultPositionPollingHz : float64.
Variable defaultPlanDeviationM : float64.
Variable NewKinematicBaseOptions : Options.t.
Variable PositionOnlyMotionProfile : string.

Let validated :=
  newValidatedMotionCfg defaultAngularDegsPerSec defaultLinearMPerSec
    defaultObstaclePollingHz defaultPositionPollingHz defaultPlanDeviationM.
Let defaults :=
  defaultConfiguration defaultAngularDegsPerSec defaultLinearMPerSec
    defaultObstaclePollingHz defaultPositionPollingHz defaultPlanDeviationM.
Let options := kbOptionsFromCfg NewKinematicBaseOptions PositionOnlyMotionProfile.

(** X16: [newValidatedMotionCfg] checks the five numbers of a
    configuration in the order linear speed, angular speed, plan
    deviation, obstacle polling, position polling. It returns no error
    exactly when none of them is NaN or negative. Otherwise it returns
    the empty configuration and an error that names the first number
    that is NaN or negative, and says which of the two. *)
Theorem newValidatedMotionCfg_rejects_first_bad_number
    (motionCfg : MotionConfiguration.t) :
  match snd (validated (Some motionCfg)) with
  | None =>
      Forall (fun field => accepted (fst field) = true) (checkedFields motionCfg)
  | Some err =>
      fst (validated (Some motionCfg)) = emptyConfiguration /\
      exists before f name_ after,
        checkedFields motionCfg = before ++ (f, name_) :: after /\
        Forall (fun field => accepted (fst field) = true) before /\
        accepted f = false /\
        err = errorString (name_ +:+ (if IsNaN f then " may not be NaN"
                                      else " may not be negative"))
  end.
Proof.
  unfold validated, newValidatedMotionCfg, checkedFields.
  pose proof (validate_cases (LinearMPerSec motionCfg) "LinearMPerSec") as H1.
  destruct (validateNotNegNorNaN (LinearMPerSec motionCfg) _) as [e|]; simpl.
  { split; [reflexivity|]. destruct H1 as [Hacc ->].
    exists [], (LinearMPerSec motionCfg), "LinearMPerSec"%string. eexists.
    split; [reflexivity|]. repeat constructor; assumption. }
  pose proof (validate_cases (AngularDegsPerSec motionCfg) "AngularDegsPerSec")
    as H2.
  destruct (validateNotNegNorNaN (AngularDegsPerSec motionCfg) _) as [e|]; simpl.
  { split; [reflexivity|]. destruct H2 as [Hacc ->].
    exists [(LinearMPerSec motionCfg, "LinearMPerSec"%string)],
      (AngularDegsPerSec motionCfg), "AngularDegsPerSec"%string. eexists.
    split; [reflexivity|]. repeat constructor; assumption. }
  pose proof (validate_cases (PlanDeviationMM motionCfg) "PlanDeviationMM") as H3.
  destruct (validateNotNegNorNaN (PlanDeviationMM motionCfg) _) as [e|]; simpl.
  { split; [reflexivity|]. destruct H3 as [Hacc ->].
    exists [(LinearMPerSec motionCfg, "LinearMPerSec"%string);
            (AngularDegsPerSec motionCfg, "AngularDegsPerSec"%string)],
      (PlanDeviationMM motionCfg), "PlanDeviationMM"%string. eexists.
    split; [reflexivity|]. repeat constructor; assumption. }
  pose proof (validate_cases (ObstaclePollingFreqHz motionCfg)
                "ObstaclePollingFreqHz") as H4.
  destruct (validateNotNegNorNaN (ObstaclePollingFreqHz motionCfg) _) as [e|];
    simpl.
  { split; [reflexivity|]. destruct H4 as [Hacc ->].
    exists [(LinearMPerSec motionCfg, "LinearMPerSec"%string);
            (AngularDegsPerSec motionCfg, "AngularDegsPerSec"%string);
            (PlanDeviationMM motionCfg, "PlanDeviationMM"%string)],
      (ObstaclePollingFreqHz motionCfg), "ObstaclePollingFreqHz"%string. eexists.
    split; [reflexivity|]. repeat constructor; assumption. }
  pose proof (validate_cases (PositionPollingFreqHz motionCfg)
                "PositionPollingFreqHz") as H5.
  destruct (validateNotNegNorNaN (PositionPollingFreqHz motionCfg) _) as [e|];
    simpl.
  { split; [reflexivity|]. destruct H5 as [Hacc ->].
    exists [(LinearMPerSec motionCfg, "LinearMPerSec"%string);
            (AngularDegsPerSec motionCfg, "AngularDegsPerSec"%string);
            (PlanDeviationMM motionCfg, "PlanDeviationMM"%string);
            (ObstaclePollingFreqHz motionCfg, "ObstaclePollingFreqHz"%string)],
      (PositionPollingFreqHz motionCfg), "PositionPollingFreqHz"%string.
    exists []. split; [reflexivity|]. repeat constructor; assumption. }
  repeat constructor; assumption.
Qed.

Lemma kept_positive (given default_ : float64) :
  accepted given = true -> (0 <? default_)%float = true ->
  (0 <? (if negb (given =? 0)%float then given else default_))%float = true.
Proof.
  intros Hacc Hd. destruct (given =? 0)%float eqn:Ez; simpl; [exact Hd|].
  now apply accepted_nonzero_positive.
Qed.

Lemma validated_positive (motionCfg : option MotionConfiguration.t)
    (vmc : validatedMotionConfiguration.t) :
  Forall (fun f => (0 <? f)%float = true) (validatedFields defaults) ->
  validated motionCfg = (vmc, None) ->
  Forall (fun f => (0 <? f)%float = true) (validatedFields vmc).
Proof.
  intros Hd. unfold validated, newValidatedMotionCfg.
  destruct motionCfg as [motionCfg|]; [|now intros [= <-]].
  pose proof (validate_cases (LinearMPerSec motionCfg) "LinearMPerSec") as H1.
  destruct (validateNotNegNorNaN (LinearMPerSec motionCfg) _); [discriminate|].
  pose proof (validate_cases (AngularDegsPerSec motionCfg) "AngularDegsPerSec")
    as H2.
  destruct (validateNotNegNorNaN (AngularDegsPerSec motionCfg) _); [discriminate|].
  pose proof (validate_cases (PlanDeviationMM motionCfg) "PlanDeviationMM") as H3.
  destruct (validateNotNegNorNaN (PlanDeviationMM motionCfg) _); [discriminate|].
  pose proof (validate_cases (ObstaclePollingFreqHz motionCfg)
                "ObstaclePollingFreqHz") as H4.
  destruct (validateNotNegNorNaN (ObstaclePollingFreqHz motionCfg) _);
    [discriminate|].
  pose proof (validate_cases (PositionPollingFreqHz motionCfg)
                "PositionPollingFreqHz") as H5.
  destruct (validateNotNegNorNaN (PositionPollingFreqHz motionCfg) _);
    [discriminate|].
  intros [= <-]. unfold validatedFields, defaults, defaultConfiguration in *.
  simpl in *.
  inversion Hd as [|? ? D1 Hd1]; subst. inversion Hd1 as [|? ? D2 Hd2]; subst.
  inversion Hd2 as [|? ? D3 Hd3]; subst. inversion Hd3 as [|? ? D4 Hd4]; subst.
  inversion Hd4 as [|? ? D5 _]; subst.
  repeat constructor; apply kept_positive; assumption.
Qed.

(** X17: with defaults above zero, every number of a configuration
    that [newValidatedMotionCfg] returns without error is above zero,
    so none is NaN, negative or zero: a zero (or a negative zero) in the
    given configuration is replaced by the default. Without a
    configuration the defaults are returned. *)
Theorem validated_numbers_are_positive
    (motionCfg : option MotionConfiguration.t)
    (vmc : validatedMotionConfiguration.t) :
  Forall (fun f => (0 <? f)%float = true) (validatedFields defaults) ->
  validated motionCfg = (vmc, None) ->
  Forall (fun f => (0 <? f)%float = true /\ accepted f = true /\
                   (f =? 0)%float = false)
    (validatedFields vmc) /\
  (motionCfg = None -> vmc = defaults).
Proof.
  intros Hd Hv. split.
  - pose proof (validated_positive _ _ Hd Hv) as Hpos.
    eapply Forall_impl; [exact Hpos|]. simpl. intros f Hf.
    split; [exact Hf|]. split; [now apply positive_accepted|].
    destruct (f =? 0)%float eqn:Ez; [|reflexivity].
    revert Hf Ez.
    rewrite FloatAxioms.eqb_spec, FloatAxioms.ltb_spec. unfold SFeqb, SFltb.
    intros Hlt Heq.
    destruct (SFcompare (Prim2SF 0) (Prim2SF f)) as [c|] eqn:Ec; [|discriminate].
    rewrite (SFcompare_antisym _ _ _ Ec) in Heq.
    destruct c; simpl in *; congruence.
  - intros ->. unfold validated, newValidatedMotionCfg in Hv.
    now injection Hv as <-.
Qed.

(** X18: the options of the kinematic base carry the numbers of a
    validated configuration. With defaults above zero, for a
    configuration that [newValidatedMotionCfg] returned without error,
    [kbOptionsFromCfg] sets the linear velocity to the linear speed
    times 1000, the angular velocity to the angular speed, and both the
    plan deviation threshold and the goal radius to the plan deviation;
    none of these three is left at the value of
    [NewKinematicBaseOptions]. The heading threshold is 8 degrees. *)
Theorem kbOptions_carry_validated_numbers
    (motionCfg : option MotionConfiguration.t)
    (vmc : validatedMotionConfiguration.t) (extra : validatedExtra) :
  Forall (fun f => (0 <? f)%float = true) (validatedFields defaults) ->
  validated motionCfg = (vmc, None) ->
  Options.LinearVelocityMMPerSec (options vmc extra)
  = (linearMPerSec vmc * 1000)%float /\
  Options.AngularVelocityDegsPerSec (options vmc extra) = angularDegsPerSec vmc /\
  Options.PlanDeviationThresholdMM (options vmc extra) = planDeviationMM vmc /\
  Options.GoalRadiusMM (options vmc extra) = planDeviationMM vmc /\
  Options.HeadingThresholdDegrees (options vmc extra) = 8%float.
Proof.
  intros Hd Hv. pose proof (validated_positive _ _ Hd Hv) as Hpos.
  unfold validatedFields in Hpos.
  inversion Hpos as [|? ? P1 Hp1]; subst. inversion Hp1 as [|? ? P2 Hp2]; subst.
  inversion Hp2 as [|? ? P3 _]; subst.
  unfold options, kbOptionsFromCfg. simpl. rewrite P1, P2, P3. auto.
Qed.

End Validation.

(** The two statements at a configuration that gives an angular speed
    of 30 and a position polling frequency of 5 and leaves the other
    numbers at zero. *)
Lemma exampleValidated_runs :
  exampleValidated (Some (exampleConfiguration 0 30 0 0 5))
  = ({| obstacleDetectors := Some [];
        positionPollingFreqHz := 5; obstaclePollingFreqHz := 1;
        planDeviationMM := (2.6 * 1e3)%float;
        linearMPerSec := 0.3; angularDegsPerSec := 30 |}, None).
Proof. vm_compute. reflexivity. Qed.

Lemma exampleDefaults_positive :
  Forall (fun f => (0 <? f)%float = true)
    (validatedFields (defaultConfiguration 60 0.3 1 1 2.6)).
Proof. repeat constructor. Qed.

Lemma validated_numbers_are_positive_witness :
  Forall (fun f => (0 <? f)%float = true /\ accepted f = true /\
                   (f =? 0)%float = false)
    [0.3%float; 30%float; (2.6 * 1e3)%float; 1%float; 5%float].
Proof.
  exact (proj1 (validated_numbers_are_positive 60 0.3 1 1 2.6 _ _
                  exampleDefaults_positive exampleValidated_runs)).
Defined.

Lemma kbOptions_carry_validated_numbers_witness :
  Options.LinearVelocityMMPerSec
    (kbOptionsFromCfg exampleOptions "position_only"
       (fst (exampleValidated (Some (exampleConfiguration 0 30 0 0 5))))
       {| maxReplans := -1; replanCostFactor := 1; motionProfile := "" |})
  = (0.3 * 1000)%float.
Proof.
  rewrite exampleValidated_runs.
  apply (kbOptions_carry_validated_numbers 60 0.3 1 1 2.6 exampleOptions
           "position_only" _ _ _ exampleDefaults_positive exampleValidated_runs).
Defined.

(** ** The obstacle detectors of a request *)

Section Grouping.
Import ObstacleDetectorName.
Context {Service : Type} `{Countable Service}.
Variable DependencyNotFoundError : string -> error.
Variable visionServices : gmap string Service.

Let group := groupDetectors DependencyNotFoundError visionServices.
Let cameras := camerasOf visionServices.

Lemma camerasOf_cons_same (pair : ObstacleDetectorName.t)
    (rest : list ObstacleDetectorName.t) (svc : Service) :
  visionServices !! VisionServiceName pair = Some svc ->
  cameras svc (pair :: rest) = CameraName pair :: cameras svc rest.
Proof.
  intros Hs. unfold cameras. simpl. now rewrite bool_decide_eq_true_2.
Qed.

Lemma camerasOf_cons_other (pair : ObstacleDetectorName.t)
    (rest : list ObstacleDetectorName.t) (svc : Service) :
  visionServices !! VisionServiceName pair <> Some svc ->
  cameras svc (pair :: rest) = cameras svc rest.
Proof.
  intros Hs. unfold cameras. simpl. now rewrite bool_decide_eq_false_2.
Qed.

Lemma group_Ok (pairs : list ObstacleDetectorName.t)
    (acc m : gmap Service (list string)) :
  group pairs acc = Ok m ->
  Forall (fun pair => is_Some (visionServices !! VisionServiceName pair)) pairs /\
  forall svc,
    default [] (m !! svc) = default [] (acc !! svc) ++ cameras svc pairs /\
    (is_Some (m !! svc) <-> is_Some (acc !! svc) \/ cameras svc pairs <> []).
Proof.
  revert acc. induction pairs as [|pair rest IH]; intros acc Hrest.
  - injection Hrest as <-. split; [constructor|]. intros svc.
    unfold cameras. simpl.
    rewrite app_nil_r. split; [reflexivity|]. tauto.
  - unfold group in Hrest. simpl in Hrest.
    destruct (visionServices !! VisionServiceName pair) as [s|] eqn:Es;
      [|discriminate].
    assert (group rest (<[s := default [] (acc !! s) ++ [CameraName pair]]> acc)
            = Ok m) as Hrest'.
    { destruct (acc !! s); exact Hrest. }
    destruct (IH _ Hrest') as [Hknown Hall].
    split; [constructor; [rewrite Es; eauto | exact Hknown]|].
    intros svc. destruct (Hall svc) as [Hcams Hsome].
    destruct (decide (s = svc)) as [<- | Hne].
    + rewrite lookup_insert_eq in Hcams, Hsome. simpl in Hcams.
      rewrite (camerasOf_cons_same _ _ _ Es).
      rewrite Hcams, <- app_assoc. split; [reflexivity|].
      rewrite Hsome. split; [intros _; right; discriminate | eauto].
    + rewrite lookup_insert_ne in Hcams, Hsome by exact Hne.
      rewrite camerasOf_cons_other by (rewrite Es; congruence).
      auto.
Qed.

Lemma group_Err (pairs : list ObstacleDetectorName.t)
    (acc : gmap Service (list string)) (err : error) :
  group pairs acc = Err err ->
  exists before pair after,
    pairs = before ++ pair :: after /\
    Forall (fun pair => is_Some (visionServices !! VisionServiceName pair))
      before /\
    visionServices !! VisionServiceName pair = None /\
    err = DependencyNotFoundError (VisionServiceName pair).
Proof.
  revert acc. induction pairs as [|pair rest IH]; intros acc; simpl;
    [discriminate|].
  unfold group. simpl.
  destruct (visionServices !! VisionServiceName pair) as [s|] eqn:Es.
  - intros Hrest.
    assert (exists acc', group rest acc' = Err err) as [acc' Hrest'].
    { destruct (acc !! s); eauto. }
    destruct (IH _ Hrest') as (before & p & after & -> & Hknown & Hp & ->).
    exists (pair :: before), p, after. split; [reflexivity|].
    split; [constructor; [rewrite Es; eauto | exact Hknown] | auto].
  - intros [= <-]. exists [], pair, rest.
    split; [reflexivity|]. split; [constructor | auto].
Qed.

(** X19: the obstacle detectors of a request group the cameras of the
    configuration by vision service. When every pair names a known
    vision service, the map holds, for each service, the cameras of the
    pairs whose name leads to that service, in the order of the pairs,
    and holds no service without a camera. Otherwise no request is
    built: the error is the dependency-not-found error of the first
    pair whose service is unknown. *)
Theorem groupDetectors_groups_cameras (pairs : list ObstacleDetectorName.t) :
  match group pairs ∅ with
  | Ok obstacleDetectors =>
      Forall (fun pair => is_Some (visionServices !! VisionServiceName pair))
        pairs /\
      forall svc,
        match obstacleDetectors !! svc with
        | Some camList => camList = cameras svc pairs /\ camList <> []
        | None => cameras svc pairs = []
        end
  | Err err =>
      exists before pair after,
        pairs = before ++ pair :: after /\
        Forall (fun pair => is_Some (visionServices !! VisionServiceName pair))
          before /\
        visionServices !! VisionServiceName pair = None /\
        err = DependencyNotFoundError (VisionServiceName pair)
  end.
Proof.
  destruct (group pairs ∅) as [m|err] eqn:E.
  - destruct (group_Ok _ _ _ E) as [Hknown Hall].
    split; [exact Hknown|]. intros svc.
    destruct (Hall svc) as [Hcams Hsome].
    rewrite lookup_empty in Hcams, Hsome. simpl in Hcams.
    destruct (m !! svc) as [camList|] eqn:Em; simpl in Hcams.
    + split; [exact Hcams|]. subst camList.
      destruct (proj1 Hsome) as [[? [=]] | Hne]; eauto.
    + symmetry. exact Hcams.
  - exact (group_Err _ _ _ E).
Qed.

End Grouping.

(** Three pairs, two of them on one service under two names. *)
Example groupDetectors_example :
  groupDetectors (fun name_ => errorString ("not found: " +:+ name_))
    exampleServices
    [examplePair "front" "cam-a"; examplePair "rear" "cam-b";
     examplePair "front-alias" "cam-c"] ∅
  = Ok (<[1%positive := (["cam-a"; "cam-c"])%string]>
          (<[2%positive := (["cam-b"])%string]> ∅)).
Proof. vm_compute. reflexivity. Qed.

End ConfigurationFacts.

(* ===================================================================== *)
(** * Move requests: the commands of a run of [execute] *)
(* ===================================================================== *)

Module ExecuteFacts.
Import spatialmath referenceframe builtin RequestFacts ConfigurationFacts.

Lemma commanded_app (a b : list event) :
  commanded (a ++ b) = commanded a ++ commanded b.
Proof.
  induction a as [|ev a IH]; [reflexivity|].
  destruct ev; simpl; rewrite IH; reflexivity.
Qed.

Lemma stopped_app (a b : list event) :
  stopped (a ++ b) = stopped a || stopped b.
Proof.
  induction a as [|ev a IH]; [reflexivity|].
  destruct ev; simpl; auto.
Qed.

Section Commands.
Variable World : Type.
Variable ctxErr : Context -> World -> option error.
Variable GoToInputs : Context -> list Input -> World -> option error * World.
Variable Stop : Context -> World -> option error * World.
Variable ErrorState : World -> int -> result Pose.
Variable planDeviationMM : float64.
Variable deviationReason : float64 -> float64 -> Vector -> string.
Variable ctx : Context.

Let step := executeStep World ctxErr GoToInputs Stop ErrorState planDeviationMM
              deviationReason ctx.
Let run := execute World ctxErr GoToInputs Stop ErrorState planDeviationMM
             deviationReason ctx.
Let deviated := deviatedFromPlan World ErrorState planDeviationMM deviationReason.
Let go := fun (w : World) (waypoint : list Input) =>
            snd (GoToInputs ctx waypoint w).

(** ** The passes of the loop *)

Lemma step_start (waypoints : list (list Input)) (st : execution World) :
  actuation World st = NotStarted ->
  step (Ok waypoints) st
  = {| world := world World st; waypointIndex := waypointIndex World st;
       actuation := Looping waypoints (waypointIndex World st);
       trace := trace World st |}.
Proof.
  intros Ht. destruct st as [w idx t tr]. simpl in *. subst t. reflexivity.
Qed.

Lemma step_done (frameInputs : result (list (list Input)))
    (st : execution World) (waypoints : list (list Input)) (i : int) :
  actuation World st = Looping waypoints i ->
  Z.of_nat (length waypoints) <= i ->
  step frameInputs st
  = {| world := world World st; waypointIndex := waypointIndex World st;
       actuation :=
         Returned
           (fst (deviated (world World st) (Z.of_nat (length waypoints) - 1)))
           (snd (deviated (world World st) (Z.of_nat (length waypoints) - 1)));
       trace := trace World st |}.
Proof.
  intros Ht Hi. destruct st as [w idx t tr]. simpl in *. subst t.
  unfold step, executeStep. simpl.
  destruct (Z.ltb_spec i (Z.of_nat (length waypoints))); [lia|].
  unfold deviated.
  destruct (deviatedFromPlan World ErrorState planDeviationMM deviationReason w _);
    reflexivity.
Qed.

Lemma step_moved (frameInputs : result (list (list Input)))
    (st : execution World) (waypoints : list (list Input)) (i : int)
    (waypoint : list Input) (w1 : World) :
  actuation World st = Looping waypoints i ->
  i < Z.of_nat (length waypoints) ->
  ctxErr ctx (world World st) = None ->
  at_ waypoints i = Some waypoint ->
  GoToInputs ctx waypoint (world World st) = (None, w1) ->
  step frameInputs st
  = {| world := w1;
       waypointIndex :=
         if i <? Z.of_nat (length waypoints) - 1
         then wrap32 (waypointIndex World st + 1) else waypointIndex World st;
       actuation := Looping waypoints (i + 1);
       trace :=
         trace World st
         ++ EvGoToInputs i waypoint None
            :: (if i <? Z.of_nat (length waypoints) - 1
                then [EvAdd (wrap32 (waypointIndex World st + 1))] else []) |}.
Proof.
  intros Ht Hi Hc Hat Hgo. destruct st as [w idx t tr]. simpl in *. subst t.
  unfold step, executeStep. simpl.
  destruct (Z.ltb_spec i (Z.of_nat (length waypoints))); [|lia].
  rewrite Hc, Hat, Hgo.
  destruct (i <? Z.of_nat (length waypoints) - 1); reflexivity.
Qed.

Lemma at_in_range (waypoints : list (list Input)) (i : int) :
  0 <= i < Z.of_nat (length waypoints) ->
  exists waypoint,
    at_ waypoints i = Some waypoint /\
    waypoints !! Z.to_nat i = Some waypoint.
Proof.
  intros Hi. unfold at_. destruct (Z.ltb_spec i 0); [lia|].
  destruct (lookup_lt_is_Some_2 waypoints (Z.to_nat i)) as [wp Hwp]; [lia|].
  eauto.
Qed.

(** ** The first disturbance of a run *)

Let calm := undisturbed World ctxErr GoToInputs ctx.
Let after := worldAfter World GoToInputs ctx.

Lemma drop_head (waypoints : list (list Input)) (n : nat)
    (waypoint : list Input) (rest : list (list Input)) :
  drop n waypoints = waypoint :: rest ->
  waypoints !! n = Some waypoint /\ drop (S n) waypoints = rest.
Proof.
  intros Hd.
  assert (waypoints !! n = Some waypoint) as Hl.
  { pose proof (lookup_drop waypoints n 0) as Hl. rewrite Hd in Hl.
    simpl in Hl. now rewrite Nat.add_0_r in Hl. }
  split; [exact Hl|].
  rewrite (drop_S _ _ _ Hl) in Hd. now injection Hd.
Qed.

(** The passes of the loop for commands that nothing disturbs. *)
Lemma undisturbed_loop (frameInputs : result (list (list Input)))
    (waypoints : list (list Input)) (done_ : list (list Input)) :
  forall (i : int) (st : execution World) (rest : list (list Input)),
    actuation World st = Looping waypoints i ->
    0 <= i ->
    drop (Z.to_nat i) waypoints = done_ ++ rest ->
    calm (world World st) done_ ->
    actuation World (Nat.iter (length done_) (step frameInputs) st)
    = Looping waypoints (i + Z.of_nat (length done_)) /\
    world World (Nat.iter (length done_) (step frameInputs) st)
    = after (world World st) done_ /\
    exists progress,
      trace World (Nat.iter (length done_) (step frameInputs) st)
      = trace World st ++ progress /\
      Forall isProgress progress /\ commanded progress = done_.
Proof.
  induction done_ as [|wp done_ IH]; intros i st rest Ht Hi Hd Hcalm.
  - simpl. rewrite Z.add_0_r. split; [exact Ht|]. split; [reflexivity|].
    exists []. rewrite app_nil_r. split; [reflexivity|].
    split; [constructor | reflexivity].
  - simpl in Hd. destruct (drop_head _ _ _ _ Hd) as [Hwp Hd'].
    destruct Hcalm as (Hctx & Hgo & Hcalm).
    assert (i < Z.of_nat (length waypoints)) as Hlt.
    { apply lookup_lt_Some in Hwp. lia. }
    assert (at_ waypoints i = Some wp) as Hat.
    { unfold at_. destruct (Z.ltb_spec i 0); [lia | exact Hwp]. }
    destruct (GoToInputs ctx wp (world World st)) as [e w1] eqn:Eg.
    simpl in Hgo, Hcalm. subst e.
    change (length (wp :: done_)) with (S (length done_)).
    rewrite Nat.iter_succ_r.
    rewrite (step_moved frameInputs st waypoints i wp w1 Ht Hlt Hctx Hat Eg).
    match goal with
    | |- context [Nat.iter (length done_) _ ?s] => set (st1 := s)
    end.
    destruct (IH (i + 1) st1 rest) as (Hact & Hw & progress & Htr & Hprog & Hcmd).
    + reflexivity.
    + lia.
    + replace (Z.to_nat (i + 1)) with (S (Z.to_nat i)) by lia. exact Hd'.
    + exact Hcalm.
    + split; [|split].
      * rewrite Hact. f_equal. lia.
      * rewrite Hw. unfold after, worldAfter. simpl. now rewrite Eg.
      * exists (EvGoToInputs i wp None
                :: (if i <? Z.of_nat (length waypoints) - 1
                    then [EvAdd (wrap32 (waypointIndex World st + 1))] else [])
                   ++ progress).
        split; [|split].
        -- rewrite Htr. unfold st1. simpl. rewrite <- app_assoc. reflexivity.
        -- constructor; [exact I|]. apply Forall_app. split; [|exact Hprog].
           destruct (i <? Z.of_nat (length waypoints) - 1);
             repeat constructor.
        -- simpl. rewrite commanded_app, Hcmd.
           destruct (i <? Z.of_nat (length waypoints) - 1); reflexivity.
Qed.

(** The run up to the pass of the loop for the waypoint after
    [done_]. *)
Lemma run_to_disturbance (waypoints : list (list Input)) (w : World)
    (index : int) (done_ : list (list Input)) (waypoint : list Input)
    (rest : list (list Input)) :
  0 <= index ->
  drop (Z.to_nat index) waypoints = done_ ++ waypoint :: rest ->
  calm w done_ ->
  exists (st : execution World) (progress : list event),
    actuation World st
    = Looping waypoints (index + Z.of_nat (length done_)) /\
    index + Z.of_nat (length done_) < Z.of_nat (length waypoints) /\
    at_ waypoints (index + Z.of_nat (length done_)) = Some waypoint /\
    world World st = after w done_ /\
    trace World st = progress /\
    Forall isProgress progress /\ commanded progress = done_ /\
    forall final,
      step (Ok waypoints) st = final ->
      terminal (actuation World final) ->
      run (Ok waypoints) w index = final.
Proof.
  intros Hindex Hd Hcalm.
  set (looping := {| world := w; waypointIndex := index;
                     actuation := Looping waypoints index; trace := [] |}).
  destruct (undisturbed_loop (Ok waypoints) waypoints done_ index looping
              (waypoint :: rest) eq_refl Hindex Hd Hcalm)
    as (Hact & Hw & progress & Htr & Hprog & Hcmd).
  assert (length done_ < length waypoints)%nat as Hn.
  { pose proof (f_equal length Hd) as Hlen.
    rewrite length_drop, length_app in Hlen. simpl in Hlen. lia. }
  assert (waypoints !! (Z.to_nat index + length done_)%nat = Some waypoint)
    as Hwp.
  { rewrite <- lookup_drop, Hd.
    rewrite lookup_app_r by lia. now rewrite Nat.sub_diag. }
  assert (index + Z.of_nat (length done_) < Z.of_nat (length waypoints)) as Hlt.
  { apply lookup_lt_Some in Hwp. lia. }
  exists (Nat.iter (length done_) (step (Ok waypoints)) looping), progress.
  split; [exact Hact|]. split; [exact Hlt|]. split; [|split; [exact Hw|]].
  { unfold at_.
    destruct (Z.ltb_spec (index + Z.of_nat (length done_)) 0); [lia|].
    replace (Z.to_nat (index + Z.of_nat (length done_)))
      with (Z.to_nat index + length done_)%nat by lia.
    exact Hwp. }
  split; [exact Htr|]. split; [exact Hprog|]. split; [exact Hcmd|].
  intros final Hstep Hterm.
  assert (step (Ok waypoints)
            {| world := w; waypointIndex := index;
               actuation := NotStarted; trace := [] |}
          = looping) as Hs
    by (rewrite step_start by reflexivity; reflexivity).
  unfold run, execute, executeFuel. fold step.
  rewrite Nat.iter_succ_r, Hs.
  replace (S (length waypoints))
    with ((length waypoints - length done_) + (1 + length done_))%nat by lia.
  rewrite Nat.iter_add, (Nat.iter_add 1).
  simpl Nat.iter at 2. rewrite Hstep.
  apply (iter_terminal World ctxErr GoToInputs Stop ErrorState
           planDeviationMM deviationReason ctx).
  exact Hterm.
Qed.

(** C8, amended. A run of [execute] whose first commands nothing
    disturbs (the context is not done before any of them and none
    returns an error) and that has a waypoint left after them. If the
    context is found done at the start of the pass for that waypoint, or
    the command for it returns an error, the next thing [execute] does
    is to stop the base, on the context [WithTimeout(Background, 5s)],
    which is not the context of the run, in the world as it then is;
    nothing follows the stop. When the stop returns no error the
    result is the error of the command (nil after a cancellation); when
    it returns an error the result wraps the error of the command, or of
    the context, in the message of the stop error, so that its text
    holds both. *)
Theorem C8_stop_follows_failure_or_cancel (waypoints : list (list Input))
    (w : World) (index : int) (done_ : list (list Input))
    (waypoint : list Input) (rest : list (list Input)) :
  0 <= index ->
  drop (Z.to_nat index) waypoints = done_ ++ waypoint :: rest ->
  undisturbed World ctxErr GoToInputs ctx w done_ ->
  (forall cancelled,
     ctxErr ctx (worldAfter World GoToInputs ctx w done_) = Some cancelled ->
     world World (run (Ok waypoints) w index)
     = snd (Stop (WithTimeout Background (5 * 1000000000))
              (worldAfter World GoToInputs ctx w done_)) /\
     actuation World (run (Ok waypoints) w index)
     = Returned noResponse
         match fst (Stop (WithTimeout Background (5 * 1000000000))
                      (worldAfter World GoToInputs ctx w done_)) with
         | Some stopErr => Wrap (Some cancelled) (Error stopErr)
         | None => None
         end /\
     exists progress,
       trace World (run (Ok waypoints) w index)
       = progress
         ++ [EvCancelled cancelled;
             EvStop (WithTimeout Background (5 * 1000000000))
               (fst (Stop (WithTimeout Background (5 * 1000000000))
                       (worldAfter World GoToInputs ctx w done_)))] /\
       Forall isProgress progress /\ commanded progress = done_) /\
  (forall err w',
     ctxErr ctx (worldAfter World GoToInputs ctx w done_) = None ->
     GoToInputs ctx waypoint (worldAfter World GoToInputs ctx w done_)
     = (Some err, w') ->
     world World (run (Ok waypoints) w index)
     = snd (Stop (WithTimeout Background (5 * 1000000000)) w') /\
     actuation World (run (Ok waypoints) w index)
     = Returned noResponse
         match fst (Stop (WithTimeout Background (5 * 1000000000)) w') with
         | Some stopErr => Wrap (Some err) (Error stopErr)
         | None => Some err
         end /\
     exists progress,
       trace World (run (Ok waypoints) w index)
       = progress
         ++ [EvGoToInputs (index + Z.of_nat (length done_)) waypoint (Some err);
             EvStop (WithTimeout Background (5 * 1000000000))
               (fst (Stop (WithTimeout Background (5 * 1000000000)) w'))] /\
       Forall isProgress progress /\ commanded progress = done_) /\
  (forall cause stopErr : error,
     exists combined,
       Wrap (Some cause) (Error stopErr) = Some combined /\
       Error combined = Error stopErr +:+ ": " +:+ Error cause /\
       contains (Error combined) (Error cause) /\
       contains (Error combined) (Error stopErr)).
Proof.
  intros Hindex Hd Hcalm.
  destruct (run_to_disturbance waypoints w index done_ waypoint rest
              Hindex Hd Hcalm)
    as (st & progress & Hact & Hlt & Hat & Hw & Htr & Hprog & Hcmd & Hrun).
  fold (after w done_). rewrite <- Hw.
  change (WithTimeout Background (5 * 1000000000)) with stopCtx.
  split; [|split; [|apply Wrap_keeps_both]].
  - intros cancelled Hc.
    pose proof (step_cancelled World ctxErr GoToInputs Stop ErrorState
                  planDeviationMM deviationReason ctx (Ok waypoints) st _ _ _
                  Hact Hlt Hc) as Hstep.
    fold step in Hstep.
    rewrite (Hrun _ Hstep I). simpl.
    split; [reflexivity|]. split; [reflexivity|].
    exists progress. rewrite Htr. auto.
  - intros err w' Hc Hgo.
    pose proof (step_failed World ctxErr GoToInputs Stop ErrorState
                  planDeviationMM deviationReason ctx (Ok waypoints) st _ _ _ _ _
                  Hact Hlt Hc Hat Hgo) as Hstep.
    fold step in Hstep.
    rewrite (Hrun _ Hstep I). simpl.
    split; [reflexivity|]. split; [reflexivity|].
    exists progress. rewrite Htr. auto.
Qed.

(** ** A run that nothing disturbs *)

Lemma following_loop (waypoints : list (list Input)) :
  (forall w, ctxErr ctx w = None) ->
  (forall waypoint w, fst (GoToInputs ctx waypoint w) = None) ->
  forall (k : nat) (i : int) (st : execution World),
    actuation World st = Looping waypoints i ->
    0 <= i -> Z.to_nat (Z.of_nat (length waypoints) - i) = k ->
    - 2 ^ 31 <= waypointIndex World st ->
    waypointIndex World st + Z.max 0 (Z.of_nat (length waypoints) - 1 - i)
    < 2 ^ 31 ->
    world World (Nat.iter (S k) (step (Ok waypoints)) st)
    = foldl go (world World st) (drop (Z.to_nat i) waypoints) /\
    commanded (trace World (Nat.iter (S k) (step (Ok waypoints)) st))
    = commanded (trace World st) ++ drop (Z.to_nat i) waypoints /\
    stopped (trace World (Nat.iter (S k) (step (Ok waypoints)) st))
    = stopped (trace World st) /\
    waypointIndex World (Nat.iter (S k) (step (Ok waypoints)) st)
    = waypointIndex World st + Z.max 0 (Z.of_nat (length waypoints) - 1 - i) /\
    actuation World (Nat.iter (S k) (step (Ok waypoints)) st)
    = Returned
        (fst (deviated (world World (Nat.iter (S k) (step (Ok waypoints)) st))
                (Z.of_nat (length waypoints) - 1)))
        (snd (deviated (world World (Nat.iter (S k) (step (Ok waypoints)) st))
                (Z.of_nat (length waypoints) - 1))).
Proof.
  intros Hctx Hgo. induction k as [|k IH]; intros i st Ht Hi Hk Hlo Hhi.
  - simpl Nat.iter. rewrite (step_done _ _ _ _ Ht) by lia. simpl.
    rewrite drop_ge by lia. simpl. rewrite app_nil_r.
    repeat split; try reflexivity. lia.
  - destruct (at_in_range waypoints i) as (wp & Hat & Hwp); [lia|].
    destruct (GoToInputs ctx wp (world World st)) as [e w1] eqn:Eg.
    pose proof (Hgo wp (world World st)) as He. rewrite Eg in He.
    simpl in He. subst e.
    rewrite Nat.iter_succ_r.
    rewrite (step_moved (Ok waypoints) st waypoints i wp w1 Ht ltac:(lia)
               (Hctx _) Hat Eg).
    match goal with
    | |- context [Nat.iter (S k) _ ?s] => set (st1 := s)
    end.
    assert (waypointIndex World st1
            = if i <? Z.of_nat (length waypoints) - 1
              then waypointIndex World st + 1 else waypointIndex World st)
      as Hidx.
    { unfold st1. simpl.
      destruct (Z.ltb_spec i (Z.of_nat (length waypoints) - 1));
        [|reflexivity].
      apply wrap32_small. lia. }
    destruct (IH (i + 1) st1) as (Hw & Hcmd & Hstop & Hindex & Hact).
    + reflexivity.
    + lia.
    + lia.
    + rewrite Hidx. destruct (i <? Z.of_nat (length waypoints) - 1); lia.
    + rewrite Hidx.
      destruct (Z.ltb_spec i (Z.of_nat (length waypoints) - 1)); lia.
    + replace (Z.to_nat (i + 1)) with (S (Z.to_nat i)) in Hw, Hcmd by lia.
      rewrite (drop_S _ _ _ Hwp). simpl foldl.
      split; [|split; [|split; [|split]]].
      * rewrite Hw. unfold st1, go. simpl. now rewrite Eg.
      * rewrite Hcmd. unfold st1. simpl. rewrite commanded_app. simpl.
        rewrite <- app_assoc.
        destruct (i <? Z.of_nat (length waypoints) - 1); reflexivity.
      * rewrite Hstop. unfold st1. simpl. rewrite stopped_app. simpl.
        destruct (i <? Z.of_nat (length waypoints) - 1); simpl;
          now rewrite orb_false_r.
      * rewrite Hindex, Hidx.
        destruct (Z.ltb_spec i (Z.of_nat (length waypoints) - 1)); lia.
      * exact Hact.
Qed.

(** X20: a run of [execute] that nothing disturbs follows the plan.
    When the context is never done and no command fails, [execute] from
    an index that is not negative sends the base to every waypoint from
    that index on, in the order of the plan and once each, never stops
    the base, leaves the waypoint index at the last waypoint (or where
    it was, if that is further), and returns what [deviatedFromPlan]
    says of the last waypoint in the world the commands have made. *)
Theorem execute_follows_plan (waypoints : list (list Input)) (w : World)
    (index : int) :
  (forall w', ctxErr ctx w' = None) ->
  (forall waypoint w', fst (GoToInputs ctx waypoint w') = None) ->
  0 <= index < 2 ^ 31 ->
  Z.of_nat (length waypoints) <= 2 ^ 31 ->
  commanded (trace World (run (Ok waypoints) w index))
  = drop (Z.to_nat index) waypoints /\
  stopped (trace World (run (Ok waypoints) w index)) = false /\
  world World (run (Ok waypoints) w index)
  = foldl go w (drop (Z.to_nat index) waypoints) /\
  waypointIndex World (run (Ok waypoints) w index)
  = Z.max index (Z.of_nat (length waypoints) - 1) /\
  actuation World (run (Ok waypoints) w index)
  = Returned
      (fst (deviated (world World (run (Ok waypoints) w index))
              (Z.of_nat (length waypoints) - 1)))
      (snd (deviated (world World (run (Ok waypoints) w index))
              (Z.of_nat (length waypoints) - 1))).
Proof.
  intros Hctx Hgo Hindex Hlen.
  set (k := Z.to_nat (Z.of_nat (length waypoints) - index)).
  set (looping := {| world := w; waypointIndex := index;
                     actuation := Looping waypoints index; trace := [] |}).
  assert (actuation World looping = Looping waypoints index) as Hloop
    by reflexivity.
  assert (- 2 ^ 31 <= waypointIndex World looping) as Hlo by (simpl; lia).
  assert (waypointIndex World looping
          + Z.max 0 (Z.of_nat (length waypoints) - 1 - index) < 2 ^ 31) as Hhi
    by (simpl; lia).
  destruct (following_loop waypoints Hctx Hgo k index looping Hloop
              ltac:(lia) eq_refl Hlo Hhi)
    as (Hw & Hcmd & Hstop & Hidx & Hact).
  assert (run (Ok waypoints) w index
          = Nat.iter (S k) (step (Ok waypoints)) looping) as Hrun.
  { assert (step (Ok waypoints)
              {| world := w; waypointIndex := index;
                 actuation := NotStarted; trace := [] |}
            = looping) as Hs
      by (rewrite step_start by reflexivity; reflexivity).
    unfold run, execute, executeFuel. fold step.
    rewrite Nat.iter_succ_r, Hs.
    replace (S (length waypoints)) with ((length waypoints - k) + S k)%nat
      by (unfold k; lia).
    rewrite Nat.iter_add.
    apply (iter_terminal World ctxErr GoToInputs Stop ErrorState
             planDeviationMM deviationReason ctx).
    fold step. rewrite Hact. exact I. }
  rewrite Hrun.
  split; [exact Hcmd|]. split; [exact Hstop|]. split; [exact Hw|].
  split; [rewrite Hidx; simpl; lia | exact Hact].
Qed.

(** X21: [execute] on a plan that has no waypoint left. From an index
    at or beyond the length of the plan (any index, for the empty plan)
    no command is sent, the base is not stopped, the world and the
    waypoint index stay as they are, and the result is what
    [deviatedFromPlan] says of the index [len(waypoints) - 1], which is
    -1 for the empty plan. *)
Theorem execute_with_nothing_left (waypoints : list (list Input)) (w : World)
    (index : int) :
  Z.of_nat (length waypoints) <= index ->
  run (Ok waypoints) w index
  = {| world := w; waypointIndex := index;
       actuation :=
         Returned (fst (deviated w (Z.of_nat (length waypoints) - 1)))
                  (snd (deviated w (Z.of_nat (length waypoints) - 1)));
       trace := [] |}.
Proof.
  intros Hi.
  assert (step (Ok waypoints)
            {| world := w; waypointIndex := index;
               actuation := NotStarted; trace := [] |}
          = {| world := w; waypointIndex := index;
               actuation := Looping waypoints index; trace := [] |}) as Hs
    by (rewrite step_start by reflexivity; reflexivity).
  unfold run, execute, executeFuel. fold step.
  rewrite !Nat.iter_succ_r, Hs.
  rewrite (step_done _ _ waypoints index) by (simpl; auto).
  cbn [world waypointIndex trace].
  apply (iter_terminal World ctxErr GoToInputs Stop ErrorState
           planDeviationMM deviationReason ctx).
  exact I.
Qed.

(** ** The order of the commands of any run *)

Let ordered := planOrder World ErrorState planDeviationMM deviationReason.

Lemma take_next (l : list (list Input)) (n : nat) (x : list Input) :
  l !! n = Some x -> take n l ++ [x] = take (S n) l.
Proof. intros Hl. symmetry. now apply take_S_r. Qed.

Lemma planOrder_step (waypoints : list (list Input)) (index : int)
    (st : execution World) :
  0 <= index ->
  ordered waypoints index st ->
  ordered waypoints index (step (Ok waypoints) st).
Proof.
  intros Hindex [Hev Hst].
  destruct (actuation World st) as [|wps i|resp err|] eqn:Ht.
  - destruct Hst as [Htr Hidx].
    rewrite (step_start _ _ Ht). split; simpl; [exact Hev|].
    rewrite Htr, Hidx. split; [reflexivity|]. split; [lia|].
    split; [reflexivity|].
    replace (index - index) with 0 by lia. reflexivity.
  - destruct Hst as (-> & Hi & Hstop & Hcmd).
    destruct (Z.lt_ge_cases i (Z.of_nat (length waypoints))) as [Hlt | Hge].
    + destruct (ctxErr ctx (world World st)) as [cancelled|] eqn:Ec.
      * rewrite (step_cancelled World ctxErr GoToInputs Stop ErrorState
                   planDeviationMM deviationReason ctx _ _ _ _ _ Ht Hlt Ec).
        split; simpl.
        -- apply Forall_app. split; [exact Hev | repeat constructor].
        -- right. rewrite stopped_app, commanded_app. simpl.
           rewrite orb_true_r, app_nil_r. eauto.
      * destruct (at_in_range waypoints i) as (wp & Hat & Hwp); [lia|].
        assert (remaining waypoints index !! Z.to_nat (i - index) = Some wp)
          as Hnext.
        { unfold remaining. rewrite lookup_drop.
          replace (Z.to_nat index + Z.to_nat (i - index))%nat
            with (Z.to_nat i) by lia.
          exact Hwp. }
        destruct (GoToInputs ctx wp (world World st)) as [[e|] w1] eqn:Eg.
        -- rewrite (step_failed World ctxErr GoToInputs Stop ErrorState
                      planDeviationMM deviationReason ctx _ _ _ _ _ _ _
                      Ht Hlt Ec Hat Eg).
           split; simpl.
           ++ apply Forall_app. split; [exact Hev | repeat constructor].
              exact Hat.
           ++ right. rewrite stopped_app, commanded_app. simpl.
              rewrite orb_true_r. split; [reflexivity|].
              split; [reflexivity|].
              exists (S (Z.to_nat (i - index))).
              rewrite Hcmd. now apply take_next.
        -- rewrite (step_moved _ _ _ _ _ _ Ht Hlt Ec Hat Eg).
           split; simpl.
           ++ apply Forall_app. split; [exact Hev|].
              destruct (i <? Z.of_nat (length waypoints) - 1);
                repeat constructor; exact Hat.
           ++ split; [reflexivity|]. split; [lia|].
              rewrite stopped_app, commanded_app, Hstop, Hcmd. simpl.
              replace (Z.to_nat (i + 1 - index))
                with (S (Z.to_nat (i - index))) by lia.
              rewrite <- (take_next _ _ _ Hnext).
              destruct (i <? Z.of_nat (length waypoints) - 1); simpl; auto.
    + rewrite (step_done _ _ _ _ Ht Hge). split; simpl; [exact Hev|].
      left. split; [exact Hstop|]. split.
      * rewrite Hcmd. apply take_ge. unfold remaining.
        rewrite length_drop. lia.
      * unfold deviated.
        destruct (deviatedFromPlan World ErrorState planDeviationMM
                    deviationReason (world World st) _); reflexivity.
  - rewrite (step_terminal World ctxErr GoToInputs Stop ErrorState
               planDeviationMM deviationReason ctx)
      by (rewrite Ht; exact I).
    split; [exact Hev|]. now rewrite Ht.
  - contradiction.
Qed.

Lemma planOrder_iter (waypoints : list (list Input)) (index : int) (n : nat)
    (st : execution World) :
  0 <= index ->
  ordered waypoints index st ->
  ordered waypoints index (Nat.iter n (step (Ok waypoints)) st).
Proof.
  intros Hindex Hst. induction n as [|n IH]; [exact Hst|].
  simpl. now apply planOrder_step.
Qed.

(** X22: the commands of any run of [execute] follow the order of the
    plan. From an index that is not negative, whatever the base and the
    context do, [execute] returns and does not panic; each command it
    has sent carries the waypoint of its index; the waypoints commanded
    are the first [n] of the waypoints from the index on, in their
    order and without gaps, for some [n]. A run without a stop of the
    base has commanded all of them and returns what [deviatedFromPlan]
    says of the last waypoint; a run with a stop returns the empty
    response. *)
Theorem execute_commands_in_plan_order (waypoints : list (list Input))
    (w : World) (index : int) :
  0 <= index ->
  exists resp err n,
    actuation World (run (Ok waypoints) w index) = Returned resp err /\
    Forall (fromPlan waypoints) (trace World (run (Ok waypoints) w index)) /\
    commanded (trace World (run (Ok waypoints) w index))
    = take n (drop (Z.to_nat index) waypoints) /\
    (stopped (trace World (run (Ok waypoints) w index)) = false ->
     commanded (trace World (run (Ok waypoints) w index))
     = drop (Z.to_nat index) waypoints /\
     (resp, err)
     = deviated (world World (run (Ok waypoints) w index))
         (Z.of_nat (length waypoints) - 1)) /\
    (stopped (trace World (run (Ok waypoints) w index)) = true ->
     resp = noResponse).
Proof.
  intros Hindex.
  assert (ordered waypoints index (run (Ok waypoints) w index)) as [Hev Hst].
  { unfold run, execute. fold step. apply planOrder_iter; [exact Hindex|].
    split; simpl; [constructor | auto]. }
  pose proof (execute_terminates World ctxErr GoToInputs Stop ErrorState
                planDeviationMM deviationReason ctx (Ok waypoints) w index)
    as Hterm.
  fold run in Hterm.
  destruct (actuation World (run (Ok waypoints) w index))
    as [|wps i|resp err|]; try contradiction.
  destruct Hst as [(Hstop & Hcmd & Hdev) | (Hstop & -> & n & Hcmd)].
  - exists resp, err, (length (remaining waypoints index)).
    split; [reflexivity|]. split; [exact Hev|].
    split; [rewrite Hcmd; symmetry; apply take_ge; reflexivity|].
    split; [auto|]. rewrite Hstop. discriminate.
  - exists noResponse, err, n.
    split; [reflexivity|]. split; [exact Hev|]. split; [exact Hcmd|].
    split; [rewrite Hstop; discriminate | reflexivity].
Qed.

(** ** [deviatedFromPlan] *)

(** X23: a deviation that is not a number asks for no replan. When the
    norm of the error state is NaN, or the allowed plan deviation is
    NaN, [deviatedFromPlan] returns the empty response and no error,
    however far the base is from the plan. *)
Theorem deviatedFromPlan_ignores_nan (w : World) (waypointIndex_ : int)
    (errorState : Pose) :
  ErrorState w waypointIndex_ = Ok errorState ->
  IsNaN (Norm (Point errorState)) = true \/ IsNaN planDeviationMM = true ->
  deviated w waypointIndex_ = (noResponse, None).
Proof.
  intros He Hnan. unfold deviated, deviatedFromPlan. rewrite He.
  destruct Hnan as [Hn | Hn].
  - now rewrite (ltb_nan_r _ _ Hn).
  - now rewrite (ltb_nan_l _ _ Hn).
Qed.

End Commands.

(** ** The statements at example runs *)

(** C8, as stated, fails for a cancellation. The plan has four
    waypoints and is followed from the second; the context is done once
    three commands were sent, that is while the command for the last
    waypoint runs. The loop has no pass left in which to find the
    context done: the base is not stopped, and [execute] returns the
    verdict of [deviatedFromPlan] and no error. *)
Lemma C8_late_cancellation_is_not_stopped :
  exampleCtxErr {| failAt := 0; cancelAt := 3; stopFails := false |}
    (WithCancel Background)
    (world nat
       (exampleExecute {| failAt := 0; cancelAt := 3; stopFails := false |}))
  = Some (errorString "context canceled") /\
  commanded
    (trace nat
       (exampleExecute {| failAt := 0; cancelAt := 3; stopFails := false |}))
  = [FloatsToInputs [1%float]; FloatsToInputs [2%float];
     FloatsToInputs [3%float]] /\
  stopped
    (trace nat
       (exampleExecute {| failAt := 0; cancelAt := 3; stopFails := false |}))
  = false /\
  actuation nat
    (exampleExecute {| failAt := 0; cancelAt := 3; stopFails := false |})
  = Returned noResponse None.
Proof. repeat split; vm_compute; reflexivity. Qed.

(** The theorem at two runs of the plan of four waypoints from the
    second: one whose second command fails and whose stop fails too,
    one that finds the context done after one command and whose stop
    succeeds. *)
Lemma C8_stop_follows_failure_or_cancel_witness :
  actuation nat
    (exampleExecute {| failAt := 2; cancelAt := 100; stopFails := true |})
  = Returned noResponse
      (Some (withMessage (errorString "motor stalled") "stop timed out")) /\
  actuation nat
    (exampleExecute {| failAt := 0; cancelAt := 1; stopFails := false |})
  = Returned noResponse None.
Proof.
  split.
  - destruct (C8_stop_follows_failure_or_cancel nat
                (exampleCtxErr {| failAt := 2; cancelAt := 100; stopFails := true |})
                (exampleGoToInputs
                   {| failAt := 2; cancelAt := 100; stopFails := true |})
                (exampleStop {| failAt := 2; cancelAt := 100; stopFails := true |})
                exampleErrorState 10 (fun _ _ _ => ""%string)
                (WithCancel Background)
                [FloatsToInputs [0%float]; FloatsToInputs [1%float];
                 FloatsToInputs [2%float]; FloatsToInputs [3%float]]
                0%nat initialWaypointIndex
                [FloatsToInputs [1%float]] (FloatsToInputs [2%float])
                [FloatsToInputs [3%float]])
      as (_ & Hfail & _).
    + unfold initialWaypointIndex. lia.
    + reflexivity.
    + simpl. repeat split.
    + destruct (Hfail (errorString "motor stalled") 2%nat eq_refl eq_refl)
        as (_ & Hact & _).
      exact Hact.
  - destruct (C8_stop_follows_failure_or_cancel nat
                (exampleCtxErr {| failAt := 0; cancelAt := 1; stopFails := false |})
                (exampleGoToInputs
                   {| failAt := 0; cancelAt := 1; stopFails := false |})
                (exampleStop {| failAt := 0; cancelAt := 1; stopFails := false |})
                exampleErrorState 10 (fun _ _ _ => ""%string)
                (WithCancel Background)
                [FloatsToInputs [0%float]; FloatsToInputs [1%float];
                 FloatsToInputs [2%float]; FloatsToInputs [3%float]]
                0%nat initialWaypointIndex
                [FloatsToInputs [1%float]] (FloatsToInputs [2%float])
                [FloatsToInputs [3%float]])
      as (Hcancel & _ & _).
    + unfold initialWaypointIndex. lia.
    + reflexivity.
    + simpl. repeat split.
    + destruct (Hcancel (errorString "context canceled") eq_refl)
        as (_ & Hact & _).
      exact Hact.
Defined.

(** A plan of three waypoints, followed from its second. *)
Lemma execute_follows_plan_witness :
  commanded
    (trace (list (list Input))
       (followingExecute
          [FloatsToInputs [0%float]; FloatsToInputs [1%float];
           FloatsToInputs [2%float]] 1))
  = [FloatsToInputs [1%float]; FloatsToInputs [2%float]].
Proof.
  apply (execute_follows_plan (list (list Input)) (fun _ _ => None)
           followingGoToInputs (fun _ reached => (None, reached))
           (fun _ _ => Ok (NewPoseFromPoint {| X := 0; Y := 0; Z := 0 |}))
           10 (fun _ _ _ => ""%string) (WithCancel Background)
           [FloatsToInputs [0%float]; FloatsToInputs [1%float];
            FloatsToInputs [2%float]] [] 1).
  - reflexivity.
  - reflexivity.
  - lia.
  - simpl. lia.
Defined.

(** The empty plan. *)
Lemma execute_with_nothing_left_witness :
  followingExecute [] 1
  = {| world := []; waypointIndex := 1;
       actuation := Returned noResponse None; trace := [] |}.
Proof.
  apply (execute_with_nothing_left (list (list Input)) (fun _ _ => None)
           followingGoToInputs (fun _ reached => (None, reached))
           (fun _ _ => Ok (NewPoseFromPoint {| X := 0; Y := 0; Z := 0 |}))
           10 (fun _ _ _ => ""%string) (WithCancel Background) [] [] 1).
  simpl. lia.
Defined.

(** The plan of four waypoints on a base whose second command fails. *)
Lemma execute_commands_in_plan_order_witness :
  exists resp err n,
    actuation nat
      (exampleExecute {| failAt := 2; cancelAt := 10; stopFails := false |})
    = Returned resp err /\
    Forall (fromPlan [FloatsToInputs [0%float]; FloatsToInputs [1%float];
                      FloatsToInputs [2%float]; FloatsToInputs [3%float]])
      (trace nat
         (exampleExecute {| failAt := 2; cancelAt := 10; stopFails := false |})) /\
    commanded
      (trace nat
         (exampleExecute {| failAt := 2; cancelAt := 10; stopFails := false |}))
    = take n (drop (Z.to_nat initialWaypointIndex)
                [FloatsToInputs [0%float]; FloatsToInputs [1%float];
                 FloatsToInputs [2%float]; FloatsToInputs [3%float]]).
Proof.
  destruct (execute_commands_in_plan_order nat
              (exampleCtxErr {| failAt := 2; cancelAt := 10; stopFails := false |})
              (exampleGoToInputs
                 {| failAt := 2; cancelAt := 10; stopFails := false |})
              (exampleStop {| failAt := 2; cancelAt := 10; stopFails := false |})
              exampleErrorState 10 (fun _ _ _ => ""%string)
              (WithCancel Background)
              [FloatsToInputs [0%float]; FloatsToInputs [1%float];
               FloatsToInputs [2%float]; FloatsToInputs [3%float]]
              0%nat initialWaypointIndex ltac:(unfold initialWaypointIndex; lia))
    as (resp & err & n & Hact & Hev & Hcmd & _).
  exists resp, err, n. auto.
Defined.

(** An error state whose point is not a number. *)
Lemma deviatedFromPlan_ignores_nan_witness :
  deviatedFromPlan unit
    (fun _ _ => Ok (NewPoseFromPoint {| X := (0 / 0)%float; Y := 0; Z := 0 |}))
    10 (fun _ _ _ => "deviated"%string) tt 3
  = (noResponse, None).
Proof.
  apply (deviatedFromPlan_ignores_nan unit
           (fun _ _ => Ok (NewPoseFromPoint
                             {| X := (0 / 0)%float; Y := 0; Z := 0 |}))
           10 (fun _ _ _ => "deviated"%string) tt 3 _ eq_refl).
  left. vm_compute. reflexivity.
Defined.

End ExecuteFacts.

(* ===================================================================== *)
(** * Constraints on the pose of a state *)
(* ===================================================================== *)

Module PoseConstraintFacts.
Import spatialmath referenceframe motionplan.
Import ConstraintFacts HandlerFacts ConfigurationFacts.

(** ** [math.Max] against zero *)

Lemma IsNaN_false (f : float64) : Prim2SF f <> S754_nan -> IsNaN f = false.
Proof.
  intros Hn. destruct (IsNaN f) eqn:E; [|reflexivity].
  apply IsNaN_spec in E. contradiction.
Qed.

Lemma math_Max_zero (x : float64) :
  (math_Max x 0 =? 0)%float = (x <=? 0)%float.
Proof.
  unfold math_Max.
  assert ((0 =? infinity)%float = false) as -> by reflexivity.
  assert (IsNaN 0 = false) as -> by reflexivity.
  rewrite !orb_false_r.
  destruct (Prim2SF x) as [s|s| |s m e] eqn:Ex.
  - assert ((x =? infinity)%float = false) as ->
      by (rewrite FloatAxioms.eqb_spec, Ex; reflexivity).
    rewrite IsNaN_false by (rewrite Ex; discriminate).
    assert ((x =? 0)%float = true) as Hz
      by (rewrite FloatAxioms.eqb_spec, Ex; reflexivity).
    rewrite Hz. simpl.
    assert ((x <=? 0)%float = true) as ->
      by (rewrite FloatAxioms.leb_spec, Ex; reflexivity).
    destruct (Signbit x); [reflexivity | exact Hz].
  - destruct s.
    + assert ((x =? infinity)%float = false) as ->
        by (rewrite FloatAxioms.eqb_spec, Ex; reflexivity).
      rewrite IsNaN_false by (rewrite Ex; discriminate).
      assert ((x =? 0)%float = false) as ->
        by (rewrite FloatAxioms.eqb_spec, Ex; reflexivity).
      assert ((0 <? x)%float = false) as ->
        by (rewrite FloatAxioms.ltb_spec, Ex; reflexivity).
      simpl. rewrite FloatAxioms.leb_spec, Ex. reflexivity.
    + assert ((x =? infinity)%float = true) as ->
        by (rewrite FloatAxioms.eqb_spec, Ex; reflexivity).
      rewrite FloatAxioms.leb_spec, Ex. reflexivity.
  - assert ((x =? infinity)%float = false) as ->
      by (rewrite FloatAxioms.eqb_spec, Ex; reflexivity).
    assert (IsNaN x = true) as -> by (now apply IsNaN_spec).
    rewrite FloatAxioms.leb_spec, Ex. reflexivity.
  - assert ((x =? infinity)%float = false) as ->
      by (rewrite FloatAxioms.eqb_spec, Ex; destruct s; reflexivity).
    rewrite IsNaN_false by (rewrite Ex; discriminate).
    assert ((x =? 0)%float = false) as Hz
      by (rewrite FloatAxioms.eqb_spec, Ex; destruct s; reflexivity).
    rewrite Hz. simpl.
    rewrite FloatAxioms.ltb_spec, FloatAxioms.leb_spec, Ex.
    destruct s; simpl; [reflexivity|].
    rewrite Hz. reflexivity.
Qed.

(** ** The constructors *)

Lemma State_resolve_Some (cInput resolved : StateInput.t) :
  State_resolveInputsToPositions cInput = (resolved, None) ->
  is_Some (StateInput.Position resolved) /\
  State_resolveInputsToPositions resolved = (resolved, None).
Proof.
  unfold State_resolveInputsToPositions.
  destruct (resolvePosition (StateInput.Position cInput) _ _) as [r|] eqn:E;
    [|discriminate].
  apply resolvePosition_Ok in E as [_ (pose & -> & _)].
  intros [= <-]. simpl. eauto.
Qed.

Section Constructed.
Variable defaultEpsilon : float64.
Variable DistToLineSegment : Vector -> Vector -> Vector -> float64.
Variable orientDist : R4AA -> R4AA -> float64.
Variable CombineMetrics : StateMetric -> StateMetric -> StateMetric.

Let Line := NewLineConstraint defaultEpsilon DistToLineSegment.
Let Slerp := NewSlerpOrientationConstraint defaultEpsilon orientDist.
Let Absolute :=
  NewAbsoluteLinearInterpolatingConstraint defaultEpsilon DistToLineSegment
    orientDist CombineMetrics.
Let Proportional :=
  NewProportionalLinearInterpolatingConstraint defaultEpsilon DistToLineSegment
    orientDist CombineMetrics.

(** X24: the constraint of [NewLineConstraint] accepts a state exactly
    when the pose of the state can be resolved and the distance of its
    point to the segment, less the tolerance, is at most zero; a
    distance that is NaN is rejected. The tolerance is the given one,
    or [defaultEpsilon] when the two points of the line are closer than
    [defaultEpsilon]. *)
Theorem LineConstraint_accepts_iff (pt1 pt2 : Vector) (tolerance : float64)
    (cInput : StateInput.t) :
  fst (Line pt1 pt2 tolerance) cInput = true
  <-> exists resolved position,
        State_resolveInputsToPositions cInput = (resolved, None) /\
        StateInput.Position resolved = Some position /\
        (DistToLineSegment pt1 pt2 (Point position)
         - (if (Distance pt1 pt2 <? defaultEpsilon)%float then defaultEpsilon
            else tolerance) <=? 0)%float = true.
Proof.
  unfold Line, NewLineConstraint, validWhen, lineTolerance. simpl.
  destruct (State_resolveInputsToPositions cInput) as [resolved [err|]] eqn:E.
  - split; [discriminate|]. intros (r & p & [=] & _).
  - destruct (StateInput.Position resolved) as [position|] eqn:Ep.
    + rewrite math_Max_zero. split.
      * intros Hle. exists resolved, position. auto.
      * intros (r & p & [= <-] & Hp & Hle). rewrite Ep in Hp.
        injection Hp as <-. exact Hle.
    + split; [discriminate|].
      intros (r & p & [= <-] & Hp & _). rewrite Ep in Hp. discriminate.
Qed.

Lemma validWhen_seesResolved (gradFunc : StateMetric) (test : float64 -> bool) :
  seesResolved (validWhen gradFunc test).
Proof.
  intros cInput. unfold validWhen. split.
  - destruct (State_resolveInputsToPositions cInput) as [r [err|]];
      [reflexivity | contradiction].
  - intros resolved E. rewrite E.
    now rewrite (proj2 (State_resolve_Some _ _ E)).
Qed.

Lemma andb_seesResolved (a b : StateConstraint) :
  seesResolved a -> seesResolved b ->
  seesResolved (fun cInput => a cInput && b cInput).
Proof.
  intros Ha Hb cInput. destruct (Ha cInput) as [Ha1 Ha2].
  destruct (Hb cInput) as [Hb1 Hb2]. split.
  - intros Hu. now rewrite Ha1.
  - intros resolved E. now rewrite (Ha2 _ E), (Hb2 _ E).
Qed.

Lemma Absolute_seesResolved (from to : Pose) (linTol orientTol : float64) :
  seesResolved (fst (Absolute from to linTol orientTol)).
Proof.
  unfold Absolute, NewAbsoluteLinearInterpolatingConstraint. simpl.
  apply andb_seesResolved; apply validWhen_seesResolved.
Qed.

(** X25: the constraints of [NewLineConstraint],
    [NewSlerpOrientationConstraint],
    [NewAbsoluteLinearInterpolatingConstraint] and
    [NewProportionalLinearInterpolatingConstraint] decide on the
    resolved state: each rejects a state whose pose cannot be computed,
    and gives the same verdict on a state and on that state with its
    pose filled in. The interpolating constraint accepts exactly what
    both its orientation constraint and its line constraint accept. So
    a handler that holds only such constraints gives a state and its
    resolved form the same verdict: that one constraint has filled in
    the pose changes nothing for the next. *)
Theorem pose_constraints_see_resolved_state (pt1 pt2 : Vector)
    (from to : Pose) (tolerance linTol orientTol epsilon : float64) :
  seesResolved (fst (Line pt1 pt2 tolerance)) /\
  seesResolved (fst (Slerp from to tolerance)) /\
  seesResolved (fst (Absolute from to linTol orientTol)) /\
  seesResolved (fst (Proportional from to epsilon)) /\
  (forall cInput,
     fst (Absolute from to linTol orientTol) cInput
     = fst (Slerp from to orientTol) cInput
       && fst (Line (Point from) (Point to) linTol) cInput) /\
  (forall (c : ConstraintHandler) (cInput resolved : StateInput.t),
     (forall name_ cons, stateConstraints c !! name_ = Some cons ->
        seesResolved cons) ->
     State_resolveInputsToPositions cInput = (resolved, None) ->
     fst (CheckStateConstraints c cInput)
     = fst (CheckStateConstraints c resolved)).
Proof.
  split; [apply validWhen_seesResolved|].
  split; [apply validWhen_seesResolved|].
  split; [apply Absolute_seesResolved|].
  split; [apply Absolute_seesResolved|].
  split; [reflexivity|].
  intros c cInput resolved Hall E. apply bool_eq_iff.
  rewrite !CheckStateConstraints_true.
  split; intros Hpass n cons Hl.
  - rewrite <- (proj2 (Hall n cons Hl cInput) resolved E). now apply (Hpass n).
  - rewrite (proj2 (Hall n cons Hl cInput) resolved E). now apply (Hpass n).
Qed.

End Constructed.

(** The slide at 2 lies on the x axis; the parabola at 2 is at (2,4,0),
    4 away from it. *)
Example LineConstraint_example :
  fst (NewLineConstraint 1e-3 distToXAxis {| X := 0; Y := 0; Z := 0 |}
         {| X := 10; Y := 0; Z := 0 |} 0.5) (slideState 2) = true /\
  fst (NewLineConstraint 1e-3 distToXAxis {| X := 0; Y := 0; Z := 0 |}
         {| X := 10; Y := 0; Z := 0 |} 0.5)
    {| StateInput.Position := None;
       StateInput.Configuration := Some [ {| Value := 2 |} ];
       StateInput.Frame := Some parabolaFrame |} = false.
Proof. split; vm_compute; reflexivity. Qed.

End PoseConstraintFacts.

(* ===================================================================== *)
(** * The fake arm: joint values shared between messages *)
(* ===================================================================== *)

Module FakeArmFacts.
Import spatialmath referenceframe fake.

Lemma elements_length (mem : Memory) (s : Float64Slice) :
  allocated mem s -> length (elements mem s) = len s.
Proof.
  intros (vals & Hl & Hlen). unfold elements. rewrite Hl. simpl.
  rewrite length_take. lia.
Qed.

Lemma elements_copy (mem : Memory) (dst src : Float64Slice) :
  allocated mem dst -> allocated mem src ->
  elements (copy mem dst src) dst
  = take (Nat.min (len dst) (len src)) (elements mem src)
    ++ drop (Nat.min (len dst) (len src)) (elements mem dst).
Proof.
  intros Hdst Hsrc. pose proof (elements_length _ _ Hsrc) as Hn.
  destruct Hdst as (old & Hl & Hlen).
  set (n := Nat.min (len dst) (len src)).
  assert (elements mem dst = take (len dst) old) as Eold
    by (unfold elements; now rewrite Hl).
  rewrite Eold.
  assert (elements (copy mem dst src) dst
          = take (len dst) (take n (elements mem src) ++ drop n old)) as ->.
  { unfold copy. rewrite Hl. fold n. unfold elements at 1.
    now rewrite lookup_insert_eq. }
  assert (length (take n (elements mem src)) = n) as Hn'
    by (rewrite length_take; lia).
  rewrite take_app_ge by lia. rewrite Hn'. f_equal.
  rewrite take_drop_commute. f_equal. f_equal. lia.
Qed.

Lemma copy_other (mem : Memory) (dst src : Float64Slice) (address : positive) :
  address <> array dst -> copy mem dst src !! address = mem !! address.
Proof.
  intros Hne. unfold copy. destruct (mem !! array dst); [|reflexivity].
  now rewrite lookup_insert_ne.
Qed.

Section Moves.
Variable Transform : list Input -> result Pose.
Variable InputFromProtobuf : list float64 -> list Input.
Variable ProtobufFromInput : list Input -> list float64.

Let Move := MoveToJointPositions Transform InputFromProtobuf.
Let Inputs := CurrentInputs InputFromProtobuf.
Let GoTo := GoToInputs Transform InputFromProtobuf ProtobufFromInput.

(** X26: the joint positions the fake arm hands out are not a copy.
    [JointPositions] returns a message on the array of the arm, and a
    [MoveToJointPositions] that the model accepts writes the first
    [min(n, m)] of the [m] given values over that array, [n] being the
    number of joints of the arm. So a message returned before the move
    reads the new values after it; the arm keeps its number of joints,
    and joints beyond the given values keep their value; no other array
    changes. A move that the model rejects changes nothing. *)
Theorem MoveToJointPositions_writes_shared_values (a : Arm) (mem : Memory)
    (goal : JointPositions) :
  allocated mem (Values (joints a)) ->
  allocated mem (Values goal) ->
  match Move a mem goal with
  | (Some err, mem') =>
      mem' = mem /\
      Transform (InputFromProtobuf (elements mem (Values goal))) = Err err
  | (None, mem') =>
      elements mem' (Values (fst (Arm_JointPositions a)))
      = take (Nat.min (len (Values (joints a))) (len (Values goal)))
          (elements mem (Values goal))
        ++ drop (Nat.min (len (Values (joints a))) (len (Values goal)))
             (elements mem (Values (fst (Arm_JointPositions a)))) /\
      length (elements mem' (Values (fst (Arm_JointPositions a))))
      = len (Values (joints a)) /\
      forall address,
        address <> array (Values (joints a)) -> mem' !! address = mem !! address
  end.
Proof.
  intros Ha Hg. unfold Move, MoveToJointPositions.
  destruct (Transform _) as [pose|err] eqn:Et; [|auto].
  simpl. split; [now apply elements_copy|]. split.
  - rewrite (elements_copy _ _ _ Ha Hg).
    rewrite length_app, length_take, length_drop.
    rewrite (elements_length _ _ Ha), (elements_length _ _ Hg). lia.
  - intros address Hne. now apply copy_other.
Qed.

Lemma allocate_fresh (mem : Memory) (vals : list float64) (s : Float64Slice) :
  allocated mem s ->
  allocated (fst (allocate mem vals)) s /\
  allocated (fst (allocate mem vals)) (snd (allocate mem vals)) /\
  elements (fst (allocate mem vals)) s = elements mem s /\
  elements (fst (allocate mem vals)) (snd (allocate mem vals)) = vals.
Proof.
  intros (old & Hl & Hlen). unfold allocate. simpl.
  assert (fresh (dom mem) <> array s) as Hne.
  { intros E. apply (is_fresh (dom mem)). rewrite E.
    apply elem_of_dom. eauto. }
  split; [|split; [|split]].
  - exists old. rewrite lookup_insert_ne by exact Hne. auto.
  - exists vals. simpl. now rewrite lookup_insert_eq.
  - unfold elements. now rewrite lookup_insert_ne by exact Hne.
  - unfold elements. simpl. rewrite lookup_insert_eq. simpl.
    now rewrite take_ge.
Qed.

(** X27: [CurrentInputs] after [GoToInputs]. When the model accepts the
    goal, the inputs the arm reports next are the conversion of the
    joint values then in its array: the first [min(n, m)] of the [m]
    values the goal converts to, followed by the old values of the
    other joints. When the goal converts to as many values as the arm
    has joints and the two conversions of the model undo each other on
    it, the arm reports the goal. *)
Theorem CurrentInputs_after_GoToInputs (a : Arm) (mem mem' : Memory)
    (goal : list Input) :
  allocated mem (Values (joints a)) ->
  GoTo a mem goal = (None, mem') ->
  Inputs a mem'
  = Ok (InputFromProtobuf
          (take (Nat.min (len (Values (joints a))) (length (ProtobufFromInput goal)))
             (ProtobufFromInput goal)
           ++ drop (Nat.min (len (Values (joints a)))
                      (length (ProtobufFromInput goal)))
                (elements mem (Values (joints a))))) /\
  (length (ProtobufFromInput goal) = len (Values (joints a)) ->
   InputFromProtobuf (ProtobufFromInput goal) = goal ->
   Inputs a mem' = Ok goal).
Proof.
  intros Ha. unfold GoTo, GoToInputs.
  destruct (allocate_fresh mem (ProtobufFromInput goal) _ Ha)
    as (Ha1 & Hg1 & Hea & Heg).
  destruct (allocate mem (ProtobufFromInput goal)) as [mem1 vals] eqn:Eal.
  simpl in Ha1, Hg1, Hea, Heg.
  assert (len vals = length (ProtobufFromInput goal)) as Hlen.
  { unfold allocate in Eal. injection Eal as _ <-. reflexivity. }
  unfold MoveToJointPositions. simpl.
  destruct (Transform _) as [pose|err]; [|discriminate].
  intros [= <-].
  assert (Inputs a (copy mem1 (Values (joints a)) vals)
          = Ok (InputFromProtobuf
                  (take (Nat.min (len (Values (joints a)))
                           (length (ProtobufFromInput goal)))
                     (ProtobufFromInput goal)
                   ++ drop (Nat.min (len (Values (joints a)))
                              (length (ProtobufFromInput goal)))
                        (elements mem (Values (joints a)))))) as Hin.
  { unfold Inputs, CurrentInputs. simpl.
    rewrite (elements_copy _ _ _ Ha1 Hg1), Heg, Hea, Hlen. reflexivity. }
  split; [exact Hin|].
  intros Hsame Hundo. rewrite Hin, Hsame, Nat.min_id.
  rewrite <- Hsame at 1. rewrite firstn_all.
  rewrite drop_ge by (rewrite (elements_length _ _ Ha); lia).
  now rewrite app_nil_r, Hundo.
Qed.

End Moves.

(** ** The statements at the example arm *)

Lemma exampleFakeArm_allocated :
  allocated exampleArmMemory (Values (joints exampleFakeArm)).
Proof. eexists. split; [reflexivity | simpl; lia]. Qed.

Lemma exampleMessage_allocated :
  allocated exampleArmMemory (Values exampleMessage).
Proof. eexists. split; [reflexivity | simpl; lia]. Qed.

(** Three values sent to the arm of six joints: the message taken
    before the move reads them afterwards. *)
Lemma MoveToJointPositions_writes_shared_values_witness :
  elements
    (snd (MoveToJointPositions anyTransform FloatsToInputs exampleFakeArm
            exampleArmMemory exampleMessage))
    (Values (fst (Arm_JointPositions exampleFakeArm)))
  = [10; 20; 30; 0; 0; 0]%float.
Proof.
  pose proof (MoveToJointPositions_writes_shared_values anyTransform
                FloatsToInputs exampleFakeArm exampleArmMemory exampleMessage
                exampleFakeArm_allocated exampleMessage_allocated) as Hmove.
  assert (MoveToJointPositions anyTransform FloatsToInputs exampleFakeArm
            exampleArmMemory exampleMessage
          = (None,
             snd (MoveToJointPositions anyTransform FloatsToInputs
                    exampleFakeArm exampleArmMemory exampleMessage))) as E
    by reflexivity.
  rewrite E in Hmove. destruct Hmove as [Hvals _].
  rewrite Hvals. reflexivity.
Defined.

Lemma CurrentInputs_after_GoToInputs_witness :
  CurrentInputs FloatsToInputs exampleFakeArm
    (snd (GoToInputs anyTransform FloatsToInputs InputsToFloats exampleFakeArm
            exampleArmMemory (FloatsToInputs [1; 2; 3; 4; 5; 6]%float)))
  = Ok (FloatsToInputs [1; 2; 3; 4; 5; 6]%float).
Proof.
  apply (CurrentInputs_after_GoToInputs anyTransform FloatsToInputs
           InputsToFloats exampleFakeArm exampleArmMemory _
           (FloatsToInputs [1; 2; 3; 4; 5; 6]%float)
           exampleFakeArm_allocated).
  - reflexivity.
  - reflexivity.
  - reflexivity.
Defined.

End FakeArmFacts.
